(** * MSR transfer detection: period-over-period reconciliation

    A shallow embedding of the three investigation scripts

      - [investigation_fhlmc_servicer_changes_2026-02-11.py]
      - [investigation_mlld_servicer_changes_2026-02-11.py]
      - [investigation_gnma_servicer_changes_2026-02-11.py]

    The first two share one body (the differencing reconciler, module
    [Differencing]); the third is the flagged-transfer reconciler (module
    [Flagged]).  Data frames are lists of records; a nullable column is an
    [option].  The data-frame operations the scripts call ([group_by],
    [join], [filter], [unique], [sort]) are written out in module [Frame]
    with the null handling the scripts rely on.

    Numbers.  A Float64 column is modelled by [f64]: an exact rational, an
    infinity or NaN.  Rounding and the sign of zero are not modelled, so
    the sums and quotients of the model are the exact ones; what is stated
    of a balance column is therefore stated of the rows it is summed over
    and of exact totals, not of its binary64 value.  Row counts are [nat]
    (the scripts' UInt32 counts never reach 2^32 rows).

    Strings are UTF-8 byte strings.

    What the library leaves open.  [unique] is called with its default
    [keep="any"] and [sort] without [maintain_order]: which of the rows
    sharing a key survives, and in which order tied rows come out, is not
    fixed by the calls.  Both choices are parameters of the model ([pick]
    and [tie_order]); a property of the scripts holds for every value of
    them.  [group_by] and [join] are called without [maintain_order] as
    well; the model lists groups and joined rows in the order of first
    occurrence, and a property that speaks of an aggregate is stated up to
    the order of its rows.  The rows of a run pass through the final sort,
    whose [tie_order] covers every order they can arrive in.

    Layout.  [F64], [Frame], [Run]: numbers, data-frame operations and the
    outcome of a run.  [Differencing], [Flagged]: the scripts.
    [FileNames], [Report]: the file names and the console summary.
    [Examples]: small inputs.  [Vocabulary], [MoreVocabulary]: the
    predicates the properties are stated with.  Then the facts about each
    layer and the properties. *)

From Stdlib Require Import List Bool Arith ZArith QArith Lia Lqa.
From Stdlib Require Import String Ascii.
From Stdlib Require Import Permutation Sorted.
From Stdlib Require Import OrderedTypeEx.
Import ListNotations.

Set Implicit Arguments.
Local Close Scope Q_scope.
Local Open Scope list_scope.

(* ------------------------------------------------------------------ *)
(** ** Float64 columns *)

Module F64.

Local Open Scope Q_scope.

Inductive f64 : Type :=
| Fin (q : Q)
| Inf (negative : bool)
| NaN.

Definition zero : f64 := Fin 0.

Definition of_count (n : nat) : f64 := Fin (inject_Z (Z.of_nat n)).

Definition Qneg (q : Q) : bool := negb (Qle_bool 0 q).

Definition add (x y : f64) : f64 :=
  match x, y with
  | NaN, _ | _, NaN => NaN
  | Inf a, Inf b => if Bool.eqb a b then Inf a else NaN
  | Inf a, Fin _ => Inf a
  | Fin _, Inf b => Inf b
  | Fin a, Fin b => Fin (a + b)
  end.

(** True division.  A zero divisor does not raise: the quotient is NaN for
    a zero dividend and an infinity otherwise. *)
Definition div (x y : f64) : f64 :=
  match x, y with
  | NaN, _ | _, NaN => NaN
  | Inf _, Inf _ => NaN
  | Inf a, Fin d => Inf (xorb a (Qneg d))
  | Fin _, Inf _ => Fin 0
  | Fin n, Fin d =>
      if Qeq_bool d 0
      then (if Qeq_bool n 0 then NaN else Inf (Qneg n))
      else Fin (n / d)
  end.

(** Arithmetic on nullable columns: a null operand gives a null result. *)
Definition div_col (x y : option f64) : option f64 :=
  match x, y with
  | Some a, Some b => Some (div a b)
  | _, _ => None
  end.

Definition add_col (x y : option f64) : option f64 :=
  match x, y with
  | Some a, Some b => Some (add a b)
  | _, _ => None
  end.

(** [sum()] of a column: nulls are skipped; the sum of no value is 0. *)
Fixpoint sum (col : list (option f64)) : f64 :=
  match col with
  | [] => zero
  | None :: rest => sum rest
  | Some v :: rest => add v (sum rest)
  end.

(** A value is finite and lies between 0 and 1. *)
Definition unit_interval (x : f64) : Prop :=
  match x with
  | Fin q => 0 <= q /\ q <= 1
  | _ => False
  end.

Definition finite (x : f64) : Prop :=
  match x with Fin _ => True | _ => False end.

Definition positive (x : f64) : Prop :=
  match x with Fin q => 0 < q | _ => False end.

Definition is_zero (x : f64) : Prop :=
  match x with Fin q => q == 0 | _ => False end.

End F64.
Import F64.

(* ------------------------------------------------------------------ *)
(** ** Data-frame operations *)

Module Frame.

(** Keys of [group_by], [unique] and [join]: types with a boolean equality. *)
Class EqKey (K : Type) := {
  keqb : K -> K -> bool;
  keqb_spec : forall a b, reflect (a = b) (keqb a b)
}.

#[export] Instance EqKey_string : EqKey string :=
  {| keqb := String.eqb; keqb_spec := String.eqb_spec |}.

Definition option_eqb {K} `{EqKey K} (a b : option K) : bool :=
  match a, b with
  | Some x, Some y => keqb x y
  | None, None => true
  | _, _ => false
  end.

(** In [group_by] and [unique] a null key is a key like any other. *)
#[export] Instance EqKey_option {K} `{EqKey K} : EqKey (option K) :=
  {| keqb := @option_eqb K _;
     keqb_spec :=
       (ltac:(intros [x|] [y|]; simpl; try (constructor; congruence);
              destruct (keqb_spec x y); constructor; congruence)
        : forall a b : option K, reflect (a = b) (option_eqb a b)) |}.

Definition pair_eqb {K1 K2} `{EqKey K1} `{EqKey K2} (a b : K1 * K2) : bool :=
  keqb (fst a) (fst b) && keqb (snd a) (snd b).

#[export] Instance EqKey_pair {K1 K2} `{EqKey K1} `{EqKey K2}
    : EqKey (K1 * K2) :=
  {| keqb := @pair_eqb K1 K2 _ _;
     keqb_spec :=
       (ltac:(intros [a1 a2] [b1 b2]; unfold pair_eqb; simpl;
              destruct (keqb_spec a1 b1), (keqb_spec a2 b2);
              constructor; congruence)
        : forall a b : K1 * K2, reflect (a = b) (@pair_eqb K1 K2 _ _ a b)) |}.

Section Ops.
Context {K : Type} `{EqKey K}.

(** The distinct values of a column, in order of first occurrence. *)
Fixpoint distinct (col : list K) : list K :=
  match col with
  | [] => []
  | k :: rest => k :: filter (fun k' => negb (keqb k k')) (distinct rest)
  end.

(** [group_by(key)]: one group per distinct key, holding the rows of that
    key in frame order.  Called without [maintain_order], the library
    fixes no order of the groups; they are listed here in the order of
    first occurrence of their keys. *)
Definition group_by {R} (key : R -> K) (df : list R) : list (K * list R) :=
  map (fun k => (k, filter (fun r => keqb (key r) k) df))
      (distinct (map key df)).

(** Join keys: a null key matches nothing, not even another null. *)
Definition key_match (a b : option K) : bool :=
  match a, b with
  | Some x, Some y => keqb x y
  | _, _ => false
  end.

(** [join(how="inner")]: every pair of rows with matching keys. *)
Definition inner_join {L R} (lkey : L -> option K) (rkey : R -> option K)
    (left : list L) (right : list R) : list (L * R) :=
  flat_map (fun l =>
    map (fun r => (l, r))
        (filter (fun r => key_match (lkey l) (rkey r)) right)) left.

(** [join(how="left")]: every left row once per matching right row, and
    once with null right columns when nothing matches. *)
Definition left_join {L R} (lkey : L -> option K) (rkey : R -> option K)
    (left : list L) (right : list R) : list (L * option R) :=
  flat_map (fun l =>
    match filter (fun r => key_match (lkey l) (rkey r)) right with
    | [] => [(l, None)]
    | ms => map (fun r => (l, Some r)) ms
    end) left.

(** The rows of one key. *)
Definition candidates {R} (key : R -> K) (k : K) (df : list R) : list R :=
  filter (fun r => keqb (key r) k) df.

(** [unique(subset=key)] with the default [keep="any"]: one row per key.
    Which of the rows sharing a key survives is not fixed by the call; the
    choice is the parameter [pick], an index into the rows of that key
    (an index past the end falls back to the first of them). *)
Definition kept {R} (key : R -> K) (pick : list R -> nat) (k : K)
    (df : list R) : list R :=
  match candidates key k df with
  | [] => []
  | c :: cs => [nth (pick (c :: cs)) (c :: cs) c]
  end.

Definition unique_any {R} (pick : list R -> nat) (key : R -> K)
    (df : list R) : list R :=
  flat_map (fun k => kept key pick k df) (distinct (map key df)).

End Ops.

Definition keep_first {R} (candidates : list R) : nat := 0.
Definition keep_last {R} (candidates : list R) : nat := List.length candidates - 1.

(** [count()] of a column counts its non-null values. *)
Definition count {A} (col : list (option A)) : nat :=
  List.length (filter (fun v => match v with Some _ => true | None => false end) col).

(** Comparison of two nullable values with [!=]: null if either is null. *)
Definition ne_col {K} `{EqKey K} (a b : option K) : option bool :=
  match a, b with
  | Some x, Some y => Some (negb (keqb x y))
  | _, _ => None
  end.

(** [filter] keeps the rows whose predicate is true; false and null drop. *)
Definition holds (p : option bool) : bool :=
  match p with Some true => true | _ => false end.

(** *** Sorting by columns *)

(** [sort(by, descending)]: rows compare by the first column on which they
    differ, each column ascending or descending by its flag. *)
Fixpoint order_by {R} (cols : list ((R -> R -> comparison) * bool))
    (a b : R) : comparison :=
  match cols with
  | [] => Eq
  | (cmp, descending) :: rest =>
      match (if descending then CompOpp (cmp a b) else cmp a b) with
      | Eq => order_by rest a b
      | c => c
      end
  end.

Fixpoint insert_row {R} (cmp : R -> R -> comparison) (x : R) (l : list R)
    : list R :=
  match l with
  | [] => [x]
  | y :: rest =>
      match cmp x y with
      | Gt => y :: insert_row cmp x rest
      | _ => x :: y :: rest
      end
  end.

Definition sort_rows {R} (cmp : R -> R -> comparison) (df : list R) : list R :=
  fold_right (insert_row cmp) [] df.

End Frame.
Import Frame.

(* ------------------------------------------------------------------ *)
(** ** What a run of a script ends in *)

Module Run.

(** [Fatal]: an exception left [main] before anything was written.
    [NoOutput]: [main] returned at "No ... detected." without writing.
    [Written rows]: the CSV was written with these rows, in this order. *)
Inductive outcome (R : Type) : Type :=
| Fatal
| NoOutput
| Written (rows : list R).

Arguments Fatal {R}.
Arguments NoOutput {R}.
Arguments Written {R} rows.

(** The order in which a sort without [maintain_order] happens to meet the
    rows it is given: some rearrangement of them. *)
Record tie_order (R : Type) : Type := {
  shuffle :> list R -> list R;
  shuffle_perm : forall l, Permutation (shuffle l) l
}.

Definition as_given {R} : tie_order R :=
  {| shuffle := fun l => l; shuffle_perm := @Permutation_refl R |}.

Definition reversed {R} : tie_order R :=
  {| shuffle := @rev R;
     shuffle_perm := fun l => Permutation_sym (Permutation_rev l) |}.

Section Finish.
Variable R : Type.
Variable month_of : R -> string.
Variable n_loans_of : R -> nat.

(** [sort(["transition_month", "n_loans"], descending=[False, True])] *)
Definition output_order : R -> R -> comparison :=
  order_by
    [ (fun a b => String.compare (month_of a) (month_of b), false);
      (fun a b => Nat.compare (n_loans_of a) (n_loans_of b), true) ].

(** The tail of [main]: concatenate the per-step frames, sort, write.
    The sort is called without [maintain_order], so the relative order of
    rows that tie on both columns is not fixed by the call: it follows
    the order [ties] in which the sort meets them. *)
Definition finish (ties : tie_order R) (all_results : list (list R))
    : outcome R :=
  match all_results with
  | [] => NoOutput
  | _ => Written (sort_rows output_order (ties (List.concat all_results)))
  end.

End Finish.
End Run.
Import Run.

(* ------------------------------------------------------------------ *)
(** ** The differencing reconciler (FHLMC FU and FNMA MLLD scripts) *)

Module Differencing.

(** One row of a monthly file, projected on [COLS]. *)
Record loan : Type := {
  loan_identifier : option string;
  servicer_name : option string;
  current_upb : option f64
}.

Definition frame := list loan.

(** A discovered monthly file: the token [extract_month] reads off its
    name, and what [load_month] returns for it ([None] when the scan or
    the column projection raises). *)
Record monthly_file : Type := {
  file_month : string;
  file_load : option frame
}.

(** [seller_totals] and [buyer_totals]: one row per servicer of a month. *)
Record totals : Type := {
  t_servicer : option string;
  t_total_n : nat;
  t_total_upb : f64
}.

Definition servicer_totals (df : frame) : list totals :=
  map (fun g =>
         {| t_servicer := fst g;
            t_total_n := count (map loan_identifier (snd g));
            t_total_upb := sum (map current_upb (snd g)) |})
      (group_by servicer_name df).

(** A row of [joined]. *)
Record joined_row : Type := {
  j_loan_identifier : option string;
  j_servicer_from : option string;
  j_upb_from : option f64;
  j_servicer_to : option string;
  j_upb_to : option f64
}.

Definition joined (df_prev df_curr : frame) : list joined_row :=
  map (fun p =>
         {| j_loan_identifier := loan_identifier (fst p);
            j_servicer_from := servicer_name (fst p);
            j_upb_from := current_upb (fst p);
            j_servicer_to := servicer_name (snd p);
            j_upb_to := current_upb (snd p) |})
      (inner_join loan_identifier loan_identifier df_prev df_curr).

Definition changed (df_prev df_curr : frame) : list joined_row :=
  filter (fun j => holds (ne_col (j_servicer_from j) (j_servicer_to j)))
         (joined df_prev df_curr).

(** A row of [agg] after the two left joins and the fraction columns,
    before the intermediate columns are dropped. *)
Record agg_row : Type := {
  a_servicer_from : option string;
  a_servicer_to : option string;
  a_n_loans : nat;
  a_total_upb_from : f64;
  a_total_upb : f64;
  a_transition_month : string;
  a_seller_total_n : option nat;
  a_seller_total_upb : option f64;
  a_buyer_total_n : option nat;
  a_buyer_total_upb : option f64;
  a_frac_seller_n : option f64;
  a_frac_seller_upb : option f64;
  a_frac_buyer_n : option f64;
  a_frac_buyer_upb : option f64
}.

(** A row of the output. *)
Record transition : Type := {
  servicer_from : option string;
  servicer_to : option string;
  n_loans : nat;
  total_upb : f64;
  transition_month : string;
  frac_seller_n : option f64;
  frac_seller_upb : option f64;
  frac_buyer_n : option f64;
  frac_buyer_upb : option f64
}.

Definition group_key : Type := option string * option string.

(** [changed.group_by("servicer_from", "servicer_to")] *)
Definition changed_groups (ch : list joined_row)
    : list (group_key * list joined_row) :=
  group_by (fun j => (j_servicer_from j, j_servicer_to j)) ch.

Definition with_fractions (month_curr : string)
    (row : (group_key * list joined_row) * option totals * option totals)
    : agg_row :=
  let '(g, seller, buyer) := row in
  let n := count (map j_loan_identifier (snd g)) in
  let upb_from := sum (map j_upb_from (snd g)) in
  let upb_to := sum (map j_upb_to (snd g)) in
  let seller_n := option_map t_total_n seller in
  let seller_upb := option_map t_total_upb seller in
  let buyer_n := option_map t_total_n buyer in
  let buyer_upb := option_map t_total_upb buyer in
  {| a_servicer_from := fst (fst g);
     a_servicer_to := snd (fst g);
     a_n_loans := n;
     a_total_upb_from := upb_from;
     a_total_upb := upb_to;
     a_transition_month := month_curr;
     a_seller_total_n := seller_n;
     a_seller_total_upb := seller_upb;
     a_buyer_total_n := buyer_n;
     a_buyer_total_upb := buyer_upb;
     a_frac_seller_n :=
       div_col (Some (of_count n)) (option_map of_count seller_n);
     a_frac_seller_upb := div_col (Some upb_from) seller_upb;
     a_frac_buyer_n :=
       div_col (Some (of_count n)) (option_map of_count buyer_n);
     a_frac_buyer_upb := div_col (Some upb_to) buyer_upb |}.

(** [agg] up to and including the fraction columns. *)
Definition aggregate (month_curr : string) (df_prev df_curr : frame)
    : list agg_row :=
  let seller_totals := servicer_totals df_prev in
  let buyer_totals := servicer_totals df_curr in
  let with_seller :=
    left_join (fun g => fst (fst g)) t_servicer
              (changed_groups (changed df_prev df_curr)) seller_totals in
  let with_buyer :=
    left_join (fun gs => snd (fst (fst gs))) t_servicer
              with_seller buyer_totals in
  map (with_fractions month_curr) with_buyer.

Definition drop (a : agg_row) : transition :=
  {| servicer_from := a_servicer_from a;
     servicer_to := a_servicer_to a;
     n_loans := a_n_loans a;
     total_upb := a_total_upb a;
     transition_month := a_transition_month a;
     frac_seller_n := a_frac_seller_n a;
     frac_seller_upb := a_frac_seller_upb a;
     frac_buyer_n := a_frac_buyer_n a;
     frac_buyer_upb := a_frac_buyer_upb a |}.

(** One pass of the loop body: what is appended to [all_results]. *)
Definition step (month_curr : string) (df_prev df_curr : frame)
    : list (list transition) :=
  match changed df_prev df_curr with
  | [] => []
  | _ => [map drop (aggregate month_curr df_prev df_curr)]
  end.

(** The sliding window: [df_prev] is the one month kept across a pass. *)
Fixpoint window (df_prev : frame) (rest : list monthly_file)
    (all_results : list (list transition))
    : option (list (list transition)) :=
  match rest with
  | [] => Some all_results
  | f :: rest' =>
      match file_load f with
      | None => None
      | Some df_curr =>
          window df_curr rest'
                 (all_results ++ step (file_month f) df_prev df_curr)
      end
  end.

(** [main] on the sorted list of discovered files.  With no file at all
    [files[0]] raises. *)
Definition main (ties : tie_order transition)
    (files : list monthly_file) : outcome transition :=
  match files with
  | [] => Fatal
  | f0 :: rest =>
      match file_load f0 with
      | None => Fatal
      | Some df_prev =>
          match window df_prev rest [] with
          | None => Fatal
          | Some all_results =>
              finish transition_month n_loans ties all_results
          end
      end
  end.

End Differencing.

(* ------------------------------------------------------------------ *)
(** ** The flagged-transfer reconciler (GNMA script) *)

Module Flagged.

(** *** Strings *)

(** Strings are UTF-8 byte strings.  [str.strip_chars()] called without
    an argument removes, at both ends of the string, the characters that
    have the Unicode White_Space property; [white_space] lists their
    encodings. *)
Definition bytes (codes : list nat) : string :=
  fold_right (fun n s => String (ascii_of_nat n) s) EmptyString codes.

Definition white_space : list string :=
  map bytes
    [ [9]; [10]; [11]; [12]; [13]; [32];
      (* U+0085, U+00A0 *)
      [194; 133]; [194; 160];
      (* U+1680 *)
      [225; 154; 128];
      (* U+2000 to U+200A *)
      [226; 128; 128]; [226; 128; 129]; [226; 128; 130]; [226; 128; 131];
      [226; 128; 132]; [226; 128; 133]; [226; 128; 134]; [226; 128; 135];
      [226; 128; 136]; [226; 128; 137]; [226; 128; 138];
      (* U+2028, U+2029, U+202F *)
      [226; 128; 168]; [226; 128; 169]; [226; 128; 175];
      (* U+205F *)
      [226; 129; 159];
      (* U+3000 *)
      [227; 128; 128] ]%nat.

(** [s] without its prefix [p], when it starts with [p]. *)
Fixpoint without_prefix (p s : string) : option string :=
  match p, s with
  | EmptyString, _ => Some s
  | String a p', String b s' =>
      if Ascii.eqb a b then without_prefix p' s' else None
  | String _ _, EmptyString => None
  end.

(** [s] without the one of [codes] it starts with, if any. *)
Fixpoint without_leading (codes : list string) (s : string)
    : option string :=
  match codes with
  | [] => None
  | p :: rest =>
      match without_prefix p s with
      | Some s' => Some s'
      | None => without_leading rest s
      end
  end.

(** Removing leading [codes] as long as there is one; every step takes
    at least one byte away, so [fuel] bytes of fuel are enough for a string
    of that length. *)
Fixpoint strip_start (codes : list string) (fuel : nat) (s : string)
    : string :=
  match fuel with
  | O => s
  | S fuel' =>
      match without_leading codes s with
      | Some s' => strip_start codes fuel' s'
      | None => s
      end
  end.

Definition rev_string (s : string) : string :=
  string_of_list_ascii (rev (list_ascii_of_string s)).

Definition lstrip (s : string) : string :=
  strip_start white_space (String.length s) s.

Definition rstrip (s : string) : string :=
  rev_string
    (strip_start (map rev_string white_space) (String.length s)
                 (rev_string s)).

Definition strip_chars (s : string) : string := rstrip (lstrip s).

(** *** The issuer lookup *)

(** The [dict] [name_map], as the list of its items.  Keys and values are
    cells of string columns and either may be null ([None]); assignment
    to a key already present overwrites its value in place. *)
Definition dict := list (option string * option string).

Fixpoint dict_set (d : dict) (k v : option string) : dict :=
  match d with
  | [] => [(k, v)]
  | (k', v') :: rest =>
      if keqb k' k then (k', v) :: rest else (k', v') :: dict_set rest k v
  end.

(** [None] when the key is absent; the stored value, which may be null,
    otherwise. *)
Fixpoint dict_get (d : dict) (k : option string) : option (option string) :=
  match d with
  | [] => None
  | (k', v') :: rest => if keqb k' k then Some v' else dict_get rest k
  end.

(** A row of an issrcutoff frame: the two slices of [text_content],
    stripped; both are null when [text_content] is. *)
Definition issrcutoff_row (text_content : option string)
    : option string * option string :=
  (option_map (fun t => strip_chars (substring 0 4 t)) text_content,
   option_map (fun t => strip_chars (substring 4 56 t)) text_content).

(** [build_issuer_lookup]: the rows (identifier, name) of the nissues
    files first, then the fixed-width [text_content] lines of the
    issrcutoff files. *)
Definition build_issuer_lookup (nissues : list (option string * option string))
    (issrcutoff : list (option string)) : dict :=
  let name_map :=
    fold_left (fun d row => dict_set d (fst row) (snd row)) nissues [] in
  fold_left (fun d text_content =>
               dict_set d (fst (issrcutoff_row text_content))
                          (snd (issrcutoff_row text_content)))
            issrcutoff name_map.

(** [name_map.get(iid, f"ID:{iid}")]: the stored name, null when a null
    name is stored, and the placeholder when the identifier is no key. *)
Definition issuer_name (name_map : dict) (iid : string) : option string :=
  match dict_get name_map (Some iid) with
  | Some name => name
  | None => Some ("ID:" ++ iid)%string
  end.

(** *** Loan-level files *)

(** One L record, projected on the five columns [main] selects (the
    loan-sequence column under whichever of its two names the file has). *)
Record loan : Type := {
  pool_id : option string;
  loan_seq : option string;
  issuer_id : option string;
  seller_issuer_id : option string;
  upb : option string
}.

Definition frame := list loan.

(** What scanning a file gives: the scan or the projection raises; the
    schema has neither loan-sequence column; or the rows are read. *)
Inductive parquet : Type :=
| Unreadable
| NoLoanColumn
| Loans (rows : frame).

Record source_file : Type := {
  file_month : string;
  file_scan : parquet
}.

(** [files_by_month], a [dict] from month to the list of its files, filled
    with [setdefault(...).append(f)]. *)
Fixpoint setdefault_append (d : list (string * list source_file))
    (m : string) (f : source_file) : list (string * list source_file) :=
  match d with
  | [] => [(m, [f])]
  | (k, fs) :: rest =>
      if String.eqb k m then (k, fs ++ [f]) :: rest
      else (k, fs) :: setdefault_append rest m f
  end.

Definition since_201504 (files : list source_file) : list source_file :=
  filter (fun f => String.leb "201504"%string (file_month f)) files.

Definition files_by_month (llmon1_files llmon2_files : list source_file)
    : list (string * list source_file) :=
  fold_left (fun d f => setdefault_append d (file_month f) f)
            (since_201504 llmon1_files ++ since_201504 llmon2_files) [].

Definition months_of (by_month : list (string * list source_file))
    : list string :=
  sort_rows String.compare (map fst by_month).

Fixpoint files_of (by_month : list (string * list source_file)) (m : string)
    : list source_file :=
  match by_month with
  | [] => []
  | (k, fs) :: rest => if String.eqb k m then fs else files_of rest m
  end.

(** The inner loop over a month's files: [month_frames], or [None] when a
    scan raises.  A file without a loan-sequence column is passed over. *)
Fixpoint month_frames (files : list source_file) : option (list frame) :=
  match files with
  | [] => Some []
  | f :: rest =>
      match file_scan f with
      | Unreadable => None
      | NoLoanColumn => month_frames rest
      | Loans rows =>
          match month_frames rest with
          | None => None
          | Some frames => Some (rows :: frames)
          end
      end
  end.

Definition dedup_key (r : loan) : option string * option string :=
  (pool_id r, loan_seq r).

(** [pl.concat(month_frames).unique(subset=[COL_POOL, COL_LOAN])];
    [pl.concat] raises on an empty list of frames. *)
Definition df_month_of (pick : frame -> nat) (frames : list frame)
    : option frame :=
  match frames with
  | [] => None
  | _ => Some (unique_any pick dedup_key (List.concat frames))
  end.

Section Reconciler.

(** The string-to-Float64 cast of the data-frame library with
    [strict=False]: [None] for a string it cannot read as a number. *)
Variable cast_float64 : string -> option f64.

(** What [build_issuer_lookup()] returned. *)
Variable name_map : dict.

(** [upb_dollars] *)
Definition parse_upb (v : option string) : option f64 :=
  let stripped := option_map strip_chars v in
  let replaced :=
    match stripped with
    | Some s => if String.eqb s ""%string then None else Some s
    | None => None
    end in
  let casted :=
    match replaced with
    | Some s => cast_float64 s
    | None => None
    end in
  div_col casted (Some (Fin 100%Q)).

Definition upb_dollars (r : loan) : option f64 := parse_upb (upb r).

Record totals : Type := {
  t_issuer : option string;
  t_total_n : nat;
  t_total_upb : f64
}.

(** [servicer_totals] *)
Definition servicer_totals (df_month : frame) : list totals :=
  map (fun g =>
         {| t_issuer := fst g;
            t_total_n := List.length (snd g);
            t_total_upb := sum (map upb_dollars (snd g)) |})
      (group_by issuer_id df_month).

Definition seller_populated (r : loan) : bool :=
  match seller_issuer_id r with
  | Some s => negb (String.eqb (strip_chars s) ""%string)
  | None => false
  end.

Definition transfers (df_month : frame) : frame :=
  filter seller_populated df_month.

Definition group_key : Type := option string * option string.

(** [transfers.group_by(COL_SELLER, COL_ISSUER)] *)
Definition transfer_groups (tr : frame) : list (group_key * frame) :=
  group_by (fun r => (seller_issuer_id r, issuer_id r)) tr.

(** [seller_transferred] joined with [seller_remaining]: [seller_book]. *)
Record book : Type := {
  b_seller : option string;
  b_total_n : nat;
  b_total_upb : f64
}.

Definition fill_null {A} (v : option A) (d : A) : A :=
  match v with Some x => x | None => d end.

Definition seller_book (df_month : frame) : list book :=
  let seller_transferred := group_by seller_issuer_id (transfers df_month) in
  let seller_remaining := servicer_totals df_month in
  map (fun row =>
         let '(g, remain) := row in
         {| b_seller := fst g;
            b_total_n :=
              List.length (snd g) + fill_null (option_map t_total_n remain) 0;
            b_total_upb :=
              add (sum (map upb_dollars (snd g)))
                  (fill_null (option_map t_total_upb remain) zero) |})
      (left_join (fun g => fst g) t_issuer seller_transferred seller_remaining).

(** A row of [agg] with its joined totals and fraction columns, before the
    final [select]. *)
Record agg_row : Type := {
  a_seller : option string;
  a_issuer : option string;
  a_n_loans : nat;
  a_total_upb : f64;
  a_transition_month : string;
  a_buyer_total_n : option nat;
  a_buyer_total_upb : option f64;
  a_seller_total_n : option nat;
  a_seller_total_upb : option f64;
  a_frac_seller_n : option f64;
  a_frac_seller_upb : option f64;
  a_frac_buyer_n : option f64;
  a_frac_buyer_upb : option f64
}.

Definition with_fractions (month : string)
    (row : (group_key * frame) * option totals * option book) : agg_row :=
  let '(g, buyer, seller) := row in
  let n := List.length (snd g) in
  let total := sum (map upb_dollars (snd g)) in
  let buyer_n := option_map t_total_n buyer in
  let buyer_upb := option_map t_total_upb buyer in
  let seller_n := option_map b_total_n seller in
  let seller_upb := option_map b_total_upb seller in
  {| a_seller := fst (fst g);
     a_issuer := snd (fst g);
     a_n_loans := n;
     a_total_upb := total;
     a_transition_month := month;
     a_buyer_total_n := buyer_n;
     a_buyer_total_upb := buyer_upb;
     a_seller_total_n := seller_n;
     a_seller_total_upb := seller_upb;
     a_frac_seller_n :=
       div_col (Some (of_count n)) (option_map of_count seller_n);
     a_frac_seller_upb := div_col (Some total) seller_upb;
     a_frac_buyer_n :=
       div_col (Some (of_count n)) (option_map of_count buyer_n);
     a_frac_buyer_upb := div_col (Some total) buyer_upb |}.

Definition aggregate (month : string) (df_month : frame) : list agg_row :=
  let with_buyer :=
    left_join (fun g => snd (fst g)) t_issuer
              (transfer_groups (transfers df_month))
              (servicer_totals df_month) in
  let with_seller :=
    left_join (fun gb => fst (fst (fst gb))) b_seller
              with_buyer (seller_book df_month) in
  map (with_fractions month) with_seller.

(** A row of the output. *)
Record transition : Type := {
  out_seller_issuer_id : option string;
  servicer_from : option string;
  out_issuer_id : option string;
  servicer_to : option string;
  transition_month : string;
  n_loans : nat;
  total_upb : f64;
  frac_seller_n : option f64;
  frac_seller_upb : option f64;
  frac_buyer_n : option f64;
  frac_buyer_upb : option f64
}.

(** [map_elements(issuer_name, ...)]: a null identifier stays null without
    a call; otherwise the cell is what [issuer_name] returns, null
    included. *)
Definition resolve_name (iid : option string) : option string :=
  match iid with
  | Some i => issuer_name name_map i
  | None => None
  end.

(** The name columns and the final [select]. *)
Definition resolve (a : agg_row) : transition :=
  {| out_seller_issuer_id := a_seller a;
     servicer_from := resolve_name (a_seller a);
     out_issuer_id := a_issuer a;
     servicer_to := resolve_name (a_issuer a);
     transition_month := a_transition_month a;
     n_loans := a_n_loans a;
     total_upb := a_total_upb a;
     frac_seller_n := a_frac_seller_n a;
     frac_seller_upb := a_frac_seller_upb a;
     frac_buyer_n := a_frac_buyer_n a;
     frac_buyer_upb := a_frac_buyer_upb a |}.

(** What one month appends to [all_results], given its [df_month]. *)
Definition reconcile (month : string) (df_month : frame)
    : list (list transition) :=
  match transfers df_month with
  | [] => []
  | _ => [map resolve (aggregate month df_month)]
  end.

Variable pick : frame -> nat.

(** The loop over [months]. *)
Fixpoint process (by_month : list (string * list source_file))
    (months : list string) (all_results : list (list transition))
    : option (list (list transition)) :=
  match months with
  | [] => Some all_results
  | month :: rest =>
      match month_frames (files_of by_month month) with
      | None => None
      | Some frames =>
          match df_month_of pick frames with
          | None => None
          | Some df_month =>
              process by_month rest (all_results ++ reconcile month df_month)
          end
      end
  end.

(** [main] on the two sorted lists of discovered files.  With no month at
    all [months[0]] raises. *)
Definition main (ties : tie_order transition)
    (llmon1_files llmon2_files : list source_file) : outcome transition :=
  let by_month := files_by_month llmon1_files llmon2_files in
  match months_of by_month with
  | [] => Fatal
  | months =>
      match process by_month months [] with
      | None => Fatal
      | Some all_results =>
          finish transition_month n_loans ties all_results
      end
  end.

End Reconciler.

(** A reader of plain decimal integers (an optional minus sign, then
    digits), used to run the reconciler on examples: on such strings it
    returns what the library's cast returns. *)
Definition digit_of (c : ascii) : option Z :=
  let n := nat_of_ascii c in
  if andb (48 <=? n)%nat (n <=? 57)%nat then Some (Z.of_nat (n - 48)) else None.

Fixpoint digits (s : string) (acc : Z) : option Z :=
  match s with
  | EmptyString => Some acc
  | String c rest =>
      match digit_of c with
      | Some d => digits rest (10 * acc + d)%Z
      | None => None
      end
  end.

Definition cast_integer (s : string) : option f64 :=
  match s with
  | EmptyString => None
  | String "-"%char (String c rest) =>
      option_map (fun z => Fin (inject_Z (- z))) (digits (String c rest) 0%Z)
  | _ => option_map (fun z => Fin (inject_Z z)) (digits s 0%Z)
  end.

End Flagged.


(* ------------------------------------------------------------------ *)
(** ** File names: [extract_month] of each script *)

Module FileNames.

(** [str.replace(old, new)] for a non-empty [old]: every occurrence of
    [old], found from left to right without overlap, becomes [new].
    [skip] counts the characters of a found occurrence still to pass. *)
Fixpoint replace_from (old new s : string) (skip : nat) : string :=
  match s with
  | EmptyString => EmptyString
  | String c rest =>
      match skip with
      | S k => replace_from old new rest k
      | O =>
          if String.prefix old s
          then String.append new
                 (replace_from old new rest (String.length old - 1))
          else String c (replace_from old new rest 0)
      end
  end.

Definition replace (old new s : string) : string := replace_from old new s 0.

(** [str.split(sep)] for a one-character separator: the pieces between
    the occurrences of [sep]; always at least one piece. *)
Fixpoint split (sep : ascii) (s : string) : list string :=
  match s with
  | EmptyString => [EmptyString]
  | String c rest =>
      if Ascii.eqb c sep then EmptyString :: split sep rest
      else match split sep rest with
           | piece :: pieces => String c piece :: pieces
           | [] => [String c EmptyString]
           end
  end.

(** [name.rfind(".")]: the index of the last "." of [name]. *)
Fixpoint rfind_dot (name : string) : option nat :=
  match name with
  | EmptyString => None
  | String c rest =>
      match rfind_dot rest with
      | Some i => Some (S i)
      | None => if Ascii.eqb c "." then Some 0 else None
      end
  end.

(** [Path.stem] of a file name: the name without its last suffix.  A "."
    that opens or closes the name starts no suffix. *)
Definition stem (name : string) : string :=
  match rfind_dot name with
  | Some i =>
      if (0 <? i) && (i <? String.length name - 1)
      then substring 0 i name
      else name
  | None => name
  end.

(** The FHLMC script; [stem] is [p.stem]. *)
Module Fhlmc.
Definition extract_month (stem : string) : string :=
  let raw := replace "fu" "" stem in
  let yy := substring 0 2 raw in
  let mm := substring 2 2 raw in
  let yyyy := String.append "20" yy in
  String.append yyyy mm.
End Fhlmc.

(** The FNMA MLLD script: [p.stem.split("_")[-1]]. *)
Module Mlld.
Definition extract_month (stem : string) : string :=
  last (split "_" stem) EmptyString.
End Mlld.

(** The GNMA script: [f.stem.split("_")[1]]; [None] when the index is out
    of range and the subscript raises. *)
Module Gnma.
Definition extract_month (stem : string) : option string :=
  nth_error (split "_" stem) 1.
End Gnma.

End FileNames.

(* ------------------------------------------------------------------ *)
(** ** The console summary at the end of [main] *)

Module Report.

Section Summary.
Variable R : Type.
Variable n_loans_of : R -> nat.

(** [combined['n_loans'].sum()] *)
Definition total_n_loans (combined : list R) : nat :=
  list_sum (map n_loans_of combined).

(** [combined.sort("n_loans", descending=True).head(20)] *)
Definition top20 (ties : tie_order R) (combined : list R) : list R :=
  firstn 20
    (sort_rows
       (order_by [(fun a b => Nat.compare (n_loans_of a) (n_loans_of b), true)])
       (ties combined)).

End Summary.

(** [combined.select('servicer_from', 'servicer_to').unique().height] *)
Definition unique_pairs {R} (from_of to_of : R -> option string)
    (combined : list R) : nat :=
  List.length (distinct (map (fun r => (from_of r, to_of r)) combined)).

(** [pct = n_part / n_all * 100 if n_all > 0 else 0.0], the share of
    changed (or transferred) loans printed for each step. *)
Definition pct (n_part n_all : nat) : Q :=
  if (0 <? n_all)%nat
  then (inject_Z (Z.of_nat n_part) / inject_Z (Z.of_nat n_all) * 100)%Q
  else 0%Q.

(** What a line of the top-20 listing formats: the month, both names cut
    to 40 characters, the loan count, the balance and the two count
    fractions.  Subscripting or formatting a null raises. *)
Record line : Type := {
  l_month : string;
  l_from : string;
  l_to : string;
  l_n_loans : nat;
  l_total_upb : f64;
  l_frac_seller_n : f64;
  l_frac_buyer_n : f64
}.

Definition differencing_line (row : Differencing.transition) : option line :=
  match Differencing.servicer_from row, Differencing.servicer_to row,
        Differencing.frac_seller_n row, Differencing.frac_buyer_n row with
  | Some f, Some t, Some fs, Some fb =>
      Some {| l_month := Differencing.transition_month row;
              l_from := substring 0 40 f;
              l_to := substring 0 40 t;
              l_n_loans := Differencing.n_loans row;
              l_total_upb := Differencing.total_upb row;
              l_frac_seller_n := fs;
              l_frac_buyer_n := fb |}
  | _, _, _, _ => None
  end.

Definition flagged_line (row : Flagged.transition) : option line :=
  match Flagged.servicer_from row, Flagged.servicer_to row,
        Flagged.frac_seller_n row, Flagged.frac_buyer_n row with
  | Some f, Some t, Some fs, Some fb =>
      Some {| l_month := Flagged.transition_month row;
              l_from := substring 0 40 f;
              l_to := substring 0 40 t;
              l_n_loans := Flagged.n_loans row;
              l_total_upb := Flagged.total_upb row;
              l_frac_seller_n := fs;
              l_frac_buyer_n := fb |}
  | _, _, _, _ => None
  end.

(** The loop over [top20]: the lines printed, or [None] when one raises. *)
Fixpoint listing {R} (line_of : R -> option line) (top : list R)
    : option (list line) :=
  match top with
  | [] => Some []
  | row :: rest =>
      match line_of row with
      | None => None
      | Some l =>
          match listing line_of rest with
          | None => None
          | Some ls => Some (l :: ls)
          end
      end
  end.

End Report.

(* ------------------------------------------------------------------ *)
(** ** Small inputs *)

Module Examples.

Local Open Scope string_scope.

(** *** Monthly files of the differencing scripts *)

Definition fu (lid servicer : string) (upb : Z) : Differencing.loan :=
  {| Differencing.loan_identifier := Some lid;
     Differencing.servicer_name := Some servicer;
     Differencing.current_upb := Some (Fin (inject_Z upb)) |}.

(** Loan L1 stays with A, loan L2 moves from A to B, loan L3 is new. *)
Definition fu_201906 : Differencing.frame :=
  [fu "L1" "A" 100; fu "L2" "A" 200].

Definition fu_201907 : Differencing.frame :=
  [fu "L1" "A" 90; fu "L2" "B" 190; fu "L3" "B" 50].

Definition fu_file (month : string) (load : option Differencing.frame)
    : Differencing.monthly_file :=
  {| Differencing.file_month := month; Differencing.file_load := load |}.

Definition fu_files : list Differencing.monthly_file :=
  [fu_file "201906" (Some fu_201906); fu_file "201907" (Some fu_201907)].



(** Three months: two transitions of one loan each in 202001 (a tie), and
    a larger one after a smaller one in 202002. *)
Definition fu_202000 : Differencing.frame :=
  [fu "L1" "A" 10; fu "L2" "C" 10; fu "L3" "A" 10; fu "L4" "A" 10;
   fu "L5" "C" 10].
Definition fu_202001 : Differencing.frame :=
  [fu "L1" "B" 10; fu "L2" "B" 10; fu "L3" "A" 10; fu "L4" "A" 10;
   fu "L5" "C" 10].
Definition fu_202002 : Differencing.frame :=
  [fu "L1" "B" 10; fu "L2" "B" 10; fu "L3" "D" 10; fu "L4" "D" 10;
   fu "L5" "D" 10].

Definition fu_files_three : list Differencing.monthly_file :=
  [fu_file "202000" (Some fu_202000); fu_file "202001" (Some fu_202001);
   fu_file "202002" (Some fu_202002)].

(** *** Monthly files of the flagged-transfer script *)

Definition ll (pool seq issuer : string) (seller : option string)
    (upb : string) : Flagged.loan :=
  {| Flagged.pool_id := Some pool;
     Flagged.loan_seq := Some seq;
     Flagged.issuer_id := Some issuer;
     Flagged.seller_issuer_id := seller;
     Flagged.upb := Some upb |}.

Definition ll_file (month : string) (scan : Flagged.parquet)
    : Flagged.source_file :=
  {| Flagged.file_month := month; Flagged.file_scan := scan |}.

(** Four loans of issuer Y, one of them taken over from X; X keeps one. *)
Definition ll_201504 : Flagged.frame :=
  [ll "P1" "1" "Y" (Some "X") "10000";
   ll "P1" "2" "Y" None "20000";
   ll "P1" "3" "Y" (Some "  ") "30000";
   ll "P1" "4" "Y" None "";
   ll "P2" "1" "X" None "50000"].

Definition ll_names : Flagged.dict :=
  Flagged.build_issuer_lookup
    [(Some "X", Some "OLD NAME OF X")] [Some "X   X SERVICING"].

(** The same (pool, loan sequence) key in the llmon1 and the llmon2 file
    of one month, with different contents. *)
Definition ll_first : Flagged.loan := ll "P1" "1" "Y" None "10000".
Definition ll_second : Flagged.loan := ll "P1" "1" "Z" (Some "Y") "10000".

(** A loan whose prior servicer is its current issuer. *)
Definition ll_self : Flagged.frame :=
  [ll "P1" "1" "Y" (Some "Y") "10000"; ll "P1" "2" "Y" None "20000"].

(** Two transfers of one loan each into Y in the same month. *)
Definition ll_tie : Flagged.frame :=
  [ll "P1" "1" "Y" (Some "X") "10000"; ll "P1" "2" "Y" (Some "Z") "10000"].

(** A negative balance next to a transfer. *)
Definition ll_negative : Flagged.frame :=
  [ll "P1" "1" "Y" (Some "X") "1000"; ll "P1" "2" "Y" None "-500"].

End Examples.

(* ------------------------------------------------------------------ *)
(** ** Vocabulary of the properties *)

Module Vocabulary.

(** *** Frames and keys *)

Section Keys.
Context {K : Type} `{EqKey K}.

(** No two rows of the frame carry the same non-null key. *)
Definition at_most_one {A} (key : A -> option K) (df : list A) : Prop :=
  forall k,
    List.length (filter (fun r => key_match (Some k) (key r)) df) <= 1.

(** The non-null keys of a frame. *)
Definition present_keys {A} (key : A -> option K) (df : list A) : list K :=
  flat_map (fun r => match key r with Some k => [k] | None => [] end) df.

End Keys.

Definition swap {A B} (p : A * B) : B * A := (snd p, fst p).

(** *** The order of the output *)

(** [before cmp a b]: a sort by [cmp] may leave [a] ahead of [b]. *)
Definition before {R} (cmp : R -> R -> comparison) (a b : R) : Prop :=
  cmp a b <> Gt.

Section Output.
Variable R : Type.
Variable month_of : R -> string.
Variable n_loans_of : R -> nat.

(** Earlier period first; within a period, the larger loan count first. *)
Definition in_output_order (a b : R) : Prop :=
  String.compare (month_of a) (month_of b) = Lt \/
  (month_of a = month_of b /\ n_loans_of b <= n_loans_of a).

(** Rows are non-decreasing in period; rows of one period are
    non-increasing in loan count. *)
Definition output_sorted (rows : list R) : Prop :=
  forall i j a b,
    i < j -> nth_error rows i = Some a -> nth_error rows j = Some b ->
    String.leb (month_of a) (month_of b) = true /\
    (month_of a = month_of b -> n_loans_of b <= n_loans_of a).

End Output.

(** *** Totals and fractions *)

(** The total weight of the rows of a frame. *)
Fixpoint qtotal {A} (w : A -> Q) (l : list A) : Q :=
  match l with
  | [] => 0%Q
  | x :: rest => (w x + qtotal w rest)%Q
  end.

(** 1 for a present value, 0 for a null. *)
Definition qcount {A} (v : option A) : Q :=
  match v with
  | Some _ => 1%Q
  | None => 0%Q
  end.

(** The values of a column that are present. *)
Definition present (col : list (option f64)) : list f64 :=
  flat_map (fun v => match v with Some x => [x] | None => [] end) col.

(** What is asked of one fraction column, given the denominator it was
    divided by: null for a null denominator; otherwise a present value
    that lies between 0 and 1 when the denominator is positive, and that is
    no finite number (NaN or an infinity) when the denominator is zero. *)
Definition fraction_well_formed (den frac : option f64) : Prop :=
  match den with
  | None => frac = None
  | Some d =>
      exists f, frac = Some f /\
                (positive d -> unit_interval f) /\
                (is_zero d -> ~ finite f)
  end.

(** *** The differencing reconciler *)

Section OfDifferencing.
Import Differencing.

(** No two loans of the snapshot carry the same identifier. *)
Definition unique_loan_identifiers (df : frame) : Prop :=
  NoDup (present_keys loan_identifier df).

(** A pair of joined loans as a row of [joined]. *)
Definition as_joined (p : loan * loan) : joined_row :=
  {| j_loan_identifier := loan_identifier (fst p);
     j_servicer_from := servicer_name (fst p);
     j_upb_from := current_upb (fst p);
     j_servicer_to := servicer_name (snd p);
     j_upb_to := current_upb (snd p) |}.

(** The pairs of joined loans behind the group of key [k]. *)
Definition group_pairs (k : group_key) (p : loan * loan) : bool :=
  holds (ne_col (servicer_name (fst p)) (servicer_name (snd p))) &&
  keqb (servicer_name (fst p), servicer_name (snd p)) k.

(** A row of [aggregate] found both its totals, with count denominators
    of at least 1 and finite count fractions. *)
Definition totals_matched (a : agg_row) : Prop :=
  exists seller_n buyer_n,
    a_seller_total_n a = Some seller_n /\ 1 <= seller_n /\
    a_buyer_total_n a = Some buyer_n /\ 1 <= buyer_n /\
    (exists upb, a_seller_total_upb a = Some upb) /\
    (exists upb, a_buyer_total_upb a = Some upb) /\
    a_frac_seller_n a =
      Some (Fin (inject_Z (Z.of_nat (a_n_loans a)) /
                 inject_Z (Z.of_nat seller_n))) /\
    a_frac_buyer_n a =
      Some (Fin (inject_Z (Z.of_nat (a_n_loans a)) /
                 inject_Z (Z.of_nat buyer_n))).

End OfDifferencing.

(** *** The flagged-transfer reconciler *)

Section OfFlagged.
Import Flagged.

Definition add_all (files : list source_file)
    (d : list (string * list source_file)) :=
  fold_left (fun d f => setdefault_append d (file_month f) f) files d.

(** The files [main] considers. *)
Definition considered (llmon1_files llmon2_files : list source_file) :=
  since_201504 llmon1_files ++ since_201504 llmon2_files.

(** The loans of [df_month] still held under identity [s], and the loans
    transferred away from it. *)
Definition still_held (df : frame) (s : option string) : frame :=
  filter (fun r => keqb (issuer_id r) s) df.

Definition transferred_away (df : frame) (s : option string) : frame :=
  filter (fun r => keqb (seller_issuer_id r) s) (transfers df).

(** [r] is the last row of [df] with its key: no later row shares it. *)
Definition later_source_wins (df : frame) (r : loan) : Prop :=
  exists before after,
    df = before ++ r :: after /\
    forall r', In r' after -> dedup_key r' <> dedup_key r.

Variable cast_float64 : string -> option f64.

Definition has_balance (r : loan) : bool :=
  match upb_dollars cast_float64 r with Some _ => true | None => false end.

(** The four fractions of a row of [aggregate], each against the
    denominator it was divided by. *)
Definition fractions_well_formed (a : agg_row) : Prop :=
  fraction_well_formed (option_map of_count (a_seller_total_n a))
                       (a_frac_seller_n a) /\
  fraction_well_formed (a_seller_total_upb a) (a_frac_seller_upb a) /\
  fraction_well_formed (option_map of_count (a_buyer_total_n a))
                       (a_frac_buyer_n a) /\
  fraction_well_formed (a_buyer_total_upb a) (a_frac_buyer_upb a).

End OfFlagged.

End Vocabulary.
Import Vocabulary.

(* ------------------------------------------------------------------ *)
(** ** Vocabulary of the further properties *)

Module MoreVocabulary.

(** *** Strings *)

(** The character [c] occurs in [s]. *)
Fixpoint occurs (c : ascii) (s : string) : bool :=
  match s with
  | EmptyString => false
  | String c' rest => Ascii.eqb c' c || occurs c rest
  end.

(** *** The issuer lookup *)

(** The value the last row of key [k] carries, if a row has that key;
    that value may itself be null. *)
Definition last_value (rows : list (option string * option string))
    (k : option string) : option (option string) :=
  option_map snd (find (fun row => keqb (fst row) k) (rev rows)).

(** Assigning the rows of a frame to a [dict] one after the other. *)
Definition assign_all (rows : list (option string * option string))
    (d : Flagged.dict) : Flagged.dict :=
  fold_left (fun d row => Flagged.dict_set d (fst row) (snd row)) rows d.

(** *** Fractions and the rows behind them *)

(** What holds of a fraction column whatever the numbers are: it is null
    for a null denominator and present otherwise, and it is no finite
    number (NaN or an infinity) when the denominator is zero. *)
Definition fraction_guarded (den frac : option f64) : Prop :=
  match den with
  | None => frac = None
  | Some d => exists f, frac = Some f /\ (is_zero d -> ~ finite f)
  end.

(** The rows of [part] are among the rows of [whole]: whatever finite,
    non-negative amount [w] every row of [universe] stands for, the
    amounts of [part] add up, exactly, to at least 0 and to at most what
    the amounts of [whole] add up to. *)
Definition within_total {A} (universe part whole : list A) : Prop :=
  forall w : A -> Q,
    (forall r, In r universe -> (0 <= w r)%Q) ->
    (0 <= qtotal w part)%Q /\ (qtotal w part <= qtotal w whole)%Q.

(** *** Two runs compared *)

Section Compared.
Variables R C : Type.
Variable month_of : R -> string.
Variable n_loans_of : R -> nat.
Variable columns : R -> C.

(** Two outcomes that agree on [columns] up to the order of tied rows:
    both runs end the same way; when they write, the [columns] of their
    rows are the same, each file is in the output order, and the [columns]
    come in the very same order unless two rows that differ on them tie
    on period and loan count. *)
Definition agree_up_to_ties (o1 o2 : outcome R) : Prop :=
  match o1, o2 with
  | Fatal, Fatal => True
  | NoOutput, NoOutput => True
  | Written rows1, Written rows2 =>
      Permutation (map columns rows1) (map columns rows2) /\
      output_sorted month_of n_loans_of rows1 /\
      output_sorted month_of n_loans_of rows2 /\
      ((forall a b, In a rows1 -> In b rows1 ->
          month_of a = month_of b -> n_loans_of a = n_loans_of b ->
          columns a = columns b) ->
       map columns rows1 = map columns rows2)
  | _, _ => False
  end.

End Compared.

(** *** The differencing reconciler *)

Section OfDifferencing.
Import Differencing.

(** The columns of an output row that no sum of balances enters: period,
    names, loan count and the two count fractions. *)
Definition differencing_counted (row : transition) :=
  (transition_month row, servicer_from row, servicer_to row, n_loans row,
   frac_seller_n row, frac_buyer_n row).

(** The loans of a snapshot under servicer [s]. *)
Definition held_by (df : frame) (s : option string) : frame :=
  filter (fun r => keqb (servicer_name r) s) df.

(** The pairs of joined loans behind the aggregate row of key [k]. *)
Definition group_of_pairs (df_prev df_curr : frame) (k : group_key)
    : list (loan * loan) :=
  filter (group_pairs k)
         (inner_join loan_identifier loan_identifier df_prev df_curr).

(** What the balance columns of an aggregate row are made of.  The
    numerators are the sums of the earlier and of the later balances of
    the joined loans of the group; the denominators are the sums of the
    balances of all loans the seller holds in the earlier snapshot and
    the buyer in the later one; the fractions are their quotients.  When
    no identifier is repeated in the other snapshot, the loans behind a
    numerator are among the loans behind its denominator. *)
Definition snapshot_balances_explained (df_prev df_curr : frame)
    (a : agg_row) : Prop :=
  let pairs :=
    group_of_pairs df_prev df_curr (a_servicer_from a, a_servicer_to a) in
  let sold := held_by df_prev (a_servicer_from a) in
  let bought := held_by df_curr (a_servicer_to a) in
  a_total_upb_from a = sum (map (fun p => current_upb (fst p)) pairs) /\
  a_total_upb a = sum (map (fun p => current_upb (snd p)) pairs) /\
  a_seller_total_upb a = Some (sum (map current_upb sold)) /\
  a_buyer_total_upb a = Some (sum (map current_upb bought)) /\
  a_frac_seller_upb a =
    div_col (Some (a_total_upb_from a)) (a_seller_total_upb a) /\
  a_frac_buyer_upb a =
    div_col (Some (a_total_upb a)) (a_buyer_total_upb a) /\
  (unique_loan_identifiers df_curr ->
   within_total df_prev (map fst pairs) sold) /\
  (unique_loan_identifiers df_prev ->
   within_total df_curr (map snd pairs) bought).

(** What [load_month] returned for a file that could be loaded. *)
Definition loaded (f : monthly_file) : frame :=
  match file_load f with
  | Some df => df
  | None => []
  end.

(** The pairs of files the sliding window compares. *)
Definition consecutive (files : list monthly_file)
    : list (monthly_file * monthly_file) :=
  combine files (tl files).

(** What the pass over one pair of files appends to [all_results]. *)
Definition pair_step (p : monthly_file * monthly_file)
    : list (list transition) :=
  step (file_month (snd p)) (loaded (fst p)) (loaded (snd p)).

(** The aggregate rows of one pair of files. *)
Definition pair_rows (p : monthly_file * monthly_file) : list transition :=
  map drop (aggregate (file_month (snd p)) (loaded (fst p)) (loaded (snd p))).

(** The loans of one pair of files whose servicer changed. *)
Definition pair_changed (p : monthly_file * monthly_file) : list joined_row :=
  changed (loaded (fst p)) (loaded (snd p)).

(** A row of [changed] read in the other direction. *)
Definition reverse_row (j : joined_row) : joined_row :=
  {| j_loan_identifier := j_loan_identifier j;
     j_servicer_from := j_servicer_to j;
     j_upb_from := j_upb_to j;
     j_servicer_to := j_servicer_from j;
     j_upb_to := j_upb_from j |}.

End OfDifferencing.

(** *** The flagged-transfer reconciler *)

Section OfFlagged.
Import Flagged.

(** The columns of an output row that no sum of balances enters:
    period, identifiers, names, loan count and the two count fractions. *)
Definition flagged_counted (row : transition) :=
  (transition_month row, out_seller_issuer_id row, servicer_from row,
   out_issuer_id row, servicer_to row, n_loans row,
   frac_seller_n row, frac_buyer_n row).

(** The flagged loans behind the aggregate row of seller [s] and issuer
    [i]. *)
Definition transfer_group (df : frame) (s i : option string) : frame :=
  filter (fun r => keqb (seller_issuer_id r, issuer_id r) (s, i))
         (transfers df).

(** What the balance columns of an aggregate row are made of.  The
    numerator is the sum of the balances of the flagged loans of the
    group; the seller denominator is the sum over the loans transferred
    away from the seller plus the sum over the loans it still holds; the
    buyer denominator, null for a null issuer, is the sum over the loans
    the issuer holds; the fractions are the quotients.  The loans behind
    the numerator are among the loans behind either denominator. *)
Definition flagged_balances_explained
    (cast_float64 : string -> option f64) (df : frame) (a : agg_row)
    : Prop :=
  let group := transfer_group df (a_seller a) (a_issuer a) in
  let away := transferred_away df (a_seller a) in
  let kept := still_held df (a_seller a) in
  let bought := still_held df (a_issuer a) in
  a_total_upb a = sum (map (upb_dollars cast_float64) group) /\
  a_seller_total_upb a =
    Some (add (sum (map (upb_dollars cast_float64) away))
              (sum (map (upb_dollars cast_float64) kept))) /\
  a_buyer_total_upb a =
    match a_issuer a with
    | Some _ => Some (sum (map (upb_dollars cast_float64) bought))
    | None => None
    end /\
  a_frac_seller_upb a =
    div_col (Some (a_total_upb a)) (a_seller_total_upb a) /\
  a_frac_buyer_upb a =
    div_col (Some (a_total_upb a)) (a_buyer_total_upb a) /\
  within_total df group (away ++ kept) /\
  within_total df group bought.

(** The frame of month [m]: its readable files merged and deduplicated. *)
Definition month_frame (pick : frame -> nat)
    (by_month : list (string * list source_file)) (m : string) : frame :=
  match month_frames (files_of by_month m) with
  | Some frames =>
      match df_month_of pick frames with
      | Some df_month => df_month
      | None => []
      end
  | None => []
  end.

(** The rows month [m] contributes to the output. *)
Definition month_rows (cast_float64 : string -> option f64) (name_map : dict)
    (pick : frame -> nat) (by_month : list (string * list source_file))
    (m : string) : list transition :=
  map (resolve name_map)
      (aggregate cast_float64 m (month_frame pick by_month m)).

(** The loans of month [m] with a populated prior servicer. *)
Definition month_transfers (pick : frame -> nat)
    (by_month : list (string * list source_file)) (m : string) : frame :=
  transfers (month_frame pick by_month m).

End OfFlagged.

End MoreVocabulary.
Import MoreVocabulary.
(* ------------------------------------------------------------------ *)
(** ** Facts about the data-frame operations *)

Module FrameFacts.

Section Keys.
Context {K : Type} `{EqKey K}.

Lemma keqb_eq (a b : K) : keqb a b = true <-> a = b.
Proof. destruct (keqb_spec a b); split; congruence. Qed.

Lemma keqb_refl (a : K) : keqb a a = true.
Proof. now apply keqb_eq. Qed.

Lemma keqb_neq (a b : K) : keqb a b = false <-> a <> b.
Proof. destruct (keqb_spec a b); split; congruence. Qed.

Lemma distinct_In (k : K) (col : list K) : In k (distinct col) <-> In k col.
Proof.
  induction col as [|a col IH]; simpl; [tauto|].
  rewrite filter_In, IH. split.
  - intros [->|[Hin _]]; auto.
  - intros [->|Hin]; auto.
    destruct (keqb_spec a k) as [->|Hne]; auto.
Qed.

Lemma distinct_NoDup (col : list K) : NoDup (distinct col).
Proof.
  induction col as [|a col IH]; simpl; constructor.
  - rewrite filter_In, keqb_refl. simpl. intros [_ Hf]. discriminate.
  - now apply NoDup_filter.
Qed.

Lemma group_by_keys {R} (key : R -> K) (df : list R) :
  map fst (group_by key df) = distinct (map key df).
Proof.
  unfold group_by. rewrite map_map. simpl. apply map_id.
Qed.

Lemma group_by_In {R} (key : R -> K) (df : list R) k g :
  In (k, g) (group_by key df) <->
  In k (map key df) /\ g = filter (fun r => keqb (key r) k) df.
Proof.
  unfold group_by. rewrite in_map_iff. split.
  - intros [k' [E Hin]]. inversion E; subst. now rewrite <- distinct_In.
  - intros [Hin ->]. exists k. now rewrite distinct_In.
Qed.

Lemma group_by_NoDup {R} (key : R -> K) (df : list R) :
  NoDup (map fst (group_by key df)).
Proof. rewrite group_by_keys. apply distinct_NoDup. Qed.

(** Every group holds at least one row. *)
Lemma group_nonempty {R} (key : R -> K) (df : list R) k :
  In k (map key df) -> exists r, In r (filter (fun r => keqb (key r) k) df).
Proof.
  rewrite in_map_iff. intros [r [<- Hin]]. exists r.
  rewrite filter_In, keqb_refl. auto.
Qed.

Lemma key_match_true (a b : option K) :
  key_match a b = true <-> exists k, a = Some k /\ b = Some k.
Proof.
  destruct a as [x|], b as [y|]; simpl;
    try (split; [discriminate | intros [k [? ?]]; discriminate]).
  rewrite keqb_eq. split.
  - intros ->. eauto.
  - intros [k [E1 E2]]. congruence.
Qed.

Lemma inner_join_In {L R} (lkey : L -> option K) (rkey : R -> option K)
    left right l r :
  In (l, r) (inner_join lkey rkey left right) <->
  In l left /\ In r right /\ key_match (lkey l) (rkey r) = true.
Proof.
  unfold inner_join. rewrite in_flat_map. split.
  - intros [l' [Hl Hin]]. apply in_map_iff in Hin.
    destruct Hin as [r' [E Hr]]. inversion E; subst.
    apply filter_In in Hr. tauto.
  - intros [Hl [Hr Hm]]. exists l. split; auto.
    apply in_map_iff. exists r. split; auto. apply filter_In. auto.
Qed.

Lemma left_join_In {L R} (lkey : L -> option K) (rkey : R -> option K)
    left right l o :
  In (l, o) (left_join lkey rkey left right) <->
  In l left /\
  match o with
  | Some r => In r right /\ key_match (lkey l) (rkey r) = true
  | None => filter (fun r => key_match (lkey l) (rkey r)) right = []
  end.
Proof.
  unfold left_join. rewrite in_flat_map. split.
  - intros [l' [Hl Hin]].
    destruct (filter (fun r => key_match (lkey l') (rkey r)) right)
      as [|m ms] eqn:E.
    + destruct Hin as [Hin|[]]. inversion Hin; subst. auto.
    + apply in_map_iff in Hin. destruct Hin as [r [Er Hr]].
      inversion Er; subst. rewrite <- E in Hr. apply filter_In in Hr. tauto.
  - intros [Hl Ho]. exists l. split; auto.
    destruct o as [r|].
    + destruct Ho as [Hr Hm].
      assert (Hin : In r (filter (fun r => key_match (lkey l) (rkey r)) right))
        by (apply filter_In; auto).
      destruct (filter (fun r => key_match (lkey l) (rkey r)) right)
        as [|m ms]; [destruct Hin|].
      apply in_map_iff. eauto.
    + rewrite Ho. now left.
Qed.

(** A left row whose key occurs on the right is never padded with nulls. *)
Lemma left_join_matched {L R} (lkey : L -> option K) (rkey : R -> option K)
    left right l o k :
  In (l, o) (left_join lkey rkey left right) ->
  lkey l = Some k -> In (Some k) (map rkey right) ->
  exists r, o = Some r /\ In r right /\ rkey r = Some k.
Proof.
  intros Hin Hk Hr. apply left_join_In in Hin. destruct Hin as [_ Ho].
  destruct o as [r|].
  - destruct Ho as [Hin Hm]. exists r. repeat split; auto.
    apply key_match_true in Hm. destruct Hm as [k' [E1 E2]]. congruence.
  - exfalso. apply in_map_iff in Hr. destruct Hr as [r [Er Hin]].
    assert (Hf : In r (filter (fun r => key_match (lkey l) (rkey r)) right)).
    { apply filter_In. split; auto. apply key_match_true. eauto. }
    rewrite Ho in Hf. destruct Hf.
Qed.

(** Every left row appears in the result. *)
Lemma left_join_covers {L R} (lkey : L -> option K) (rkey : R -> option K)
    left right l :
  In l left -> exists o, In (l, o) (left_join lkey rkey left right).
Proof.
  intro Hl.
  destruct (filter (fun r => key_match (lkey l) (rkey r)) right)
    as [|m ms] eqn:E.
  - exists None. apply left_join_In. auto.
  - exists (Some m). apply left_join_In. split; auto.
    apply (filter_In (fun r => key_match (lkey l) (rkey r))).
    rewrite E. now left.
Qed.

Lemma left_join_left {L R} (lkey : L -> option K) (rkey : R -> option K)
    left right l o :
  In (l, o) (left_join lkey rkey left right) -> In l left.
Proof. intro Hin. now apply left_join_In in Hin. Qed.

End Keys.

(** *** Counting and summing *)

Lemma count_le_length {A} (col : list (option A)) : count col <= List.length col.
Proof. unfold count. apply filter_length_le. Qed.

Lemma count_pos {A} (col : list (option A)) v :
  In (Some v) col -> 1 <= count col.
Proof.
  unfold count. intro Hin.
  assert (Hf : In (Some v)
    (filter (fun v => match v with Some _ => true | None => false end) col))
    by (apply filter_In; auto).
  destruct (filter _ col); [destruct Hf | simpl; lia].
Qed.

Lemma filter_filter {A} (p q : A -> bool) (l : list A) :
  filter p (filter q l) = filter (fun x => q x && p x) l.
Proof.
  induction l as [|x l IH]; simpl; auto.
  destruct (q x); simpl; [destruct (p x)|]; now rewrite IH.
Qed.

(** Rows selected by a stronger predicate are no more numerous. *)
Lemma filter_length_mono {A} (p q : A -> bool) (l : list A) :
  (forall x, In x l -> p x = true -> q x = true) ->
  List.length (filter p l) <= List.length (filter q l).
Proof.
  induction l as [|x l IH]; simpl; intro Hpq; auto.
  assert (IH' : List.length (filter p l) <= List.length (filter q l))
    by (apply IH; intros; apply Hpq; auto).
  destruct (p x) eqn:Ep.
  - rewrite (Hpq x (or_introl eq_refl) Ep). simpl. lia.
  - destruct (q x); simpl; lia.
Qed.

End FrameFacts.
Import FrameFacts.

(* ------------------------------------------------------------------ *)
(** ** Facts about sorting and the tail of [main] *)

Module SortFacts.

Section Insertion.
Variable R : Type.
Variable cmp : R -> R -> comparison.

Lemma insert_row_perm (x : R) (l : list R) :
  Permutation (insert_row cmp x l) (x :: l).
Proof.
  induction l as [|y l IH]; simpl; auto.
  destruct (cmp x y); auto.
  rewrite IH. apply perm_swap.
Qed.

Lemma sort_rows_perm (l : list R) : Permutation (sort_rows cmp l) l.
Proof.
  induction l as [|x l IH]; simpl; auto.
  rewrite insert_row_perm. now constructor.
Qed.

Hypothesis before_trans :
  forall a b c, before cmp a b -> before cmp b c -> before cmp a c.
Hypothesis before_total : forall a b, cmp a b = Gt -> before cmp b a.

Lemma insert_row_sorted (x : R) (l : list R) :
  StronglySorted (before cmp) l ->
  StronglySorted (before cmp) (insert_row cmp x l).
Proof.
  induction 1 as [|y l Hs IH Hall]; simpl.
  - repeat constructor.
  - destruct (cmp x y) eqn:E.
    + constructor; [now constructor|].
      assert (Hxy : before cmp x y) by (unfold before; congruence).
      constructor; auto.
      eapply Forall_impl; [|exact Hall]. intros z Hz. eauto.
    + constructor; [now constructor|].
      assert (Hxy : before cmp x y) by (unfold before; congruence).
      constructor; auto.
      eapply Forall_impl; [|exact Hall]. intros z Hz. eauto.
    + constructor; auto.
      rewrite (insert_row_perm x l). constructor; auto.
Qed.

Lemma sort_rows_sorted (l : list R) :
  StronglySorted (before cmp) (sort_rows cmp l).
Proof.
  induction l as [|x l IH]; simpl; [constructor|].
  now apply insert_row_sorted.
Qed.

End Insertion.

Lemma StronglySorted_nth {R} (P : R -> R -> Prop) (l : list R) :
  StronglySorted P l ->
  forall i j a b, i < j -> nth_error l i = Some a -> nth_error l j = Some b ->
  P a b.
Proof.
  induction 1 as [|x l Hs IH Hall]; intros i j a b Hij Hi Hj.
  - destruct i; discriminate.
  - destruct j as [|j]; [lia|]. simpl in Hj.
    destruct i as [|i]; simpl in Hi.
    + inversion Hi; subst. rewrite Forall_forall in Hall.
      apply Hall. eapply nth_error_In; eauto.
    + apply (IH i j a b); auto. lia.
Qed.

(** *** The order of the output *)

Lemma compare_lt_trans (s t u : string) :
  String.compare s t = Lt -> String.compare t u = Lt -> String.compare s u = Lt.
Proof.
  intros H1 H2. apply String_as_OT.cmp_lt.
  apply String_as_OT.cmp_lt in H1. apply String_as_OT.cmp_lt in H2.
  eapply String_as_OT.lt_trans; eauto.
Qed.

Lemma compare_gt_lt (s t : string) :
  String.compare s t = Gt -> String.compare t s = Lt.
Proof.
  intro Hc. rewrite String.compare_antisym, Hc. reflexivity.
Qed.

Lemma compare_refl (s : string) : String.compare s s = Eq.
Proof. now apply String_as_OT.cmp_eq. Qed.

Section OutputOrder.
Variable R : Type.
Variable month_of : R -> string.
Variable n_loans_of : R -> nat.

Lemma output_order_before (a b : R) :
  before (output_order month_of n_loans_of) a b <->
  in_output_order month_of n_loans_of a b.
Proof.
  unfold before, output_order, in_output_order. simpl.
  destruct (String.compare (month_of a) (month_of b)) eqn:Em.
  - apply String_as_OT.cmp_eq in Em.
    destruct (Nat.compare_spec (n_loans_of a) (n_loans_of b)) as [E|E|E];
      simpl; split; intro Hb;
      try (right; split; auto; lia);
      try discriminate; try congruence;
      destruct Hb as [Hb|[_ Hb]]; try discriminate; lia.
  - split; auto. discriminate.
  - split; [congruence|]. intros [Hb|[Hb _]]; [discriminate|].
    rewrite Hb, compare_refl in Em. discriminate.
Qed.

Lemma in_output_order_trans (a b c : R) :
  in_output_order month_of n_loans_of a b ->
  in_output_order month_of n_loans_of b c ->
  in_output_order month_of n_loans_of a c.
Proof.
  unfold in_output_order.
  intros [H1|[E1 N1]] [H2|[E2 N2]].
  - left. eapply compare_lt_trans; eauto.
  - left. now rewrite <- E2.
  - left. now rewrite E1.
  - right. split; [congruence|lia].
Qed.

Lemma in_output_order_total (a b : R) :
  output_order month_of n_loans_of a b = Gt ->
  in_output_order month_of n_loans_of b a.
Proof.
  unfold output_order, in_output_order. simpl.
  destruct (String.compare (month_of a) (month_of b)) eqn:Em.
  - apply String_as_OT.cmp_eq in Em.
    destruct (Nat.compare_spec (n_loans_of a) (n_loans_of b)) as [E|E|E];
      simpl; try discriminate.
    intros _. right. split; auto. lia.
  - discriminate.
  - intros _. left. now apply compare_gt_lt.
Qed.

Lemma sort_rows_output_order (l : list R) :
  StronglySorted (in_output_order month_of n_loans_of)
    (sort_rows (output_order month_of n_loans_of) l).
Proof.
  assert (Hs : StronglySorted (before (output_order month_of n_loans_of))
                 (sort_rows (output_order month_of n_loans_of) l)).
  { apply sort_rows_sorted.
    - intros a b c Hab Hbc. apply output_order_before.
      apply output_order_before in Hab. apply output_order_before in Hbc.
      eapply in_output_order_trans; eauto.
    - intros a b Hab. apply output_order_before.
      now apply in_output_order_total. }
  induction Hs; constructor; auto.
  eapply Forall_impl; [|eassumption].
  intros z Hz. now apply output_order_before.
Qed.

(** What [finish] writes is the concatenated results, rearranged. *)
Lemma finish_written (ties : tie_order R) all_results rows :
  finish month_of n_loans_of ties all_results = Written rows ->
  Permutation rows (List.concat all_results) /\
  StronglySorted (in_output_order month_of n_loans_of) rows.
Proof.
  unfold finish. destruct all_results as [|r0 rs]; [discriminate|].
  intro E. inversion E; subst. split.
  - rewrite sort_rows_perm. apply shuffle_perm.
  - apply sort_rows_output_order.
Qed.

Lemma finish_not_fatal (ties : tie_order R) all_results :
  finish month_of n_loans_of ties all_results <> Fatal.
Proof. unfold finish. destruct all_results; discriminate. Qed.

End OutputOrder.

End SortFacts.
Import SortFacts.


(* ------------------------------------------------------------------ *)
(** ** Facts about [unique] *)

Module UniqueFacts.

Section Unique.
Context {K : Type} `{EqKey K}.
Variable R : Type.
Variable key : R -> K.

Lemma unique_any_kept (pick : list R -> nat) (df : list R) :
  unique_any pick key df =
  flat_map (fun k => kept key pick k df) (distinct (map key df)).
Proof. reflexivity. Qed.

Lemma nth_default_In (n : nat) (c : R) (cs : list R) :
  In (nth n (c :: cs) c) (c :: cs).
Proof.
  destruct (Nat.lt_ge_cases n (List.length (c :: cs))) as [Hlt|Hge].
  - now apply nth_In.
  - rewrite nth_overflow by assumption. now left.
Qed.

Lemma kept_In (pick : list R -> nat) (k : K) (df : list R) (r : R) :
  In r (kept key pick k df) -> In r df /\ key r = k.
Proof.
  unfold kept. destruct (candidates key k df) as [|c cs] eqn:E; [intros []|].
  intros [<-|[]].
  assert (Hin : In (nth (pick (c :: cs)) (c :: cs) c) (candidates key k df)).
  { rewrite E. apply nth_default_In. }
  unfold candidates in Hin. apply filter_In in Hin.
  destruct Hin as [Hin Hk]. apply keqb_eq in Hk. auto.
Qed.

Lemma kept_one (pick : list R -> nat) (k : K) (df : list R) :
  In k (map key df) -> exists r, kept key pick k df = [r].
Proof.
  intro Hk. destruct (group_nonempty key df k Hk) as [r Hr].
  unfold kept, candidates. destruct (filter _ df); [destruct Hr|eauto].
Qed.

(** Every surviving row is a row of the frame. *)
Lemma unique_any_In (pick : list R -> nat) (df : list R) (r : R) :
  In r (unique_any pick key df) -> In r df.
Proof.
  rewrite unique_any_kept, in_flat_map. intros [k [_ Hr]].
  now apply kept_In in Hr.
Qed.

Lemma flat_map_kept_keys (pick : list R -> nat) (df : list R) (ks : list K) :
  (forall k, In k ks -> In k (map key df)) ->
  map key (flat_map (fun k => kept key pick k df) ks) = ks.
Proof.
  induction ks as [|k ks IH]; simpl; intro Hks; auto.
  rewrite map_app, IH by auto.
  destruct (kept_one pick k df) as [r Hr]; [auto|].
  assert (Hk : key r = k).
  { apply (kept_In pick k df r). rewrite Hr. now left. }
  rewrite Hr. simpl. now rewrite Hk.
Qed.

(** The keys that survive are the distinct keys of the frame, each once. *)
Lemma unique_any_keys (pick : list R -> nat) (df : list R) :
  map key (unique_any pick key df) = distinct (map key df).
Proof.
  rewrite unique_any_kept. apply flat_map_kept_keys.
  intros k. apply distinct_In.
Qed.

Lemma NoDup_count_one (l : list R) (k : K) :
  NoDup (map key l) -> In k (map key l) ->
  List.length (candidates key k l) = 1.
Proof.
  unfold candidates.
  induction l as [|x l IH]; simpl; intros Hnd Hin; [destruct Hin|].
  inversion Hnd as [|? ? Hx Hnd']; subst.
  destruct (keqb_spec (key x) k) as [E|E].
  - simpl. f_equal.
    assert (Hnone : filter (fun r => keqb (key r) k) l = []).
    { destruct (filter (fun r => keqb (key r) k) l) as [|y ys] eqn:F; auto.
      exfalso. apply Hx.
      assert (Hy : In y (filter (fun r => keqb (key r) k) l))
        by (rewrite F; now left).
      apply filter_In in Hy. destruct Hy as [Hy Ky].
      apply keqb_eq in Ky. rewrite E, <- Ky. now apply in_map. }
    now rewrite Hnone.
  - destruct Hin as [Hin|Hin]; [contradiction|]. auto.
Qed.

(** One row per key. *)
Lemma unique_any_one_per_key (pick : list R -> nat) (df : list R) (k : K) :
  In k (map key df) ->
  List.length (candidates key k (unique_any pick key df)) = 1.
Proof.
  intro Hk. apply NoDup_count_one.
  - rewrite unique_any_keys. apply distinct_NoDup.
  - rewrite unique_any_keys. now apply distinct_In.
Qed.

Lemma distinct_NoDup_id (l : list K) : NoDup l -> distinct l = l.
Proof.
  induction 1 as [|k l Hk Hnd IH]; simpl; auto.
  rewrite IH. f_equal.
  apply forallb_filter_id. apply forallb_forall.
  intros k' Hk'. destruct (keqb_spec k k'); subst; auto.
Qed.

Lemma candidates_single (df : list R) (r : R) :
  NoDup (map key df) -> In r df -> candidates key (key r) df = [r].
Proof.
  unfold candidates.
  induction df as [|x df IH]; simpl; intros Hnd Hin; [destruct Hin|].
  inversion Hnd as [|? ? Hx Hnd']; subst.
  destruct Hin as [->|Hin].
  - rewrite keqb_refl. f_equal.
    destruct (filter (fun r0 => keqb (key r0) (key r)) df) as [|y ys] eqn:F; auto.
    exfalso. apply Hx.
    assert (Hy : In y (filter (fun r0 => keqb (key r0) (key r)) df))
      by (rewrite F; now left).
    apply filter_In in Hy. destruct Hy as [Hy Ky].
    apply keqb_eq in Ky. rewrite <- Ky. now apply in_map.
  - destruct (keqb_spec (key x) (key r)) as [E|E]; auto.
    exfalso. apply Hx. rewrite E. now apply in_map.
Qed.

(** On a frame whose keys are already distinct [unique] changes nothing,
    whatever the choice. *)
Lemma unique_any_NoDup_id (pick : list R -> nat) (df : list R) :
  NoDup (map key df) -> unique_any pick key df = df.
Proof.
  intro Hnd. rewrite unique_any_kept, distinct_NoDup_id by assumption.
  assert (Hsub : forall sub, incl sub df ->
            flat_map (fun k => kept key pick k df) (map key sub) = sub).
  { induction sub as [|r sub IH]; simpl; intro Hincl; auto.
    rewrite IH by (intros x Hx; apply Hincl; now right).
    unfold kept at 1.
    rewrite candidates_single by (auto; apply Hincl; now left).
    simpl. destruct (pick [r]) as [|[|n]]; reflexivity. }
  apply Hsub. apply incl_refl.
Qed.

End Unique.

End UniqueFacts.
Import UniqueFacts.

(* ------------------------------------------------------------------ *)
(** ** Sorted lists with the same elements *)

Module UniqueAgree.

(** *** Sorted rearrangements *)

Section SortedUnique.
Variable R : Type.
Variable before : R -> R -> Prop.

Lemma sorted_permutation_eq (l1 l2 : list R) :
  StronglySorted before l1 -> StronglySorted before l2 ->
  Permutation l1 l2 ->
  (forall a b, In a l1 -> In b l1 -> before a b -> before b a -> a = b) ->
  l1 = l2.
Proof.
  intros S1. revert l2.
  induction S1 as [|a l1 S1 IH Ha]; intros l2 S2 Hperm Hanti.
  - apply Permutation_nil in Hperm. now subst.
  - destruct l2 as [|b l2].
    + apply Permutation_sym, Permutation_nil in Hperm. discriminate.
    + inversion S2 as [|? ? S2' Hb]; subst.
      assert (Eab : a = b).
      { assert (Hin_a : In a (b :: l2))
          by (eapply Permutation_in; [exact Hperm|now left]).
        assert (Hin_b : In b (a :: l1))
          by (eapply Permutation_in;
              [exact (Permutation_sym Hperm)|now left]).
        destruct Hin_a as [->|Hin_a]; auto.
        destruct Hin_b as [->|Hin_b]; auto.
        rewrite Forall_forall in Ha, Hb.
        apply Hanti; [now left|now right|auto|auto]. }
      subst b. f_equal. apply IH; auto.
      * eapply Permutation_cons_inv; eauto.
      * intros x y Hx Hy. apply Hanti; now right.
Qed.

End SortedUnique.

End UniqueAgree.
Import UniqueAgree.

(* ------------------------------------------------------------------ *)
(** ** Weighted totals over frames and joins *)

Module Totals.

Local Open Scope Q_scope.

Lemma qtotal_app {A} (w : A -> Q) (l1 l2 : list A) :
  qtotal w (l1 ++ l2) == qtotal w l1 + qtotal w l2.
Proof.
  induction l1 as [|x l1 IH]; simpl; [ring|]. rewrite IH. ring.
Qed.

Lemma qtotal_nonneg {A} (w : A -> Q) (l : list A) :
  (forall x, In x l -> 0 <= w x) -> 0 <= qtotal w l.
Proof.
  induction l as [|x l IH]; simpl; intro Hw; [lra|].
  assert (0 <= w x) by (apply Hw; now left).
  assert (0 <= qtotal w l) by (apply IH; intros; apply Hw; now right).
  lra.
Qed.

Lemma qtotal_map {A B} (w : B -> Q) (g : A -> B) (l : list A) :
  qtotal w (map g l) = qtotal (fun x => w (g x)) l.
Proof. induction l as [|x l IH]; simpl; congruence. Qed.

Lemma qtotal_ext {A} (w w' : A -> Q) (l : list A) :
  (forall x, In x l -> w x == w' x) -> qtotal w l == qtotal w' l.
Proof.
  induction l as [|x l IH]; simpl; intro Hw; [reflexivity|].
  rewrite (Hw x (or_introl eq_refl)), IH; [reflexivity|].
  intros; apply Hw; now right.
Qed.

(** Selecting fewer rows of non-negative weight gives a smaller total. *)
Lemma qtotal_filter_le {A} (w : A -> Q) (p r : A -> bool) (l : list A) :
  (forall x, In x l -> 0 <= w x) ->
  (forall x, In x l -> p x = true -> r x = true) ->
  qtotal w (filter p l) <= qtotal w (filter r l).
Proof.
  induction l as [|x l IH]; simpl; intros Hw Hpr; [lra|].
  assert (IH' : qtotal w (filter p l) <= qtotal w (filter r l)).
  { apply IH; intros; [apply Hw|apply Hpr]; auto. }
  assert (Hx : 0 <= w x) by (apply Hw; now left).
  destruct (p x) eqn:Ep.
  - rewrite (Hpr x (or_introl eq_refl) Ep). simpl. lra.
  - destruct (r x); simpl; lra.
Qed.

Lemma qtotal_perm {A} (w : A -> Q) (l l' : list A) :
  Permutation l l' -> qtotal w l == qtotal w l'.
Proof.
  induction 1; simpl; lra.
Qed.

Lemma qtotal_ones {A} (w : A -> Q) (l : list A) :
  (forall x, In x l -> w x == 1) ->
  qtotal w l == inject_Z (Z.of_nat (List.length l)).
Proof.
  induction l as [|x l IH]; intro Hw.
  - reflexivity.
  - change (List.length (x :: l)) with (S (List.length l)).
    rewrite Nat2Z.inj_succ. unfold Z.succ. rewrite inject_Z_plus.
    simpl qtotal. rewrite (Hw x (or_introl eq_refl)), IH.
    + simpl. ring.
    + intros; apply Hw; now right.
Qed.

Lemma filter_map_swap {A B} (p : B -> bool) (g : A -> B) (l : list A) :
  filter p (map g l) = map g (filter (fun x => p (g x)) l).
Proof.
  induction l as [|x l IH]; simpl; auto.
  destruct (p (g x)); simpl; congruence.
Qed.

Lemma filter_perm {A} (p : A -> bool) (l l' : list A) :
  Permutation l l' -> Permutation (filter p l) (filter p l').
Proof.
  induction 1; simpl.
  - constructor.
  - destruct (p x); auto.
  - destruct (p x), (p y); auto. constructor.
  - etransitivity; eauto.
Qed.

Lemma filter_none {A} (p : A -> bool) (l : list A) :
  (forall x, In x l -> p x = false) -> filter p l = [].
Proof.
  induction l as [|x l IH]; simpl; intro Hp; auto.
  rewrite (Hp x (or_introl eq_refl)). apply IH. intros; apply Hp; now right.
Qed.

(** *** Totals over an inner join *)

Section Join.
Context {K : Type} `{EqKey K}.
Variables L R : Type.
Variable lkey : L -> option K.
Variable rkey : R -> option K.

Lemma key_match_sym (a b : option K) : key_match a b = key_match b a.
Proof.
  destruct a as [x|], b as [y|]; simpl; auto.
  destruct (keqb_spec x y), (keqb_spec y x); congruence.
Qed.

Lemma inner_join_cons_right (left : list L) (b : R) (right : list R) :
  Permutation
    (inner_join lkey rkey left (b :: right))
    (map (fun a => (a, b))
         (filter (fun a => key_match (lkey a) (rkey b)) left)
     ++ inner_join lkey rkey left right).
Proof.
  induction left as [|a left IH]; simpl; auto.
  destruct (key_match (lkey a) (rkey b)); simpl.
  - constructor. rewrite IH.
    rewrite !app_assoc. apply Permutation_app_tail.
    apply Permutation_app_comm.
  - rewrite IH. rewrite !app_assoc. apply Permutation_app_tail.
    apply Permutation_app_comm.
Qed.

End Join.

Section JoinBounds.
Context {K : Type} `{EqKey K}.
Variables L R : Type.
Variable lkey : L -> option K.
Variable rkey : R -> option K.

Lemma inner_join_swap (left : list L) (right : list R) :
  Permutation (map swap (inner_join lkey rkey left right))
              (inner_join rkey lkey right left).
Proof.
  induction left as [|a left IH]; simpl.
  - induction right as [|b right IHr]; simpl; auto.
  - rewrite map_app, map_map. simpl.
    rewrite (inner_join_cons_right rkey lkey right a left).
    apply Permutation_app; auto.
    rewrite (filter_ext (fun r => key_match (lkey a) (rkey r))
                        (fun r => key_match (rkey r) (lkey a)));
      [reflexivity|].
    intro r. apply key_match_sym.
Qed.

(** The total over selected pairs of a weight carried by the left row is
    at most the total over the left rows of the class the selection
    implies, when no two right rows share a key. *)
Lemma join_bound_left (w : L -> Q) (sel : L * R -> bool) (cls : L -> bool)
    (left : list L) (right : list R) :
  (forall a, In a left -> 0 <= w a) ->
  at_most_one rkey right ->
  (forall a b, sel (a, b) = true -> cls a = true) ->
  qtotal (fun p => w (fst p)) (filter sel (inner_join lkey rkey left right))
  <= qtotal w (filter cls left).
Proof.
  intros Hw Hone Hsel.
  induction left as [|a left IH]; [simpl; lra|].
  change (inner_join lkey rkey (a :: left) right)
    with (map (fun r => (a, r))
              (filter (fun r => key_match (lkey a) (rkey r)) right)
          ++ inner_join lkey rkey left right).
  rewrite filter_app, qtotal_app.
  assert (IH' : qtotal (fun p => w (fst p))
                  (filter sel (inner_join lkey rkey left right))
                <= qtotal w (filter cls left)).
  { apply IH. intros; apply Hw; now right. }
  assert (Ha : 0 <= w a) by (apply Hw; now left).
  assert (Hhead :
    qtotal (fun p => w (fst p))
      (filter sel (map (fun r => (a, r))
         (filter (fun r => key_match (lkey a) (rkey r)) right)))
    <= (if cls a then w a else 0)).
  { destruct (lkey a) as [k|] eqn:Ka.
    - specialize (Hone k).
      destruct (filter (fun r => key_match (Some k) (rkey r)) right)
        as [|b [|b' bs]]; simpl in *; try lia.
      + destruct (cls a); lra.
      + destruct (sel (a, b)) eqn:Es; simpl.
        * rewrite (Hsel a b Es). lra.
        * destruct (cls a); lra.
    - rewrite (filter_none (fun r => key_match None (rkey r))); simpl.
      + destruct (cls a); lra.
      + reflexivity. }
  simpl filter. destruct (cls a); simpl; lra.
Qed.

End JoinBounds.

Section JoinBoundRight.
Context {K : Type} `{EqKey K}.
Variables L R : Type.
Variable lkey : L -> option K.
Variable rkey : R -> option K.

(** The same for a weight carried by the right row. *)
Lemma join_bound_right (w : R -> Q) (sel : L * R -> bool) (cls : R -> bool)
    (left : list L) (right : list R) :
  (forall b, In b right -> 0 <= w b) ->
  at_most_one lkey left ->
  (forall a b, sel (a, b) = true -> cls b = true) ->
  qtotal (fun p => w (snd p)) (filter sel (inner_join lkey rkey left right))
  <= qtotal w (filter cls right).
Proof.
  intros Hw Hone Hsel.
  assert (E : qtotal (fun p => w (snd p))
                (filter sel (inner_join lkey rkey left right))
              == qtotal (fun p => w (fst p))
                   (filter (fun p => sel (swap p))
                           (inner_join rkey lkey right left))).
  { symmetry.
    rewrite <- (qtotal_perm _
                  (filter_perm _ (inner_join_swap lkey rkey left right))).
    rewrite filter_map_swap, qtotal_map.
    rewrite (filter_ext (fun x => sel (swap (swap x))) sel)
      by (intros [a b]; reflexivity).
    apply qtotal_ext. intros [a b] _. reflexivity. }
  rewrite E.
  apply join_bound_left; auto.
  intros b a. apply Hsel.
Qed.

End JoinBoundRight.

End Totals.
Import Totals.

(* ------------------------------------------------------------------ *)
(** ** Facts about sums and fractions *)

Module FractionFacts.

Local Open Scope Q_scope.

Lemma qcount_nonneg {A} (v : option A) : 0 <= qcount v.
Proof. destruct v; simpl; lra. Qed.

Lemma count_qtotal {A} (col : list (option A)) :
  inject_Z (Z.of_nat (count col)) == qtotal qcount col.
Proof.
  unfold count. induction col as [|[v|] col IH].
  - reflexivity.
  - change (inject_Z (Z.of_nat (S (List.length
             (filter (fun v => match v with Some _ => true | None => false end)
                     col))))
            == 1 + qtotal qcount col).
    rewrite Nat2Z.inj_succ. unfold Z.succ. rewrite inject_Z_plus, IH.
    simpl. ring.
  - simpl. rewrite IH. ring.
Qed.

Lemma inject_nat_le (n m : nat) :
  (n <= m)%nat <-> inject_Z (Z.of_nat n) <= inject_Z (Z.of_nat m).
Proof. rewrite <- Zle_Qle. lia. Qed.

Lemma div_unit_interval (n d : Q) :
  0 <= n -> n <= d -> 0 < d -> unit_interval (div (Fin n) (Fin d)).
Proof.
  intros Hn Hnd Hd. unfold div.
  destruct (Qeq_bool d 0) eqn:E.
  - apply Qeq_bool_eq in E. lra.
  - simpl. split.
    + apply Qle_shift_div_l; lra.
    + apply Qle_shift_div_r; lra.
Qed.

Lemma div_zero_not_finite (x : f64) (d : Q) :
  d == 0 -> ~ finite (div x (Fin d)).
Proof.
  intro Hd. apply Qeq_eq_bool in Hd. unfold div.
  destruct x as [n| |]; simpl; auto.
  rewrite Hd. destruct (Qeq_bool n 0); simpl; auto.
Qed.

Lemma fraction_well_formed_div (num : f64) (den : option f64) :
  (forall d, den = Some d -> positive d ->
     exists n q, num = Fin n /\ d = Fin q /\ 0 <= n /\ n <= q) ->
  fraction_well_formed den (div_col (Some num) den).
Proof.
  intro Hbound. destruct den as [d|]; simpl; auto.
  exists (div num d). split; auto. split.
  - intro Hpos. destruct (Hbound d eq_refl Hpos) as [n [q [-> [-> [Hn Hq]]]]].
    simpl in Hpos. now apply div_unit_interval.
  - intro Hz. destruct d as [q| |]; simpl in Hz; try tauto.
    now apply div_zero_not_finite.
Qed.

(** A fraction of counts. *)
Lemma fraction_well_formed_counts (n : nat) (den : option nat) :
  (forall d, den = Some d -> (n <= d)%nat) ->
  fraction_well_formed (option_map of_count den)
    (div_col (Some (of_count n)) (option_map of_count den)).
Proof.
  intro Hle. apply fraction_well_formed_div.
  intros d Ed Hpos. destruct den as [m|]; [|discriminate].
  simpl in Ed. inversion Ed; subst. unfold of_count.
  do 2 eexists. split; [reflexivity|]. split; [reflexivity|]. split.
  - change 0 with (inject_Z (Z.of_nat 0)). apply inject_nat_le. lia.
  - apply inject_nat_le. auto.
Qed.

(** *** Frames without a repeated key *)

Section AtMostOne.
Context {K : Type} `{EqKey K}.
Variable A : Type.
Variable key : A -> option K.

Lemma present_keys_In (df : list A) (r : A) (k : K) :
  In r df -> key r = Some k -> In k (present_keys key df).
Proof.
  intros Hr Hk. unfold present_keys. apply in_flat_map.
  exists r. rewrite Hk. split; auto. now left.
Qed.

Lemma NoDup_at_most_one (df : list A) :
  NoDup (present_keys key df) -> at_most_one key df.
Proof.
  intros Hnd k. induction df as [|x df IH]; [simpl; lia|].
  unfold present_keys in Hnd. cbn [flat_map] in Hnd. cbn [filter].
  destruct (key x) as [i|] eqn:Kx.
  - cbn [app] in Hnd. inversion Hnd as [|? ? Hi Hnd']; subst.
    change (key_match (Some k) (Some i)) with (keqb k i).
    destruct (keqb_spec k i) as [->|Hne]; [|auto].
    rewrite (filter_none (fun r => key_match (Some i) (key r)));
      [simpl; lia|].
    intros y Hy. destruct (key_match (Some i) (key y)) eqn:Em; auto.
    exfalso. apply Hi. apply key_match_true in Em.
    destruct Em as [k' [E1 E2]]. inversion E1; subst.
    eapply present_keys_In; eauto.
  - change (key_match (Some k) None) with false. auto.
Qed.

End AtMostOne.

End FractionFacts.
Import FractionFacts.
(* ------------------------------------------------------------------ *)
(** ** The differencing reconciler: rows of each table *)

Module DifferencingFacts.
Import Differencing.

Lemma joined_In (df_prev df_curr : frame) (j : joined_row) :
  In j (joined df_prev df_curr) <->
  exists a b lid,
    In a df_prev /\ In b df_curr /\
    loan_identifier a = Some lid /\ loan_identifier b = Some lid /\
    j = {| j_loan_identifier := Some lid;
           j_servicer_from := servicer_name a;
           j_upb_from := current_upb a;
           j_servicer_to := servicer_name b;
           j_upb_to := current_upb b |}.
Proof.
  unfold joined. rewrite in_map_iff. split.
  - intros [[a b] [<- Hin]]. apply inner_join_In in Hin.
    destruct Hin as [Ha [Hb Hm]]. apply key_match_true in Hm.
    destruct Hm as [lid [E1 E2]]. exists a, b, lid. simpl.
    rewrite E1. auto 6.
  - intros [a [b [lid [Ha [Hb [E1 [E2 ->]]]]]]]. exists (a, b). simpl.
    rewrite E1. split; auto. apply inner_join_In.
    repeat split; auto. apply key_match_true. eauto.
Qed.

Lemma changed_In (df_prev df_curr : frame) (j : joined_row) :
  In j (changed df_prev df_curr) <->
  exists a b lid sfrom sto,
    In a df_prev /\ In b df_curr /\
    loan_identifier a = Some lid /\ loan_identifier b = Some lid /\
    servicer_name a = Some sfrom /\ servicer_name b = Some sto /\
    sfrom <> sto /\
    j = {| j_loan_identifier := Some lid;
           j_servicer_from := Some sfrom;
           j_upb_from := current_upb a;
           j_servicer_to := Some sto;
           j_upb_to := current_upb b |}.
Proof.
  unfold changed. rewrite filter_In, joined_In. split.
  - intros [[a [b [lid [Ha [Hb [E1 [E2 ->]]]]]]] Hne]. simpl in Hne.
    destruct (servicer_name a) as [sfrom|] eqn:Sa; [|discriminate].
    destruct (servicer_name b) as [sto|] eqn:Sb; [|discriminate].
    simpl in Hne.
    destruct (String.eqb_spec sfrom sto) as [|Hd]; [discriminate|].
    exists a, b, lid, sfrom, sto. auto 10.
  - intros [a [b [lid [sfrom [sto
      [Ha [Hb [E1 [E2 [Sa [Sb [Hd ->]]]]]]]]]]]]. split.
    + exists a, b, lid. rewrite Sa, Sb. auto 6.
    + simpl. destruct (String.eqb_spec sfrom sto); [contradiction|reflexivity].
Qed.

Lemma servicer_totals_In (df : frame) (t : totals) :
  In t (servicer_totals df) ->
  In (t_servicer t) (map servicer_name df) /\
  t_total_n t =
    count (map loan_identifier
             (filter (fun r => keqb (servicer_name r) (t_servicer t)) df)) /\
  t_total_upb t =
    sum (map current_upb
           (filter (fun r => keqb (servicer_name r) (t_servicer t)) df)).
Proof.
  unfold servicer_totals. rewrite in_map_iff.
  intros [[k g] [<- Hin]]. apply group_by_In in Hin.
  destruct Hin as [Hk ->]. simpl. auto.
Qed.

Lemma servicer_totals_keys (df : frame) (s : option string) :
  In s (map servicer_name df) -> In s (map t_servicer (servicer_totals df)).
Proof.
  intro Hin. unfold servicer_totals. rewrite map_map. simpl.
  change (In s (map fst (group_by servicer_name df))).
  rewrite group_by_keys. now apply distinct_In.
Qed.

(** A group of [changed] rows: its key is a pair of present, different
    servicers, and its rows are the [changed] rows of that key. *)
Lemma changed_groups_In (df_prev df_curr : frame) k g :
  In (k, g) (changed_groups (changed df_prev df_curr)) ->
  g = filter (fun j => keqb (j_servicer_from j, j_servicer_to j) k)
             (changed df_prev df_curr) /\
  exists j sfrom sto,
    In j g /\ In j (changed df_prev df_curr) /\
    k = (Some sfrom, Some sto) /\ sfrom <> sto /\
    j_servicer_from j = Some sfrom /\ j_servicer_to j = Some sto.
Proof.
  unfold changed_groups. intro Hin. apply group_by_In in Hin.
  destruct Hin as [Hk ->]. split; auto.
  apply in_map_iff in Hk. destruct Hk as [j [<- Hj]].
  destruct (proj1 (changed_In _ _ _) Hj)
    as [a [b [lid [sfrom [sto [_ [_ [_ [_ [_ [_ [Hd E]]]]]]]]]]]].
  exists j, sfrom, sto.
  assert (Hg : In j (filter
    (fun j' => keqb (j_servicer_from j', j_servicer_to j')
                    (j_servicer_from j, j_servicer_to j))
    (changed df_prev df_curr))).
  { apply filter_In. split; auto. apply keqb_refl. }
  subst j. simpl in *. repeat split; auto.
Qed.

(** Where each row of [aggregate] comes from. *)
Lemma aggregate_In (month_curr : string) (df_prev df_curr : frame) a :
  In a (aggregate month_curr df_prev df_curr) ->
  exists g seller buyer,
    a = with_fractions month_curr (g, seller, buyer) /\
    In g (changed_groups (changed df_prev df_curr)) /\
    In (g, seller)
       (left_join (fun g => fst (fst g)) t_servicer
                  (changed_groups (changed df_prev df_curr))
                  (servicer_totals df_prev)) /\
    In (g, seller, buyer)
       (left_join (fun gs => snd (fst (fst gs))) t_servicer
          (left_join (fun g => fst (fst g)) t_servicer
                     (changed_groups (changed df_prev df_curr))
                     (servicer_totals df_prev))
          (servicer_totals df_curr)).
Proof.
  unfold aggregate. rewrite in_map_iff.
  intros [[[g seller] buyer] [<- Hin]].
  exists g, seller, buyer. split; auto.
  pose proof (left_join_left _ _ _ _ _ _ Hin) as Hs.
  pose proof (left_join_left _ _ _ _ _ _ Hs) as Hg.
  auto.
Qed.

(** Rows gathered by the sliding window come from some pass of the loop. *)
Lemma window_rows (P : transition -> Prop) :
  (forall month df_prev df_curr row,
     In row (List.concat (step month df_prev df_curr)) -> P row) ->
  forall rest df_prev acc res,
    window df_prev rest acc = Some res ->
    Forall P (List.concat acc) -> Forall P (List.concat res).
Proof.
  intros Hstep. induction rest as [|f rest IH]; simpl; intros df acc res E Hacc.
  - inversion E; subst. auto.
  - destruct (file_load f) as [df_curr|]; [|discriminate].
    eapply IH; eauto.
    rewrite concat_app. apply Forall_app. split; auto.
    apply Forall_forall. intros row Hrow. eapply Hstep; eauto.
Qed.

Lemma differencing_main_rows (P : transition -> Prop) :
  (forall month df_prev df_curr row,
     In row (List.concat (step month df_prev df_curr)) -> P row) ->
  forall ties files rows, main ties files = Written rows -> Forall P rows.
Proof.
  intros Hstep ties files rows E. unfold main in E.
  destruct files as [|f0 rest]; [discriminate|].
  destruct (file_load f0) as [df0|]; [|discriminate].
  destruct (window df0 rest []) as [res|] eqn:W; [|discriminate].
  apply finish_written in E. destruct E as [Hperm _].
  apply (window_rows Hstep) in W; [|constructor].
  rewrite Forall_forall in *. intros row Hrow. apply W.
  eapply Permutation_in; eauto.
Qed.

(** The same, remembering that both months of a pass were loaded from
    files of the run. *)
Lemma window_rows_loaded (Q : frame -> Prop) (P : transition -> Prop) :
  (forall month df_prev df_curr row,
     Q df_prev -> Q df_curr ->
     In row (List.concat (step month df_prev df_curr)) -> P row) ->
  forall rest df_prev acc res,
    Q df_prev ->
    (forall f df, In f rest -> file_load f = Some df -> Q df) ->
    window df_prev rest acc = Some res ->
    Forall P (List.concat acc) -> Forall P (List.concat res).
Proof.
  intros Hstep.
  induction rest as [|f rest IH]; simpl; intros df acc res Hdf Hrest E Hacc.
  - inversion E; subst. auto.
  - destruct (file_load f) as [df_curr|] eqn:Ef; [|discriminate].
    assert (Hcurr : Q df_curr) by (apply (Hrest f); auto).
    apply (IH df_curr (acc ++ step (file_month f) df df_curr) res); auto.
    + intros g dg Hg. apply Hrest. now right.
    + rewrite concat_app. apply Forall_app. split; auto.
      apply Forall_forall. intros row Hrow.
      apply (Hstep (file_month f) df df_curr); auto.
Qed.

Lemma differencing_main_rows_loaded (Q : frame -> Prop)
    (P : transition -> Prop) :
  (forall month df_prev df_curr row,
     Q df_prev -> Q df_curr ->
     In row (List.concat (step month df_prev df_curr)) -> P row) ->
  forall ties files rows,
    (forall f df, In f files -> file_load f = Some df -> Q df) ->
    main ties files = Written rows -> Forall P rows.
Proof.
  intros Hstep ties files rows Hfiles E. unfold main in E.
  destruct files as [|f0 rest]; [discriminate|].
  destruct (file_load f0) as [df0|] eqn:E0; [|discriminate].
  destruct (window df0 rest []) as [res|] eqn:W; [|discriminate].
  apply finish_written in E. destruct E as [Hperm _].
  assert (HW : Forall P (List.concat res)).
  { apply (@window_rows_loaded Q P Hstep rest df0 [] res); auto.
    - apply (Hfiles f0); auto. now left.
    - intros f df Hf. apply Hfiles. now right. }
  rewrite Forall_forall in *. intros row Hrow. apply HW.
  eapply Permutation_in; eauto.
Qed.

Lemma step_rows (month : string) (df_prev df_curr : frame) row :
  In row (List.concat (step month df_prev df_curr)) ->
  exists a, In a (aggregate month df_prev df_curr) /\ row = drop a.
Proof.
  unfold step. destruct (changed df_prev df_curr); simpl; [tauto|].
  rewrite app_nil_r, in_map_iff. intros [a [<- Ha]]. eauto.
Qed.

Lemma window_None (rest : list monthly_file) (df_prev : frame) acc :
  window df_prev rest acc = None <->
  exists f, In f rest /\ file_load f = None.
Proof.
  revert df_prev acc. induction rest as [|f rest IH]; simpl; intros df acc.
  - split; [discriminate|]. intros [f [[] _]].
  - destruct (file_load f) as [df_curr|] eqn:E.
    + rewrite IH. split.
      * intros [g [Hg Eg]]. eauto.
      * intros [g [[->|Hg] Eg]]; [congruence|eauto].
    + split; auto. intros _. exists f. auto.
Qed.

(** [main] ends in [Fatal] exactly when no file was found or some file
    cannot be loaded. *)
Lemma differencing_main_Fatal (ties : tie_order transition) (files : list monthly_file) :
  main ties files = Fatal <->
  files = [] \/ exists f, In f files /\ file_load f = None.
Proof.
  unfold main. destruct files as [|f0 rest].
  - split; auto.
  - destruct (file_load f0) as [df0|] eqn:E0.
    + destruct (window df0 rest []) as [res|] eqn:W.
      * split.
        -- intro E. exfalso. revert E. apply finish_not_fatal.
        -- intros [C|[f [[->|Hf] Ef]]]; [discriminate|congruence|].
           assert (Hn : window df0 rest [] = None)
             by (apply window_None; eauto).
           congruence.
      * split; auto. intros _. right.
        apply window_None in W. destruct W as [f [Hf Ef]].
        exists f. split; auto. now right.
    + split; auto. intros _. right. exists f0. split; auto. now left.
Qed.

End DifferencingFacts.

(* ------------------------------------------------------------------ *)
(** ** The flagged-transfer reconciler: files, months and rows *)

Module FlaggedFacts.
Import Flagged.

(** *** [files_by_month] *)

Lemma files_of_setdefault_append d m f m' :
  files_of (setdefault_append d m f) m' =
  if String.eqb m m' then files_of d m' ++ [f] else files_of d m'.
Proof.
  induction d as [|[k fs] d IH]; simpl.
  - destruct (String.eqb m m'); reflexivity.
  - destruct (String.eqb_spec k m) as [->|Hkm]; simpl.
    + destruct (String.eqb m m'); reflexivity.
    + rewrite IH. destruct (String.eqb_spec k m') as [->|Hkm'];
        destruct (String.eqb_spec m m'); congruence.
Qed.

Lemma keys_setdefault_append d m f k :
  In k (map fst (setdefault_append d m f)) <-> k = m \/ In k (map fst d).
Proof.
  induction d as [|[k' fs] d IH]; simpl.
  - intuition.
  - destruct (String.eqb_spec k' m) as [->|Hkm]; simpl.
    + intuition.
    + rewrite IH. intuition.
Qed.

Lemma files_of_add_all files d m :
  files_of (add_all files d) m =
  files_of d m ++ filter (fun f => String.eqb (file_month f) m) files.
Proof.
  revert d. induction files as [|f files IH]; simpl; intro d.
  - now rewrite app_nil_r.
  - unfold add_all in *. simpl. rewrite IH, files_of_setdefault_append.
    destruct (String.eqb (file_month f) m); auto.
    now rewrite <- app_assoc.
Qed.

Lemma keys_add_all files d k :
  In k (map fst (add_all files d)) <->
  In k (map fst d) \/ In k (map file_month files).
Proof.
  revert d. induction files as [|f files IH]; simpl; intro d.
  - intuition.
  - unfold add_all in *. simpl. rewrite IH, keys_setdefault_append.
    intuition.
Qed.

Lemma files_of_by_month l1 l2 m :
  files_of (files_by_month l1 l2) m =
  filter (fun f => String.eqb (file_month f) m) (considered l1 l2).
Proof. apply (files_of_add_all (considered l1 l2) [] m). Qed.

Lemma months_of_In l1 l2 m :
  In m (months_of (files_by_month l1 l2)) <->
  In m (map file_month (considered l1 l2)).
Proof.
  unfold months_of. split; intro Hin.
  - apply (Permutation_in _ (sort_rows_perm _ _)) in Hin.
    apply (keys_add_all (considered l1 l2) [] m) in Hin.
    simpl in Hin. destruct Hin as [[]|Hin]. exact Hin.
  - apply (Permutation_in _ (Permutation_sym (sort_rows_perm _ _))).
    apply (keys_add_all (considered l1 l2) [] m). auto.
Qed.

(** *** When a month cannot be loaded *)



Section Rows.
Variable cast_float64 : string -> option f64.
Variable name_map : dict.
Variable pick : frame -> nat.

Local Abbreviation process := (process cast_float64 name_map pick).
Local Abbreviation reconcile := (reconcile cast_float64 name_map).
Local Abbreviation main := (main cast_float64 name_map pick).


(** Rows gathered by the loop come from the reconciliation of some month. *)
Lemma process_rows (P : transition -> Prop) :
  (forall month df_month row,
     In row (List.concat (reconcile month df_month)) -> P row) ->
  forall by_month months acc res,
    process by_month months acc = Some res ->
    Forall P (List.concat acc) -> Forall P (List.concat res).
Proof.
  intros Hrec by_month.
  induction months as [|m months IH]; simpl; intros acc res E Hacc.
  - inversion E; subst. auto.
  - destruct (month_frames (files_of by_month m)) as [frames|]; [|discriminate].
    destruct (df_month_of pick frames) as [df|]; [|discriminate].
    eapply IH; eauto.
    rewrite concat_app. apply Forall_app. split; auto.
    apply Forall_forall. intros row Hrow. eapply Hrec; eauto.
Qed.

(** The same, remembering which files each month was merged from. *)
Lemma process_rows_loaded (Q : frame -> Prop) (P : transition -> Prop)
    by_month :
  (forall month df_month row,
     Q df_month ->
     In row (List.concat (reconcile month df_month)) -> P row) ->
  forall months acc res,
    (forall m frames df_month, In m months ->
       month_frames (files_of by_month m) = Some frames ->
       df_month_of pick frames = Some df_month -> Q df_month) ->
    process by_month months acc = Some res ->
    Forall P (List.concat acc) -> Forall P (List.concat res).
Proof.
  intros Hrec.
  induction months as [|m months IH]; simpl; intros acc res HQ E Hacc.
  - inversion E; subst. auto.
  - destruct (month_frames (files_of by_month m)) as [frames|] eqn:M;
      [|discriminate].
    destruct (df_month_of pick frames) as [df|] eqn:D; [|discriminate].
    apply (IH (acc ++ reconcile m df) res); auto.
    + intros m' fr' df' Hm'. apply HQ. now right.
    + rewrite concat_app. apply Forall_app. split; auto.
      apply Forall_forall. intros row Hrow.
      apply (Hrec m df); auto. apply (HQ m frames); auto using in_eq.
Qed.

Lemma month_frames_In files frames fr :
  month_frames files = Some frames -> In fr frames ->
  exists f, In f files /\ file_scan f = Loans fr.
Proof.
  revert frames. induction files as [|f files IH]; simpl; intros frames E Hfr.
  - inversion E; subst. destruct Hfr.
  - destruct (file_scan f) as [| |rows] eqn:Ef; [discriminate| |].
    + destruct (IH frames E Hfr) as [g [Hg Eg]]. eauto.
    + destruct (month_frames files) as [frames'|]; [|discriminate].
      inversion E; subst. destruct Hfr as [->|Hfr].
      * exists f. auto.
      * destruct (IH frames' eq_refl Hfr) as [g [Hg Eg]]. eauto.
Qed.

(** Every row of a month's frame was read from a considered file of that
    month. *)
Lemma df_month_rows l1 l2 m frames df_month r :
  month_frames (files_of (files_by_month l1 l2) m) = Some frames ->
  df_month_of pick frames = Some df_month ->
  In r df_month ->
  exists f rows, In f (considered l1 l2) /\ file_scan f = Loans rows /\
                 In r rows.
Proof.
  intros M D Hr. unfold df_month_of in D.
  destruct frames as [|f0 fs]; [discriminate|].
  injection D as <-. apply unique_any_In in Hr.
  change (f0 ++ List.concat fs) with (List.concat (f0 :: fs)) in Hr.
  apply in_concat in Hr. destruct Hr as [fr [Hfr Hr]].
  destruct (month_frames_In _ _ M Hfr) as [f [Hf Ef]].
  rewrite files_of_by_month in Hf. apply filter_In in Hf.
  destruct Hf as [Hf _]. exists f, fr. auto.
Qed.

Lemma flagged_main_rows_loaded (Q : frame -> Prop) (P : transition -> Prop) :
  (forall month df_month row,
     Q df_month ->
     In row (List.concat (reconcile month df_month)) -> P row) ->
  forall ties l1 l2 rows,
    (forall m frames df_month,
       month_frames (files_of (files_by_month l1 l2) m) = Some frames ->
       df_month_of pick frames = Some df_month -> Q df_month) ->
    main ties l1 l2 = Written rows -> Forall P rows.
Proof.
  intros Hrec ties l1 l2 rows HQ E. unfold Flagged.main in E.
  destruct (months_of (files_by_month l1 l2)) as [|m0 ms]; [discriminate|].
  destruct (process (files_by_month l1 l2) (m0 :: ms) []) as [res|] eqn:W;
    [|discriminate].
  apply finish_written in E. destruct E as [Hperm _].
  assert (HW : Forall P (List.concat res)).
  { apply (@process_rows_loaded Q P (files_by_month l1 l2) Hrec
             (m0 :: ms) [] res); auto.
    intros m frames df _. apply HQ. }
  rewrite Forall_forall in *. intros row Hrow. apply HW.
  eapply Permutation_in; eauto.
Qed.

Lemma flagged_main_rows (P : transition -> Prop) :
  (forall month df_month row,
     In row (List.concat (reconcile month df_month)) -> P row) ->
  forall ties l1 l2 rows, main ties l1 l2 = Written rows -> Forall P rows.
Proof.
  intros Hrec ties l1 l2 rows E. unfold Flagged.main in E.
  destruct (months_of (files_by_month l1 l2)) as [|m0 ms]; [discriminate|].
  destruct (process (files_by_month l1 l2) (m0 :: ms) []) as [res|] eqn:W;
    [|discriminate].
  apply finish_written in E. destruct E as [Hperm _].
  apply (process_rows Hrec) in W; [|constructor].
  rewrite Forall_forall in *. intros row Hrow. apply W.
  eapply Permutation_in; eauto.
Qed.

(** *** Rows of each table *)

Lemma issuer_totals_In (df : frame) (t : totals) :
  In t (servicer_totals cast_float64 df) ->
  In (t_issuer t) (map issuer_id df) /\
  t_total_n t =
    List.length (filter (fun r => keqb (issuer_id r) (t_issuer t)) df) /\
  t_total_upb t =
    sum (map (upb_dollars cast_float64)
             (filter (fun r => keqb (issuer_id r) (t_issuer t)) df)).
Proof.
  unfold servicer_totals. rewrite in_map_iff.
  intros [[k g] [<- Hin]]. apply group_by_In in Hin.
  destruct Hin as [Hk ->]. simpl. auto.
Qed.

Lemma issuer_totals_keys (df : frame) (s : option string) :
  In s (map issuer_id df) ->
  In s (map t_issuer (servicer_totals cast_float64 df)).
Proof.
  intro Hin. unfold servicer_totals. rewrite map_map. simpl.
  change (In s (map fst (group_by issuer_id df))).
  rewrite group_by_keys. now apply distinct_In.
Qed.

Lemma transfers_In (df : frame) (r : loan) :
  In r (transfers df) <-> In r df /\ seller_populated r = true.
Proof. apply filter_In. Qed.

Lemma seller_populated_Some (r : loan) :
  seller_populated r = true -> exists s, seller_issuer_id r = Some s.
Proof.
  unfold seller_populated. destruct (seller_issuer_id r); eauto. discriminate.
Qed.

Lemma seller_book_In (df : frame) (b : book) :
  In b (seller_book cast_float64 df) ->
  In (b_seller b) (map seller_issuer_id (transfers df)) /\
  b_total_n b =
    List.length (transferred_away df (b_seller b)) +
    List.length (still_held df (b_seller b)) /\
  b_total_upb b =
    add (sum (map (upb_dollars cast_float64) (transferred_away df (b_seller b))))
        (sum (map (upb_dollars cast_float64) (still_held df (b_seller b)))).
Proof.
  unfold seller_book. rewrite in_map_iff.
  intros [[[k g] remain] [<- Hin]]. apply left_join_In in Hin.
  destruct Hin as [Hg Hr]. apply group_by_In in Hg.
  destruct Hg as [Hk ->]. cbn [b_seller b_total_n b_total_upb fst snd].
  split; auto.
  unfold transferred_away, still_held.
  destruct remain as [t|]; cbn [option_map fill_null fst snd] in *.
  - destruct Hr as [Ht Hm]. apply key_match_true in Hm.
    destruct Hm as [s [-> Es]].
    destruct (issuer_totals_In _ _ Ht) as [_ [-> ->]].
    rewrite Es. auto.
  - assert (Hnone : filter (fun r => keqb (issuer_id r) k) df = []).
    { destruct (filter (fun r => keqb (issuer_id r) k) df) as [|y ys] eqn:F;
        auto.
      exfalso.
      assert (Hy : In y (filter (fun r => keqb (issuer_id r) k) df))
        by (rewrite F; now left).
      apply filter_In in Hy. destruct Hy as [Hy Ky]. apply keqb_eq in Ky.
      apply in_map_iff in Hk. destruct Hk as [x [Ex Hx]].
      apply transfers_In in Hx. destruct Hx as [_ Hx].
      apply seller_populated_Some in Hx. destruct Hx as [s Hs].
      assert (Hin : In (Some s)
                (map t_issuer (servicer_totals cast_float64 df))).
      { apply issuer_totals_keys. apply in_map_iff. exists y.
        split; auto. congruence. }
      apply in_map_iff in Hin. destruct Hin as [t [Et Ht]].
      assert (Hf : In t (filter
                (fun r => key_match k (t_issuer r))
                (servicer_totals cast_float64 df))).
      { apply filter_In. split; auto. apply key_match_true.
        exists s. split; congruence. }
      rewrite Hr in Hf. destruct Hf. }
    rewrite Hnone. cbn [map sum List.length]. auto.
Qed.

Lemma seller_book_keys (df : frame) (s : option string) :
  In s (map seller_issuer_id (transfers df)) ->
  In s (map b_seller (seller_book cast_float64 df)).
Proof.
  intro Hin.
  assert (Hg : In (s, filter (fun r => keqb (seller_issuer_id r) s)
                             (transfers df))
                  (group_by seller_issuer_id (transfers df)))
    by (apply group_by_In; auto).
  destruct (left_join_covers (fun g : option string * frame => fst g)
              t_issuer _ (servicer_totals cast_float64 df) _ Hg)
    as [o Ho].
  unfold seller_book. rewrite map_map. apply in_map_iff.
  exists (s, filter (fun r => keqb (seller_issuer_id r) s) (transfers df), o).
  split; auto.
Qed.

(** Where each row of [aggregate] comes from. *)
Lemma flagged_aggregate_In (month : string) (df : frame) (a : agg_row) :
  In a (aggregate cast_float64 month df) <->
  exists g buyer seller,
    a = with_fractions cast_float64 month (g, buyer, seller) /\
    In (g, buyer, seller)
       (left_join (fun gb => fst (fst (fst gb))) b_seller
          (left_join (fun g => snd (fst g)) t_issuer
                     (transfer_groups (transfers df))
                     (servicer_totals cast_float64 df))
          (seller_book cast_float64 df)).
Proof.
  unfold aggregate. rewrite in_map_iff. split.
  - intros [[[g buyer] seller] [<- Hin]]. eauto.
  - intros [g [buyer [seller [-> Hin]]]]. eauto.
Qed.

(** A group of transfers: its key is the seller and issuer of one of its
    rows, and its rows are the transfers of that key. *)
Lemma transfer_groups_In (df : frame) k g :
  In (k, g) (transfer_groups (transfers df)) ->
  g = filter (fun r => keqb (seller_issuer_id r, issuer_id r) k)
             (transfers df) /\
  exists r s, In r df /\ seller_populated r = true /\
              seller_issuer_id r = Some s /\
              k = (Some s, issuer_id r).
Proof.
  unfold transfer_groups. intro Hin. apply group_by_In in Hin.
  destruct Hin as [Hk ->]. split; auto.
  apply in_map_iff in Hk. destruct Hk as [r [<- Hr]].
  apply transfers_In in Hr. destruct Hr as [Hr Hp].
  destruct (seller_populated_Some _ Hp) as [s Hs].
  exists r, s. rewrite Hs. auto.
Qed.

Lemma reconcile_rows month df_month row :
  In row (List.concat (reconcile month df_month)) ->
  exists a, In a (aggregate cast_float64 month df_month) /\
            row = resolve name_map a.
Proof.
  unfold Flagged.reconcile. destruct (transfers df_month); simpl;
    [intros []|].
  rewrite app_nil_r, in_map_iff. intros [a [<- Ha]]. eauto.
Qed.


End Rows.

End FlaggedFacts.

(* ------------------------------------------------------------------ *)
(** * The properties *)

(** ** Differencing reconciler: which loans become transition records *)

Section TransitionSet.
Import Differencing DifferencingFacts.

(** C1.  For two consecutive snapshots, the loan-level transition records
    ([changed]) are exactly the loans whose identifier occurs in both
    snapshots with a servicer in the earlier one that differs from the
    servicer in the later one: such a loan has a record carrying its
    identifier and both servicers, every record is of that form, and a
    loan whose identifier is missing from either snapshot has no record. *)
Theorem differencing_transition_set (df_prev df_curr : frame) :
  (forall lid sfrom sto,
     (exists j, In j (changed df_prev df_curr) /\
                j_loan_identifier j = Some lid /\
                j_servicer_from j = Some sfrom /\
                j_servicer_to j = Some sto)
     <->
     (exists a b, In a df_prev /\ In b df_curr /\
                  loan_identifier a = Some lid /\
                  loan_identifier b = Some lid /\
                  servicer_name a = Some sfrom /\
                  servicer_name b = Some sto /\
                  sfrom <> sto))
  /\
  (forall j, In j (changed df_prev df_curr) ->
     exists lid sfrom sto,
       j_loan_identifier j = Some lid /\
       j_servicer_from j = Some sfrom /\
       j_servicer_to j = Some sto /\ sfrom <> sto)
  /\
  (forall lid,
     ~ (In (Some lid) (map loan_identifier df_prev) /\
        In (Some lid) (map loan_identifier df_curr)) ->
     forall j, In j (changed df_prev df_curr) ->
       j_loan_identifier j <> Some lid).
Proof.
  split; [|split].
  - intros lid sfrom sto. split.
    + intros [j [Hj [E1 [E2 E3]]]]. apply changed_In in Hj.
      destruct Hj as [a [b [lid' [sf [st
        [Ha [Hb [Ia [Ib [Sa [Sb [Hd ->]]]]]]]]]]]].
      simpl in *. exists a, b.
      inversion E1; inversion E2; inversion E3; subst. auto 10.
    + intros [a [b [Ha [Hb [Ia [Ib [Sa [Sb Hd]]]]]]]].
      eexists. split.
      * apply changed_In. exists a, b, lid, sfrom, sto. eauto 10.
      * simpl. auto.
  - intros j Hj. apply changed_In in Hj.
    destruct Hj as [a [b [lid [sf [st [_ [_ [_ [_ [_ [_ [Hd ->]]]]]]]]]]]].
    simpl. eauto 10.
  - intros lid Hnot j Hj E. apply Hnot. apply changed_In in Hj.
    destruct Hj as [a [b [lid' [sf [st
      [Ha [Hb [Ia [Ib [_ [_ [_ ->]]]]]]]]]]]].
    simpl in E. inversion E; subst.
    split; apply in_map_iff; eauto.
Qed.

(** In [fu_201906] and [fu_201907] loan L2 moves from A to B; L1 stays and
    L3 is new. *)
Lemma differencing_transition_set_witness :
  (exists j, In j (changed Examples.fu_201906 Examples.fu_201907) /\
             j_loan_identifier j = Some "L2"%string /\
             j_servicer_from j = Some "A"%string /\
             j_servicer_to j = Some "B"%string) /\
  List.length (changed Examples.fu_201906 Examples.fu_201907) = 1.
Proof.
  split; [|reflexivity].
  apply (proj1 (differencing_transition_set
                  Examples.fu_201906 Examples.fu_201907)).
  exists (Examples.fu "L2" "A" 200), (Examples.fu "L2" "B" 190).
  simpl. repeat split; auto; discriminate.
Defined.

End TransitionSet.

(** ** Differencing reconciler: the count fractions are always defined *)

Section CountFractionsDefined.
Import Differencing DifferencingFacts.

Lemma of_count_div (n d : nat) :
  1 <= d ->
  div (of_count n) (of_count d) =
  Fin (inject_Z (Z.of_nat n) / inject_Z (Z.of_nat d)).
Proof.
  intro Hd. unfold div, of_count.
  destruct (Qeq_bool (inject_Z (Z.of_nat d)) 0) eqn:E; auto.
  apply Qeq_bool_eq in E. unfold Qeq in E. simpl in E. lia.
Qed.

Lemma aggregate_totals_matched (month_curr : string)
    (df_prev df_curr : frame) (a : agg_row) :
  In a (aggregate month_curr df_prev df_curr) ->
  totals_matched a.
Proof.
  intro Ha. apply aggregate_In in Ha.
  destruct Ha as [[k g] [seller [buyer [-> [Hg [Hs Hb]]]]]].
  destruct (changed_groups_In _ _ _ _ Hg)
    as [_ [j [sfrom [sto [_ [Hj [-> [_ [Jf Jt]]]]]]]]].
  apply changed_In in Hj.
  destruct Hj as [ra [rb [lid [sf [st
    [Hra [Hrb [Ia [Ib [Sa [Sb [_ ->]]]]]]]]]]]].
  simpl in Jf, Jt. inversion Jf; inversion Jt; subst sf st.
  (* the seller's row of totals *)
  destruct (left_join_matched _ _ _ _ _ _ Hs (k := sfrom) eq_refl)
    as [ts [-> [Hts Ks]]].
  { apply servicer_totals_keys. apply in_map_iff. eauto. }
  destruct (left_join_matched _ _ _ _ _ _ Hb (k := sto) eq_refl)
    as [tb [-> [Htb Kb]]].
  { apply servicer_totals_keys. apply in_map_iff. eauto. }
  destruct (servicer_totals_In _ _ Hts) as [_ [Ns _]].
  destruct (servicer_totals_In _ _ Htb) as [_ [Nb _]].
  assert (Hs1 : 1 <= t_total_n ts).
  { rewrite Ns, Ks. apply count_pos with (v := lid).
    apply in_map_iff. exists ra. split; auto.
    apply filter_In. split; auto. rewrite Sa. apply keqb_refl. }
  assert (Hb1 : 1 <= t_total_n tb).
  { rewrite Nb, Kb. apply count_pos with (v := lid).
    apply in_map_iff. exists rb. split; auto.
    apply filter_In. split; auto. rewrite Sb. apply keqb_refl. }
  exists (t_total_n ts), (t_total_n tb). cbn -[div of_count].
  rewrite !of_count_div by assumption.
  repeat split; eauto.
Qed.

(** C9.  In the differencing reconciler every aggregate row finds its
    seller totals and its buyer totals, the matched count denominators are
    at least 1, and so the two count fractions of every row of every pass,
    and of the written output, are present, finite numbers. *)
Theorem differencing_count_fractions_defined :
  (forall month_curr df_prev df_curr a,
     In a (aggregate month_curr df_prev df_curr) ->
     exists seller_n buyer_n,
       a_seller_total_n a = Some seller_n /\ 1 <= seller_n /\
       a_buyer_total_n a = Some buyer_n /\ 1 <= buyer_n /\
       a_frac_seller_n a =
         Some (Fin (inject_Z (Z.of_nat (a_n_loans a)) /
                    inject_Z (Z.of_nat seller_n))) /\
       a_frac_buyer_n a =
         Some (Fin (inject_Z (Z.of_nat (a_n_loans a)) /
                    inject_Z (Z.of_nat buyer_n))))
  /\
  (forall ties files rows,
     main ties files = Written rows ->
     forall row, In row rows ->
       (exists q, frac_seller_n row = Some (Fin q)) /\
       (exists q, frac_buyer_n row = Some (Fin q))).
Proof.
  split.
  - intros month_curr df_prev df_curr a Ha.
    destruct (aggregate_totals_matched _ _ _ _ Ha)
      as [sn [bn [E1 [H1 [E2 [H2 [_ [_ [F1 F2]]]]]]]]].
    exists sn, bn. auto 6.
  - intros ties files rows E.
    apply Forall_forall.
    apply (differencing_main_rows
             (fun row => (exists q, frac_seller_n row = Some (Fin q)) /\
                         (exists q, frac_buyer_n row = Some (Fin q))))
      with (ties := ties) (files := files); auto.
    intros month df_prev df_curr row Hrow.
    apply step_rows in Hrow. destruct Hrow as [a [Ha ->]].
    destruct (aggregate_totals_matched _ _ _ _ Ha)
      as [sn [bn [_ [_ [_ [_ [_ [_ [F1 F2]]]]]]]]].
    simpl. eauto.
Qed.

Lemma differencing_count_fractions_defined_witness :
  exists row,
    main as_given Examples.fu_files = Written [row] /\
    (exists q, frac_seller_n row = Some (Fin q)) /\
    (exists q, frac_buyer_n row = Some (Fin q)).
Proof.
  eexists. split; [vm_compute; reflexivity|].
  refine (proj2 differencing_count_fractions_defined
            as_given Examples.fu_files _ _ _ _).
  - vm_compute. reflexivity.
  - left. reflexivity.
Defined.

End CountFractionsDefined.

(** ** Unreadable and empty sources *)

Section FatalPeriods.
Import Examples.


End FatalPeriods.

(** ** Order of the output *)

Section OutputSorted.
Import Examples.

Lemma in_output_order_sorted {R} (month_of : R -> string)
    (n_loans_of : R -> nat) (rows : list R) :
  StronglySorted (in_output_order month_of n_loans_of) rows ->
  output_sorted month_of n_loans_of rows.
Proof.
  intros Hs i j a b Hij Hi Hj.
  pose proof (StronglySorted_nth Hs Hij Hi Hj) as Hab.
  unfold String.leb. destruct Hab as [Hlt|[Heq Hn]].
  - rewrite Hlt. split; auto. intro E.
    rewrite E, compare_refl in Hlt. discriminate.
  - rewrite Heq, compare_refl. auto.
Qed.

(** C8.  What either script writes is sorted: rows are non-decreasing in
    period token and, among rows of equal period, non-increasing in loan
    count. *)
Theorem output_is_sorted :
  (forall ties files rows,
     Differencing.main ties files = Written rows ->
     output_sorted Differencing.transition_month Differencing.n_loans rows)
  /\
  (forall cast_float64 name_map pick ties llmon1_files llmon2_files rows,
     Flagged.main cast_float64 name_map pick ties llmon1_files llmon2_files
     = Written rows ->
     output_sorted Flagged.transition_month Flagged.n_loans rows).
Proof.
  split.
  - intros ties files rows E. apply in_output_order_sorted.
    unfold Differencing.main in E.
    destruct files as [|f0 rest]; [discriminate|].
    destruct (Differencing.file_load f0); [|discriminate].
    destruct (Differencing.window _ _ _); [|discriminate].
    now apply finish_written in E.
  - intros cast nm pick ties l1 l2 rows E. apply in_output_order_sorted.
    unfold Flagged.main in E.
    destruct (Flagged.months_of _); [discriminate|].
    destruct (Flagged.process _ _ _ _ _ _); [|discriminate].
    now apply finish_written in E.
Qed.

Lemma output_is_sorted_witness :
  exists rows,
    Differencing.main reversed fu_files_three = Written rows /\
    List.length rows = 4 /\
    output_sorted Differencing.transition_month Differencing.n_loans rows.
Proof.
  eexists. split; [vm_compute; reflexivity|]. split; [reflexivity|].
  apply (proj1 output_is_sorted reversed fu_files_three).
  vm_compute. reflexivity.
Defined.

End OutputSorted.

(** ** Flagged-transfer reconciler: the seller's reconstructed book *)

Section SellerBook.
Import Examples Flagged FlaggedFacts.
Variable cast_float64 : string -> option f64.

(** C2.  For every aggregate row of a period, the seller-total
    denominators joined to it are, for the row's seller identity, the
    number (balance) of loans still held this period under that identity,
    which is 0 when it holds none, plus the number (balance) of loans
    transferred away from it this period; the seller-side fractions divide
    by exactly these. *)
Theorem seller_book_is_remaining_plus_transferred
    (month : string) (df_month : frame) (a : agg_row) :
  In a (aggregate cast_float64 month df_month) ->
  let held := still_held df_month (a_seller a) in
  let away := transferred_away df_month (a_seller a) in
  a_seller_total_n a = Some (List.length away + List.length held) /\
  a_seller_total_upb a =
    Some (add (sum (map (upb_dollars cast_float64) away))
              (sum (map (upb_dollars cast_float64) held))) /\
  a_frac_seller_n a =
    Some (div (of_count (a_n_loans a))
              (of_count (List.length away + List.length held))) /\
  a_frac_seller_upb a =
    Some (div (a_total_upb a)
              (add (sum (map (upb_dollars cast_float64) away))
                   (sum (map (upb_dollars cast_float64) held)))) /\
  (~ In (a_seller a) (map issuer_id df_month) ->
     held = [] /\
     a_seller_total_n a = Some (List.length away + 0)).
Proof.
  intro Ha. apply flagged_aggregate_In in Ha.
  destruct Ha as [[k g] [buyer [seller [-> Hin]]]].
  pose proof (left_join_left _ _ _ _ _ _ Hin) as Hb.
  pose proof (left_join_left _ _ _ _ _ _ Hb) as Hg.
  destruct (transfer_groups_In _ _ _ Hg) as [_ [r [s [Hr [Hp [Hs ->]]]]]].
  destruct (left_join_matched _ _ _ _ _ _ Hin (k := s) eq_refl)
    as [b [-> [Hbk Kb]]].
  { apply seller_book_keys. apply in_map_iff. exists r. split; auto.
    now apply transfers_In. }
  destruct (seller_book_In _ _ _ Hbk) as [_ [En Eu]].
  rewrite Kb in En, Eu.
  cbn -[div of_count add sum still_held transferred_away].
  rewrite En, Eu.
  assert (Hnone : ~ In (Some s) (map issuer_id df_month) ->
                  still_held df_month (Some s) = []).
  { intro Hnot.
    destruct (still_held df_month (Some s)) as [|y ys] eqn:E; auto.
    exfalso. apply Hnot.
    assert (Hy : In y (still_held df_month (Some s)))
      by (rewrite E; now left).
    apply filter_In in Hy. destruct Hy as [Hy Ky]. apply keqb_eq in Ky.
    rewrite <- Ky. now apply in_map. }
  split; [reflexivity|]. split; [reflexivity|].
  split; [reflexivity|]. split; [reflexivity|].
  intro Hnot. rewrite (Hnone Hnot). auto.
Qed.

End SellerBook.

Section SellerBookExample.
Import Examples Flagged FlaggedFacts.

(** In [ll_201504] seller X lost one loan to Y and still holds one. *)
Lemma seller_book_is_remaining_plus_transferred_witness :
  exists a,
    aggregate cast_integer "201504" ll_201504 = [a] /\
    a_seller a = Some "X"%string /\
    a_buyer_total_n a = Some 4 /\
    a_seller_total_n a = Some (1 + 1).
Proof.
  eexists. split; [vm_compute; reflexivity|].
  split; [reflexivity|]. split; [reflexivity|].
  refine (proj1 (seller_book_is_remaining_plus_transferred
                   cast_integer "201504" ll_201504 _ _)).
  vm_compute. left. reflexivity.
Defined.

End SellerBookExample.

(** ** Flagged-transfer reconciler: a seller may equal the buyer *)

Section SelfTransfer.
Import Examples Flagged FlaggedFacts.

Lemma self_transfer_row (cast_float64 : string -> option f64)
    (month : string) (df_month : frame) (r : loan) :
  In r df_month -> seller_populated r = true ->
  seller_issuer_id r = issuer_id r ->
  exists a, In a (aggregate cast_float64 month df_month) /\
            a_seller a = seller_issuer_id r /\ a_issuer a = issuer_id r.
Proof.
  intros Hr Hp Eq.
  assert (Hg : In ((seller_issuer_id r, issuer_id r),
                   filter (fun x => keqb (seller_issuer_id x, issuer_id x)
                                         (seller_issuer_id r, issuer_id r))
                          (transfers df_month))
                  (transfer_groups (transfers df_month))).
  { apply group_by_In. split; auto.
    apply in_map_iff. exists r. split; auto. now apply transfers_In. }
  destruct (left_join_covers (fun g : group_key * frame => snd (fst g))
              t_issuer _ (servicer_totals cast_float64 df_month) _ Hg)
    as [buyer Hb].
  destruct (left_join_covers
              (fun gb : group_key * frame * option totals =>
                 fst (fst (fst gb)))
              b_seller _ (seller_book cast_float64 df_month) _ Hb)
    as [seller Hs].
  eexists. split.
  - apply flagged_aggregate_In. eauto.
  - simpl. auto.
Qed.

(** C10.  The flagged-transfer reconciler does not ask the prior servicer
    to differ from the current issuer: a loan whose populated prior-servicer
    field equals its issuer identity yields an aggregate row from that
    identity to itself, and on the single-period input [ll_self], which
    holds such a loan, the written output has a row whose origin is its
    destination. *)
Theorem flagged_self_transfer_is_reported :
  (forall cast_float64 month df_month r,
     In r df_month -> seller_populated r = true ->
     seller_issuer_id r = issuer_id r ->
     exists a, In a (aggregate cast_float64 month df_month) /\
               a_seller a = a_issuer a /\ a_seller a = seller_issuer_id r)
  /\
  (exists r, In r ll_self /\
             seller_issuer_id r = Some "Y"%string /\
             issuer_id r = Some "Y"%string)
  /\
  (exists row rest,
     main cast_integer ll_names keep_first as_given
          [ll_file "201504" (Loans ll_self)] [] = Written (row :: rest) /\
     out_seller_issuer_id row = Some "Y"%string /\
     out_issuer_id row = Some "Y"%string).
Proof.
  split; [|split].
  - intros cast month df r Hr Hp Eq.
    destruct (self_transfer_row cast month df r Hr Hp Eq) as [a [Ha [E1 E2]]].
    exists a. repeat split; auto. congruence.
  - eexists. split; [left; reflexivity|]. split; reflexivity.
  - eexists. eexists. split; [vm_compute; reflexivity|].
    split; reflexivity.
Qed.

Lemma flagged_self_transfer_is_reported_witness :
  exists a,
    In a (aggregate cast_integer "201504" ll_self) /\
    a_seller a = a_issuer a /\ a_seller a = Some "Y"%string.
Proof.
  refine (proj1 flagged_self_transfer_is_reported cast_integer
            "201504"%string ll_self
            (ll "P1" "1" "Y" (Some "Y"%string) "10000") _ _ _).
  - left. reflexivity.
  - reflexivity.
  - reflexivity.
Defined.

End SelfTransfer.

(** ** Flagged-transfer reconciler: merging the sources of a period *)

Section Deduplication.
Import Examples Flagged FlaggedFacts.

(** C4, as stated, fails: the call that merges the sources does not say
    which of the rows sharing a key is kept.  With the llmon1 row [ll_first]
    and the llmon2 row [ll_second] under one key, a run that keeps the
    first row it meets keeps the row of the earlier source. *)
Lemma later_source_need_not_win :
  ~ (forall pick frames df_month,
       df_month_of pick frames = Some df_month ->
       forall r, In r df_month -> later_source_wins (List.concat frames) r).
Proof.
  intro Hclaim.
  destruct (Hclaim keep_first [[ll_first]; [ll_second]] [ll_first] eq_refl
              ll_first (or_introl eq_refl))
    as [before [after [E Hlast]]].
  destruct before as [|b0 [|b1 before]]; simpl in E.
  - inversion E; subst. apply (Hlast ll_second); [now left|reflexivity].
  - discriminate E.
  - destruct before; discriminate E.
Qed.

(** C4, amended.  Merging the sources of a period yields exactly one row
    per (pool identifier, loan sequence) key occurring in any of them and
    no row of another key; the row kept for a key is one of the rows the
    sources hold under that key, and it is that row when there is only
    one.  Which row of a duplicated key is kept is left open. *)
Theorem merged_sources_one_row_per_key
    (pick : frame -> nat) (frames : list frame) (df_month : frame) :
  df_month_of pick frames = Some df_month ->
  (forall k, In k (map dedup_key (List.concat frames)) ->
     List.length (candidates dedup_key k df_month) = 1) /\
  (forall r, In r df_month ->
     In r (candidates dedup_key (dedup_key r) (List.concat frames))) /\
  (forall r, In r (List.concat frames) ->
     candidates dedup_key (dedup_key r) (List.concat frames) = [r] ->
     In r df_month).
Proof.
  unfold df_month_of. destruct frames as [|f0 fs]; [discriminate|].
  remember (List.concat (f0 :: fs)) as df eqn:Edf. clear Edf.
  intro E. injection E as <-.
  split; [|split].
  - intros k Hk. apply unique_any_one_per_key. exact Hk.
  - intros r Hr. apply filter_In. split.
    + now apply unique_any_In in Hr.
    + apply keqb_refl.
  - intros r Hr Hone.
    rewrite unique_any_kept. apply in_flat_map.
    exists (dedup_key r). split.
    + apply distinct_In. now apply in_map.
    + unfold kept. rewrite Hone. simpl.
      destruct (pick [r]) as [|[|n]]; now left.
Qed.

Lemma merged_sources_one_row_per_key_witness :
  List.length
    (candidates dedup_key (dedup_key ll_second) [ll_second]) = 1.
Proof.
  refine (proj1 (merged_sources_one_row_per_key keep_last
                   [[ll_first]; [ll_second]] (df_month := [ll_second])
                   eq_refl) _ _).
  left. reflexivity.
Defined.

End Deduplication.

(** ** Flagged-transfer reconciler: balances that cannot be read *)

Section MissingBalances.
Import Examples Flagged FlaggedFacts.
Variable cast_float64 : string -> option f64.

Lemma sum_present (col : list (option f64)) :
  sum col = fold_right add zero (present col).
Proof.
  induction col as [|[v|] col IH]; simpl; auto. now rewrite IH.
Qed.

Lemma sum_skips_missing (rows : frame) :
  sum (map (upb_dollars cast_float64) rows) =
  sum (map (upb_dollars cast_float64) (filter (has_balance cast_float64) rows)).
Proof.
  induction rows as [|r rows IH]; simpl; auto.
  unfold has_balance at 1.
  destruct (upb_dollars cast_float64 r) as [v|] eqn:E; simpl.
  - now rewrite E, IH.
  - exact IH.
Qed.

(** C5.  A balance string that is empty after stripping, or that the cast
    cannot read as a number, parses to a missing value and so not to zero;
    and every sum aggregate (the servicer totals and the per-transition
    sums) adds up the balances that are present only: rows with a missing
    balance can be removed without changing it. *)
Theorem missing_balance_is_not_zero :
  (forall s, strip_chars s = ""%string ->
     parse_upb cast_float64 (Some s) = None /\
     parse_upb cast_float64 (Some s) <> Some zero) /\
  (forall s, cast_float64 (strip_chars s) = None ->
     parse_upb cast_float64 (Some s) = None /\
     parse_upb cast_float64 (Some s) <> Some zero) /\
  parse_upb cast_float64 None = None /\
  (forall df_month t,
     In t (servicer_totals cast_float64 df_month) ->
     let rows := still_held df_month (t_issuer t) in
     t_total_upb t =
       fold_right add zero (present (map (upb_dollars cast_float64) rows)) /\
     t_total_upb t =
       sum (map (upb_dollars cast_float64)
                (filter (has_balance cast_float64) rows))) /\
  (forall month df_month a,
     In a (aggregate cast_float64 month df_month) ->
     let rows := filter (fun r => keqb (seller_issuer_id r, issuer_id r)
                                       (a_seller a, a_issuer a))
                        (transfers df_month) in
     a_total_upb a =
       fold_right add zero (present (map (upb_dollars cast_float64) rows)) /\
     a_total_upb a =
       sum (map (upb_dollars cast_float64)
                (filter (has_balance cast_float64) rows))).
Proof.
  assert (Hempty : forall s, strip_chars s = ""%string ->
            parse_upb cast_float64 (Some s) = None).
  { intros s Hs. unfold parse_upb. simpl. now rewrite Hs. }
  assert (Hbad : forall s, cast_float64 (strip_chars s) = None ->
            parse_upb cast_float64 (Some s) = None).
  { intros s Hs. unfold parse_upb. simpl.
    destruct (String.eqb (strip_chars s) ""); auto. now rewrite Hs. }
  split; [|split; [|split; [|split]]].
  - intros s Hs. rewrite (Hempty s Hs). split; [reflexivity|discriminate].
  - intros s Hs. rewrite (Hbad s Hs). split; [reflexivity|discriminate].
  - reflexivity.
  - intros df_month t Ht rows. subst rows.
    destruct (issuer_totals_In _ _ _ Ht) as [_ [_ ->]].
    split; [apply sum_present|apply sum_skips_missing].
  - intros month df_month a Ha rows. subst rows.
    apply flagged_aggregate_In in Ha.
    destruct Ha as [[k g] [buyer [seller [-> Hin]]]].
    pose proof (left_join_left _ _ _ _ _ _ Hin) as Hb.
    pose proof (left_join_left _ _ _ _ _ _ Hb) as Hg.
    destruct (transfer_groups_In _ _ _ Hg) as [-> _].
    destruct k as [k1 k2].
    split; [apply sum_present|apply sum_skips_missing].
Qed.

End MissingBalances.

Section MissingBalancesExample.
Import Examples Flagged FlaggedFacts.

(** In [ll_201504] the balance of loan 4 is the empty string: issuer Y's
    total is 100 + 200 + 300 dollars over four loans. *)
Lemma missing_balance_is_not_zero_witness :
  parse_upb cast_integer (Some "   "%string) = None /\
  parse_upb cast_integer (Some "12a"%string) = None /\
  exists t,
    In t (servicer_totals cast_integer ll_201504) /\
    t_issuer t = Some "Y"%string /\ t_total_n t = 4 /\
    t_total_upb t =
      fold_right add zero
        [Fin (10000 / 100); Fin (20000 / 100); Fin (30000 / 100)].
Proof.
  pose proof (missing_balance_is_not_zero cast_integer) as
    [Hempty [Hbad [_ [Htotals _]]]].
  split; [apply (Hempty "   "%string); reflexivity|].
  split; [apply (Hbad "12a"%string); reflexivity|].
  eexists. split; [left; reflexivity|].
  split; [reflexivity|]. split; [reflexivity|].
  exact (proj1 (Htotals ll_201504 _ (or_introl eq_refl))).
Defined.

End MissingBalancesExample.

(** ** Two runs over the same input *)

Section RunTwice.
Import Examples.

Lemma in_output_order_antisym {R} (month_of : R -> string)
    (n_loans_of : R -> nat) (a b : R) :
  in_output_order month_of n_loans_of a b ->
  in_output_order month_of n_loans_of b a ->
  month_of a = month_of b /\ n_loans_of a = n_loans_of b.
Proof.
  intros [L1|[E1 N1]] [L2|[E2 N2]].
  - rewrite String.compare_antisym, L2 in L1. discriminate.
  - rewrite E2, compare_refl in L1. discriminate.
  - rewrite E1, compare_refl in L2. discriminate.
  - split; auto. lia.
Qed.

(** C6, as stated, fails: the final sort does not fix the order of rows
    that tie on period and loan count.  On [ll_tie] two runs that meet the
    two tied rows in opposite orders write them in opposite orders. *)
Lemma two_runs_may_differ :
  ~ (forall cast_float64 name_map pick ties1 ties2 llmon1_files llmon2_files,
       Flagged.main cast_float64 name_map pick ties1 llmon1_files llmon2_files
       = Flagged.main cast_float64 name_map pick ties2
                      llmon1_files llmon2_files).
Proof.
  intro Hclaim.
  specialize (Hclaim Flagged.cast_integer ll_names keep_first
                as_given reversed
                [ll_file "201504" (Flagged.Loans ll_tie)] []).
  vm_compute in Hclaim. discriminate.
Qed.

End RunTwice.

(** ** The four fractions *)

Section FlaggedFractions.
Import Flagged FlaggedFacts.
Local Open Scope Q_scope.
Variable cast_float64 : string -> option f64.

(** The count fractions need no assumption on the balances. *)
Lemma flagged_count_fractions (month : string) (df_month : frame)
    (a : agg_row) :
  In a (aggregate cast_float64 month df_month) ->
  fraction_well_formed (option_map of_count (a_seller_total_n a))
                       (a_frac_seller_n a) /\
  fraction_well_formed (option_map of_count (a_buyer_total_n a))
                       (a_frac_buyer_n a).
Proof.
  intros Ha. apply flagged_aggregate_In in Ha.
  destruct Ha as [[k rows] [buyer [seller [-> Hin]]]].
  pose proof (left_join_left _ _ _ _ _ _ Hin) as Hb.
  pose proof (left_join_left _ _ _ _ _ _ Hb) as Hg.
  destruct (transfer_groups_In _ _ _ Hg) as [Erows [r0 [s [Hr0 [Hp0 [Hs0 ->]]]]]].
  set (sel := fun x : loan =>
         seller_populated x &&
         keqb (seller_issuer_id x, issuer_id x) (Some s, issuer_id r0)).
  assert (Esel : rows = filter sel df_month).
  { rewrite Erows. unfold transfers. apply filter_filter. }
  assert (Hsel : forall x, sel x = true ->
            seller_issuer_id x = Some s /\ issuer_id x = issuer_id r0 /\
            seller_populated x = true).
  { intros x Hx. unfold sel in Hx. apply andb_true_iff in Hx.
    destruct Hx as [Hpx Hkx]. apply keqb_eq in Hkx.
    inversion Hkx. auto. }
  apply left_join_In in Hin. destruct Hin as [_ Hseller].
  apply left_join_In in Hb. destruct Hb as [_ Hbuyer].
  cbn -[div of_count add sum div_col fraction_well_formed option_map].
  split.
  - apply fraction_well_formed_counts. intros d Ed.
    destruct seller as [b|]; [|discriminate]. simpl in Ed.
    inversion Ed; subst d. destruct Hseller as [Hbk Hm].
    apply key_match_true in Hm. destruct Hm as [s' [E1 E2]].
    simpl in E1. inversion E1; subst s'.
    destruct (seller_book_In _ _ _ Hbk) as [_ [-> _]].
    rewrite E2. unfold transferred_away, transfers.
    rewrite Esel, filter_filter.
    etransitivity; [|apply Nat.le_add_r].
    apply filter_length_mono. intros x _ Hx.
    destruct (Hsel x Hx) as [Sx [_ Px]].
    rewrite Px, Sx. simpl. apply String.eqb_refl.
  - apply fraction_well_formed_counts. intros d Ed.
    destruct buyer as [t|]; [|discriminate]. simpl in Ed.
    inversion Ed; subst d. destruct Hbuyer as [Ht Hm].
    apply key_match_true in Hm. destruct Hm as [i [E1 E2]].
    simpl in E1.
    destruct (issuer_totals_In _ _ _ Ht) as [_ [-> _]].
    rewrite Esel. apply filter_length_mono. intros x _ Hx.
    destruct (Hsel x Hx) as [_ [Ix _]].
    apply keqb_eq. congruence.
Qed.

End FlaggedFractions.

Section DifferencingFractions.
Import Differencing DifferencingFacts.
Local Open Scope Q_scope.

Lemma group_as_pairs (k : group_key) (df_prev df_curr : frame) :
  filter (fun j => keqb (j_servicer_from j, j_servicer_to j) k)
         (changed df_prev df_curr)
  = map as_joined
        (filter (group_pairs k)
                (inner_join loan_identifier loan_identifier df_prev df_curr)).
Proof.
  unfold changed, joined.
  change (fun p : loan * loan =>
            {| j_loan_identifier := loan_identifier (fst p);
               j_servicer_from := servicer_name (fst p);
               j_upb_from := current_upb (fst p);
               j_servicer_to := servicer_name (snd p);
               j_upb_to := current_upb (snd p) |}) with as_joined.
  rewrite !filter_map_swap, filter_filter. reflexivity.
Qed.

Lemma group_pairs_key (sfrom sto : option string) (a b : loan) :
  group_pairs (sfrom, sto) (a, b) = true ->
  servicer_name a = sfrom /\ servicer_name b = sto.
Proof.
  unfold group_pairs. intro Hp. apply andb_true_iff in Hp.
  destruct Hp as [_ Hk]. apply keqb_eq in Hk. simpl in Hk.
  inversion Hk. auto.
Qed.

(** Both loans of a joined pair carry an identifier. *)
Lemma joined_pair_ids (df_prev df_curr : frame) (p : loan * loan) :
  In p (inner_join loan_identifier loan_identifier df_prev df_curr) ->
  In (fst p) df_prev /\ In (snd p) df_curr /\
  qcount (loan_identifier (fst p)) == 1 /\
  qcount (loan_identifier (snd p)) == 1.
Proof.
  destruct p as [a b]. intro Hp. apply inner_join_In in Hp.
  destruct Hp as [Ha [Hb Hm]]. apply key_match_true in Hm.
  destruct Hm as [lid [E1 E2]]. simpl. rewrite E1, E2. simpl.
  repeat split; auto; reflexivity.
Qed.

(** The count fractions need no assumption on the balances. *)
Lemma differencing_count_fractions (month_curr : string)
    (df_prev df_curr : frame) (a : agg_row) :
  unique_loan_identifiers df_prev -> unique_loan_identifiers df_curr ->
  In a (aggregate month_curr df_prev df_curr) ->
  fraction_well_formed (option_map of_count (a_seller_total_n a))
                       (a_frac_seller_n a) /\
  fraction_well_formed (option_map of_count (a_buyer_total_n a))
                       (a_frac_buyer_n a).
Proof.
  intros Uprev Ucurr Ha.
  apply NoDup_at_most_one in Uprev. apply NoDup_at_most_one in Ucurr.
  apply aggregate_In in Ha.
  destruct Ha as [[k G] [seller [buyer [-> [Hg [Hs Hb]]]]]].
  destruct (changed_groups_In _ _ _ _ Hg)
    as [EG [_ [sfrom [sto [_ [_ [-> _]]]]]]].
  rewrite group_as_pairs in EG.
  set (J := inner_join loan_identifier loan_identifier df_prev df_curr) in *.
  set (pairs := filter (group_pairs (Some sfrom, Some sto)) J) in *.
  assert (Hpairs : forall p, In p pairs ->
            In p J /\ group_pairs (Some sfrom, Some sto) p = true).
  { intros p Hp. apply filter_In in Hp. exact Hp. }
  assert (Econt_l :
    inject_Z (Z.of_nat (count (map j_loan_identifier G)))
    == qtotal (fun p => qcount (loan_identifier (fst p))) pairs).
  { rewrite count_qtotal, EG, map_map, qtotal_map. reflexivity. }
  assert (Econt_r :
    inject_Z (Z.of_nat (count (map j_loan_identifier G)))
    == qtotal (fun p => qcount (loan_identifier (snd p))) pairs).
  { rewrite Econt_l. apply qtotal_ext. intros p Hp.
    destruct (Hpairs p Hp) as [HJ _].
    destruct (joined_pair_ids _ _ _ HJ) as [_ [_ [E1 E2]]].
    rewrite E1, E2. reflexivity. }
  apply left_join_In in Hs. destruct Hs as [_ Hseller].
  apply left_join_In in Hb. destruct Hb as [_ Hbuyer].
  cbn -[div of_count add sum div_col fraction_well_formed option_map count].
  split.
  - apply fraction_well_formed_counts. intros d Ed.
    destruct seller as [ts|]; [|discriminate]. simpl in Ed.
    inversion Ed; subst d. destruct Hseller as [Hts Hm].
    apply key_match_true in Hm. destruct Hm as [s' [E1 E2]].
    simpl in E1. inversion E1; subst s'.
    destruct (servicer_totals_In _ _ Hts) as [_ [-> _]].
    apply inject_nat_le. rewrite Econt_l, count_qtotal, qtotal_map.
    unfold pairs, J.
    apply join_bound_left with (w := fun r => qcount (loan_identifier r));
      auto.
    + intros x _. apply qcount_nonneg.
    + intros x y Hxy. apply group_pairs_key in Hxy.
      apply keqb_eq. destruct Hxy. congruence.
  - apply fraction_well_formed_counts. intros d Ed.
    destruct buyer as [tb|]; [|discriminate]. simpl in Ed.
    inversion Ed; subst d. destruct Hbuyer as [Htb Hm].
    apply key_match_true in Hm. destruct Hm as [s' [E1 E2]].
    simpl in E1. inversion E1; subst s'.
    destruct (servicer_totals_In _ _ Htb) as [_ [-> _]].
    apply inject_nat_le. rewrite Econt_r, count_qtotal, qtotal_map.
    unfold pairs, J.
    apply join_bound_right with (w := fun r => qcount (loan_identifier r));
      auto.
    + intros x _. apply qcount_nonneg.
    + intros x y Hxy. apply group_pairs_key in Hxy.
      apply keqb_eq. destruct Hxy. congruence.
Qed.

End DifferencingFractions.

Section FractionsClaim.
Import Examples.
Local Open Scope Q_scope.

(** C3, as stated, fails for the balance fractions: nothing keeps a
    balance from being negative, and then a group's balance can exceed the
    total it is divided by.  In [ll_negative] issuer Y holds a loan of
    10.00 taken over from X and a loan of -5.00: the buyer total is 5.00,
    positive, and the buyer-side balance fraction is 2. *)
Lemma balance_fraction_may_exceed_one :
  ~ (forall cast_float64 month df_month a,
       In a (Flagged.aggregate cast_float64 month df_month) ->
       fractions_well_formed a).
Proof.
  intro Hclaim.
  destruct (Hclaim Flagged.cast_integer "201504"%string ll_negative _
              (or_introl eq_refl)) as [_ [_ [_ Hbuyer]]].
  vm_compute in Hbuyer.
  destruct Hbuyer as [f [Ef [Hunit _]]].
  injection Ef as <-.
  destruct (Hunit eq_refl) as [_ Hle]. apply Hle. reflexivity.
Qed.

(** Why the differencing reconciler needs identifiers to be unique: with
    loan L1 once in the earlier snapshot and twice in the later one the
    join yields two rows, and the seller-side count fraction is 2 over 1. *)
Lemma repeated_identifier_count_fraction :
  exists a,
    Differencing.aggregate "201907" [fu "L1" "A" 100]
                           [fu "L1" "B" 90; fu "L1" "B" 90] = [a] /\
    Differencing.a_seller_total_n a = Some 1%nat /\
    Differencing.a_frac_seller_n a = Some (Fin 2).
Proof.
  eexists. split; [vm_compute; reflexivity|]. split; reflexivity.
Qed.

End FractionsClaim.

(* ------------------------------------------------------------------ *)
(** * Further properties of the scripts *)

(** ** File names *)

Module FileNameFacts.
Import FileNames.

Local Open Scope string_scope.

Lemma append_assoc (a b c : string) : (a ++ b) ++ c = a ++ (b ++ c).
Proof. induction a as [|x a IH]; simpl; congruence. Qed.

Lemma occurs_append (c : ascii) (a b : string) :
  occurs c (a ++ b) = occurs c a || occurs c b.
Proof.
  induction a as [|x a IH]; simpl; auto.
  rewrite IH. now rewrite orb_assoc.
Qed.

(** *** [replace] *)

Lemma replace_absent (f u : ascii) (s : string) :
  occurs f s = false ->
  replace_from (String f (String u EmptyString)) "" s 0 = s.
Proof.
  induction s as [|c s IH]; simpl; intro Hs; auto.
  apply orb_false_iff in Hs. destruct Hs as [Hc Hs].
  destruct (ascii_dec f c) as [->|Hne].
  - rewrite Ascii.eqb_refl in Hc. discriminate.
  - now rewrite IH.
Qed.

Lemma replace_leading (f u : ascii) (s : string) :
  occurs f s = false ->
  replace (String f (String u EmptyString)) ""
          (String f (String u s)) = s.
Proof.
  intro Hs. unfold replace. simpl.
  destruct (ascii_dec f f) as [_|Hne]; [|contradiction].
  destruct (ascii_dec u u) as [_|Hne]; [|contradiction].
  destruct s as [|c s]; simpl; auto.
  simpl in Hs. apply orb_false_iff in Hs. destruct Hs as [Hc Hs].
  destruct (ascii_dec f c) as [->|Hne].
  - rewrite Ascii.eqb_refl in Hc. discriminate.
  - now rewrite replace_absent.
Qed.

(** *** Prefixes and the order of strings *)

Lemma substring_split (n m : nat) (s : string) :
  substring 0 n s ++ substring n m s = substring 0 (n + m) s.
Proof.
  revert s. induction n as [|n IH]; intro s.
  - destruct m, s; reflexivity.
  - destruct s as [|c s]; simpl.
    + destruct m; reflexivity.
    + now rewrite IH.
Qed.

Lemma compare_prefix_mono (n : nat) (a b : string) :
  String.compare a b <> Gt ->
  String.compare (substring 0 n a) (substring 0 n b) <> Gt.
Proof.
  revert a b. induction n as [|n IH]; intros a b Hab.
  - destruct a, b; simpl; discriminate.
  - destruct a as [|x a], b as [|y b]; simpl in *; try discriminate; auto.
    destruct (Ascii.compare x y); auto.
Qed.

Lemma leb_compare (a b : string) :
  String.leb a b = true <-> String.compare a b <> Gt.
Proof.
  unfold String.leb. destruct (String.compare a b); split;
    congruence || discriminate.
Qed.

Lemma compare_append_same (p a b : string) :
  String.compare (p ++ a) (p ++ b) = String.compare a b.
Proof.
  induction p as [|c p IH]; simpl; auto.
  assert (E : Ascii.compare c c = Eq).
  { unfold Ascii.compare. apply N.compare_refl. }
  now rewrite E.
Qed.

(** *** [split] *)

Lemma split_nonempty (sep : ascii) (s : string) : split sep s <> [].
Proof.
  destruct s as [|c s]; simpl; [discriminate|].
  destruct (Ascii.eqb c sep); [discriminate|].
  destruct (split sep s); discriminate.
Qed.

Lemma split_absent (sep : ascii) (s : string) :
  occurs sep s = false -> split sep s = [s].
Proof.
  induction s as [|c s IH]; simpl; intro Hs; auto.
  apply orb_false_iff in Hs. destruct Hs as [Hc Hs].
  rewrite Hc, IH; auto.
Qed.

(** A piece free of the separator, followed by the separator, is the
    first piece. *)
Lemma split_append (sep : ascii) (a t : string) :
  occurs sep a = false ->
  split sep (a ++ String sep t) = a :: split sep t.
Proof.
  induction a as [|c a IH]; simpl; intro Ha.
  - now rewrite Ascii.eqb_refl.
  - apply orb_false_iff in Ha. destruct Ha as [Hc Ha].
    rewrite Hc, IH; auto.
Qed.

Lemma split_pieces_free (sep : ascii) (s : string) :
  Forall (fun piece => occurs sep piece = false) (split sep s).
Proof.
  induction s as [|c s IH]; simpl.
  - repeat constructor.
  - destruct (Ascii.eqb c sep) eqn:E.
    + constructor; auto.
    + destruct (split sep s) as [|piece pieces].
      * repeat constructor. simpl. now rewrite E.
      * inversion IH; subst. constructor; auto. simpl. now rewrite E.
Qed.

Lemma split_present (sep : ascii) (s : string) :
  occurs sep s = true ->
  exists a t, s = a ++ String sep t /\ occurs sep a = false.
Proof.
  induction s as [|c s IH]; simpl; [discriminate|].
  destruct (Ascii.eqb c sep) eqn:E; simpl.
  - intros _. apply Ascii.eqb_eq in E. subst c.
    exists "", s. auto.
  - intro Hs. destruct (IH Hs) as [a [t [-> Ha]]].
    exists (String c a), t. simpl. now rewrite E.
Qed.

Lemma last_cons_nonempty {A} (x : A) (l : list A) (d : A) :
  l <> [] -> last (x :: l) d = last l d.
Proof. destruct l; [contradiction|reflexivity]. Qed.

(** The last piece is what follows the last separator. *)
Lemma last_split_append (sep : ascii) (p m : string) :
  occurs sep m = false ->
  last (split sep (p ++ String sep m)) "" = m.
Proof.
  intro Hm. induction p as [|c p IH]; simpl.
  - rewrite Ascii.eqb_refl, split_absent by assumption. reflexivity.
  - destruct (Ascii.eqb c sep).
    + rewrite last_cons_nonempty by apply split_nonempty. exact IH.
    + destruct (split sep (p ++ String sep m)) as [|piece pieces] eqn:E.
      * exfalso. revert E. apply split_nonempty.
      * destruct pieces as [|q qs].
        -- exfalso.
           assert (Hfree : occurs sep piece = false).
           { pose proof (split_pieces_free sep (p ++ String sep m)) as Hf.
             rewrite E in Hf. now inversion Hf. }
           assert (Hsplit : split sep (p ++ String sep m) <> [piece]).
           { destruct (split_present sep (p ++ String sep m))
               as [a [t [Eat Ha]]].
             - rewrite occurs_append. simpl. rewrite Ascii.eqb_refl.
               now rewrite orb_true_r.
             - rewrite Eat, split_append by assumption.
               pose proof (split_nonempty sep t).
               destruct (split sep t); congruence. }
           contradiction.
        -- exact IH.
Qed.

(** The FHLMC month as the code assembles it: "20", the two characters
    after "fu", the next two. *)
Lemma extract_month_pieces (d : string) :
  occurs "f" d = false ->
  Fhlmc.extract_month (String "f" (String "u" d)) =
  String.append "20" (String.append (substring 0 2 d) (substring 2 2 d)).
Proof.
  intro Hd. unfold Fhlmc.extract_month.
  rewrite replace_leading by assumption.
  apply append_assoc.
Qed.

Lemma length_append (a b : string) :
  String.length (a ++ b) = String.length a + String.length b.
Proof. induction a as [|c a IH]; simpl; auto. Qed.

Lemma rfind_dot_append (a b : string) :
  rfind_dot (a ++ b) =
  match rfind_dot b with
  | Some i => Some (String.length a + i)
  | None => rfind_dot a
  end.
Proof.
  induction a as [|c a IH]; simpl.
  - destruct (rfind_dot b); reflexivity.
  - rewrite IH. destruct (rfind_dot b); reflexivity.
Qed.

Lemma substring_prefix (a b : string) :
  substring 0 (String.length a) (a ++ b) = a.
Proof.
  induction a as [|c a IH]; simpl.
  - destruct b; reflexivity.
  - now rewrite IH.
Qed.

Lemma substring_append_long (n : nat) (a b : string) :
  n <= String.length a -> substring 0 n (a ++ b) = substring 0 n a.
Proof.
  revert a. induction n as [|n IH]; intros a Hn.
  - destruct a, b; reflexivity.
  - destruct a as [|c a]; simpl in *; [lia|].
    rewrite IH by lia. reflexivity.
Qed.

(** The stem of a parquet file is its name without ".parquet". *)
Lemma stem_parquet (s : string) :
  s <> EmptyString -> stem (s ++ ".parquet") = s.
Proof.
  intro Hs. unfold stem. rewrite rfind_dot_append.
  change (rfind_dot ".parquet") with (Some 0). cbv iota beta.
  rewrite Nat.add_0_r, length_append.
  change (String.length ".parquet") with 8.
  assert (Hlen : 0 < String.length s) by (destruct s; simpl; [congruence|lia]).
  replace (Nat.ltb 0 (String.length s)) with true
    by (symmetry; apply Nat.ltb_lt; lia).
  replace (Nat.ltb (String.length s) (String.length s + 8 - 1)) with true
    by (symmetry; apply Nat.ltb_lt; lia).
  apply substring_prefix.
Qed.

End FileNameFacts.

Section FileNames.
Import FileNames FileNameFacts.
Local Open Scope string_scope.

(** X1.  FHLMC [extract_month]: for a stem "fu" followed by characters
    among which there is no "f" (the YYMMDD digits), the month is "20"
    followed by the first four of them. *)
Theorem fhlmc_extract_month_of_stem (d : string) :
  occurs "f" d = false ->
  Fhlmc.extract_month ("fu" ++ d) = "20" ++ substring 0 4 d.
Proof.
  intro Hd.
  change ("fu" ++ d) with (String "f" (String "u" d)).
  rewrite extract_month_pieces by assumption.
  change (String.append "20") with (fun s => "20" ++ s). cbv beta.
  f_equal. apply (substring_split 2 2).
Qed.

Lemma fhlmc_extract_month_of_stem_witness :
  Fhlmc.extract_month "fu190606" = "201906".
Proof.
  exact (fhlmc_extract_month_of_stem "190606" eq_refl).
Defined.

(** X2.  FHLMC files are visited in the order of their months: of two
    files "fu" + d + ".parquet", with d of at least four characters and
    without "f", the one whose name sorts first has the earlier or the
    same month.  The files are sorted as paths, suffix included, and the
    month is read off the stem. *)
Theorem fhlmc_extract_month_monotone (d1 d2 : string) :
  occurs "f" d1 = false -> occurs "f" d2 = false ->
  4 <= String.length d1 -> 4 <= String.length d2 ->
  String.leb (("fu" ++ d1) ++ ".parquet") (("fu" ++ d2) ++ ".parquet")
    = true ->
  String.leb (Fhlmc.extract_month (stem (("fu" ++ d1) ++ ".parquet")))
             (Fhlmc.extract_month (stem (("fu" ++ d2) ++ ".parquet")))
    = true.
Proof.
  intros H1 H2 L1 L2 Hle.
  rewrite !stem_parquet by discriminate.
  change ("fu" ++ d1) with (String "f" (String "u" d1)) in *.
  change ("fu" ++ d2) with (String "f" (String "u" d2)) in *.
  rewrite !extract_month_pieces by assumption.
  change String.append with (fun a b : string => a ++ b). cbv beta.
  rewrite !(substring_split 2 2).
  change (String "f" (String "u" d1)) with ("fu" ++ d1) in *.
  change (String "f" (String "u" d2)) with ("fu" ++ d2) in *.
  apply leb_compare. apply leb_compare in Hle.
  rewrite !append_assoc in Hle.
  rewrite compare_append_same in *.
  apply (compare_prefix_mono (2 + 2)) in Hle.
  now rewrite !substring_append_long in Hle by assumption.
Qed.

Lemma fhlmc_extract_month_monotone_witness :
  String.leb (Fhlmc.extract_month (stem "fu191206.parquet"))
             (Fhlmc.extract_month (stem "fu200106.parquet")) = true.
Proof.
  apply (fhlmc_extract_month_monotone "191206" "200106");
    try reflexivity; simpl; lia.
Defined.

(** X3.  MLLD [extract_month] returns what follows the last underscore of
    the stem, the whole stem when it has none, and never a string with an
    underscore in it. *)
Theorem mlld_extract_month_last_piece :
  (forall p m, occurs "_" m = false ->
     Mlld.extract_month (p ++ String "_" m) = m) /\
  (forall stem, occurs "_" stem = false ->
     Mlld.extract_month stem = stem) /\
  (forall stem, occurs "_" (Mlld.extract_month stem) = false).
Proof.
  split; [|split].
  - intros p m Hm. now apply last_split_append.
  - intros stem Hs. unfold Mlld.extract_month.
    now rewrite split_absent.
  - intro stem. unfold Mlld.extract_month.
    pose proof (split_pieces_free "_" stem) as Hfree.
    pose proof (split_nonempty "_" stem) as Hne.
    rewrite Forall_forall in Hfree. apply Hfree.
    destruct (split "_" stem) as [|x l]; [contradiction|].
    apply (@exists_last _ (x :: l)) in Hne.
    destruct Hne as [l' [y E]]. rewrite E, last_last.
    apply in_or_app. right. now left.
Qed.

Lemma mlld_extract_month_last_piece_witness :
  Mlld.extract_month "FNM_MLLD_202501" = "202501".
Proof.
  exact (proj1 mlld_extract_month_last_piece "FNM_MLLD" "202501" eq_refl).
Defined.

(** X4.  GNMA [extract_month] raises exactly when the stem has no
    underscore; otherwise it returns the piece between the first
    underscore and the next one (or the end of the stem). *)
Theorem gnma_extract_month_second_piece :
  (forall stem, Gnma.extract_month stem = None <-> occurs "_" stem = false) /\
  (forall a m rest, occurs "_" a = false -> occurs "_" m = false ->
     Gnma.extract_month (a ++ String "_" (m ++ String "_" rest)) = Some m) /\
  (forall a m, occurs "_" a = false -> occurs "_" m = false ->
     Gnma.extract_month (a ++ String "_" m) = Some m).
Proof.
  split; [|split].
  - intro stem. unfold Gnma.extract_month. split.
    + intro Hnone. destruct (occurs "_" stem) eqn:E; auto.
      destruct (split_present "_" stem E) as [a [t [-> Ha]]].
      rewrite split_append in Hnone by assumption.
      pose proof (split_nonempty "_" t).
      destruct (split "_" t); [contradiction|discriminate].
    + intro Hs. now rewrite split_absent.
  - intros a m rest Ha Hm. unfold Gnma.extract_month.
    rewrite split_append, split_append by assumption. reflexivity.
  - intros a m Ha Hm. unfold Gnma.extract_month.
    rewrite split_append, split_absent by assumption. reflexivity.
Qed.

Lemma gnma_extract_month_second_piece_witness :
  Gnma.extract_month "llmon1_201504_L" = Some "201504".
Proof.
  exact (proj1 (proj2 gnma_extract_month_second_piece)
           "llmon1" "201504" "L" eq_refl eq_refl).
Defined.

End FileNames.

(** ** The issuer lookup *)

Module LookupFacts.
Import Flagged.

Lemma dict_get_set (d : dict) (k v k' : option string) :
  dict_get (dict_set d k v) k' =
  if keqb k k' then Some v else dict_get d k'.
Proof.
  induction d as [|[k0 v0] d IH]; cbn [dict_get dict_set].
  - destruct (keqb k k'); reflexivity.
  - destruct (keqb_spec k0 k) as [->|Hne]; cbn [dict_get dict_set].
    + destruct (keqb k k'); reflexivity.
    + rewrite IH. destruct (keqb_spec k0 k') as [->|Hne'].
      * destruct (keqb_spec k k'); congruence.
      * reflexivity.
Qed.

Lemma keys_dict_set (d : dict) (k v k' : option string) :
  In k' (map fst (dict_set d k v)) <-> k' = k \/ In k' (map fst d).
Proof.
  induction d as [|[k0 v0] d IH]; cbn [dict_set map fst In].
  - intuition.
  - destruct (keqb_spec k0 k) as [->|Hne]; cbn [dict_set map fst In].
    + intuition.
    + rewrite IH. intuition.
Qed.

Lemma NoDup_dict_set (d : dict) (k v : option string) :
  NoDup (map fst d) -> NoDup (map fst (dict_set d k v)).
Proof.
  induction d as [|[k0 v0] d IH]; cbn [dict_set map fst]; intro Hnd.
  - repeat constructor. intros [].
  - inversion Hnd as [|? ? Hk0 Hnd']; subst.
    destruct (keqb_spec k0 k) as [->|Hne]; cbn [dict_set map fst].
    + now constructor.
    + constructor; auto. rewrite keys_dict_set. intros [E|Hin]; auto.
Qed.

Lemma last_value_cons (r : option string * option string)
    (rows : list (option string * option string)) (k : option string) :
  last_value (r :: rows) k =
  match last_value rows k with
  | Some v => Some v
  | None => if keqb (fst r) k then Some (snd r) else None
  end.
Proof.
  unfold last_value. simpl rev.
  assert (Hfind : forall (l1 l2 : list (option string * option string)) p,
            find p (l1 ++ l2) =
            match find p l1 with Some x => Some x | None => find p l2 end).
  { intros l1 l2 p. induction l1 as [|x l1 IH]; simpl; auto.
    destruct (p x); auto. }
  rewrite Hfind.
  destruct (find (fun row => keqb (fst row) k) (rev rows));
    cbn [find option_map]; auto.
  destruct (keqb (fst r) k); reflexivity.
Qed.

Lemma dict_get_assign_all (rows : list (option string * option string))
    (d : dict) (k : option string) :
  dict_get (assign_all rows d) k =
  match last_value rows k with
  | Some v => Some v
  | None => dict_get d k
  end.
Proof.
  revert d. induction rows as [|r rows IH]; intro d.
  - reflexivity.
  - unfold assign_all in *. simpl fold_left.
    rewrite IH, last_value_cons, dict_get_set.
    destruct (last_value rows k); auto.
    destruct (keqb (fst r) k); reflexivity.
Qed.

Lemma keys_assign_all (rows : list (option string * option string))
    (d : dict) (k : option string) :
  In k (map fst (assign_all rows d)) <->
  In k (map fst d) \/ In k (map fst rows).
Proof.
  revert d. induction rows as [|r rows IH]; intro d; simpl.
  - intuition.
  - unfold assign_all in *. simpl fold_left.
    rewrite IH, keys_dict_set. intuition.
Qed.

Lemma NoDup_assign_all (rows : list (option string * option string))
    (d : dict) :
  NoDup (map fst d) -> NoDup (map fst (assign_all rows d)).
Proof.
  revert d. induction rows as [|r rows IH]; intros d Hnd; auto.
  unfold assign_all in *. simpl fold_left.
  apply IH. now apply NoDup_dict_set.
Qed.

Lemma build_issuer_lookup_assign
    (nissues : list (option string * option string))
    (issrcutoff : list (option string)) :
  build_issuer_lookup nissues issrcutoff =
  assign_all (map issrcutoff_row issrcutoff) (assign_all nissues []).
Proof.
  unfold build_issuer_lookup, assign_all.
  generalize (fold_left (fun d row => dict_set d (fst row) (snd row))
                        nissues []).
  induction issrcutoff as [|t ts IH]; intro d; simpl; auto.
Qed.

End LookupFacts.

Section Lookup.
Import Flagged LookupFacts.

(** X5.  Resolving an issuer identifier never fails and follows the
    precedence of the two sources: the name on the last issrcutoff line
    with that identifier; if there is none, the name in the last nissues
    row with it; if there is none either, the placeholder "ID:" followed
    by the identifier.  A name that is stored as null is returned as
    null. *)
Theorem issuer_name_precedence
    (nissues : list (option string * option string))
    (issrcutoff : list (option string)) (iid : string) :
  issuer_name (build_issuer_lookup nissues issrcutoff) iid =
  match last_value (map issrcutoff_row issrcutoff) (Some iid) with
  | Some name => name
  | None =>
      match last_value nissues (Some iid) with
      | Some name => name
      | None => Some ("ID:" ++ iid)%string
      end
  end.
Proof.
  unfold issuer_name.
  rewrite build_issuer_lookup_assign, !dict_get_assign_all.
  destruct (last_value (map issrcutoff_row issrcutoff) (Some iid)); auto.
  destruct (last_value nissues (Some iid)); reflexivity.
Qed.

(** X6.  The lookup holds each identifier once: its size, which the
    script prints as the number of unique issuers, is the number of
    distinct identifiers of the two sources together (a null identifier
    counts as one). *)
Theorem issuer_lookup_size (nissues : list (option string * option string))
    (issrcutoff : list (option string)) :
  NoDup (map fst (build_issuer_lookup nissues issrcutoff)) /\
  List.length (build_issuer_lookup nissues issrcutoff) =
  List.length
    (distinct (map fst nissues ++ map fst (map issrcutoff_row issrcutoff))).
Proof.
  rewrite build_issuer_lookup_assign.
  assert (Hnd : NoDup (map fst (assign_all (map issrcutoff_row issrcutoff)
                                           (assign_all nissues [])))).
  { apply NoDup_assign_all, NoDup_assign_all. constructor. }
  split; auto.
  rewrite <- (length_map fst).
  apply Permutation_length. apply NoDup_Permutation; auto.
  - apply distinct_NoDup.
  - intro k. rewrite distinct_In, in_app_iff, !keys_assign_all. simpl.
    tauto.
Qed.

End Lookup.

(** ** More facts about groups and joins *)

Module GroupFacts.

Section Groups.
Context {K : Type} `{EqKey K}.

(** Among distinct keys exactly one is the key of a given row. *)
Lemma one_key_matches {R} (key : R -> K) (r : R) (ks : list K) :
  NoDup ks -> In (key r) ks ->
  list_sum (map (fun k => if keqb (key r) k then 1 else 0) ks) = 1.
Proof.
  induction 1 as [|k ks Hk Hnd IH]; simpl; [intros []|].
  intros [E|Hin].
  - subst k. rewrite keqb_refl. f_equal.
    clear IH. induction ks as [|k' ks IH]; simpl; auto.
    destruct (keqb_spec (key r) k') as [E|_].
    + exfalso. apply Hk. now left.
    + apply IH.
      * intro Hin. apply Hk. now right.
      * now inversion Hnd.
  - destruct (keqb_spec (key r) k) as [E|_].
    + subst k. contradiction.
    + now apply IH.
Qed.

Lemma list_sum_map_add {A} (f g : A -> nat) (l : list A) :
  list_sum (map (fun x => f x + g x) l) =
  list_sum (map f l) + list_sum (map g l).
Proof. induction l as [|x l IH]; simpl; lia. Qed.

Lemma groups_cover {R} (key : R -> K) (df : list R) (ks : list K) :
  NoDup ks -> (forall r, In r df -> In (key r) ks) ->
  list_sum (map (fun k => List.length (filter (fun r => keqb (key r) k) df)) ks)
  = List.length df.
Proof.
  intros Hnd. induction df as [|r df IH]; intro Hks.
  - simpl. clear Hnd Hks. induction ks; simpl; auto.
  - rewrite (map_ext
      (fun k => List.length (filter (fun r0 => keqb (key r0) k) (r :: df)))
      (fun k => (if keqb (key r) k then 1 else 0) +
                List.length (filter (fun r0 => keqb (key r0) k) df))).
    + rewrite list_sum_map_add, one_key_matches, IH; auto.
      * intros x Hx. apply Hks. now right.
      * apply Hks. now left.
    + intro k. simpl. destruct (keqb (key r) k); reflexivity.
Qed.

(** The groups of a frame hold each of its rows once. *)
Lemma group_by_sizes {R} (key : R -> K) (df : list R) :
  list_sum (map (fun g => List.length (snd g)) (group_by key df))
  = List.length df.
Proof.
  unfold group_by. rewrite map_map. simpl.
  apply groups_cover.
  - apply distinct_NoDup.
  - intros r Hr. apply distinct_In. now apply in_map.
Qed.

Lemma present_keys_inv {A} (key : A -> option K) (df : list A) (k : K) :
  In k (present_keys key df) -> exists r, In r df /\ key r = Some k.
Proof.
  unfold present_keys. rewrite in_flat_map.
  intros [r [Hr Hk]]. exists r. split; auto.
  destruct (key r) as [k'|]; [|destruct Hk].
  destruct Hk as [->|[]]. reflexivity.
Qed.

Lemma NoDup_map_present_keys {A} (key : A -> option K) (df : list A) :
  NoDup (map key df) -> NoDup (present_keys key df).
Proof.
  induction df as [|x df IH]; simpl; intro Hnd; [constructor|].
  inversion Hnd as [|? ? Hx Hnd']; subst.
  unfold present_keys. simpl.
  destruct (key x) as [k|] eqn:E; simpl; [|now apply IH].
  constructor; [|now apply IH].
  intro Hin. apply present_keys_inv in Hin.
  destruct Hin as [r [Hr Kr]]. apply Hx. rewrite <- Kr. now apply in_map.
Qed.

(** A left join against a frame without repeated keys keeps the left
    frame as it is: each row once, in order. *)
Lemma left_join_one {L R} (lkey : L -> option K) (rkey : R -> option K)
    (left : list L) (right : list R) :
  at_most_one rkey right ->
  map fst (left_join lkey rkey left right) = left.
Proof.
  intro Hone. induction left as [|l left IH]; auto.
  change (left_join lkey rkey (l :: left) right)
    with ((match filter (fun r => key_match (lkey l) (rkey r)) right with
           | [] => [(l, None)]
           | ms => map (fun r => (l, Some r)) ms
           end) ++ left_join lkey rkey left right).
  rewrite map_app, IH.
  destruct (lkey l) as [k|].
  - specialize (Hone k).
    destruct (filter (fun r => key_match (Some k) (rkey r)) right)
      as [|m [|m' ms]]; simpl in *; auto; lia.
  - rewrite (filter_none (fun r => key_match None (rkey r))); auto.
Qed.

Lemma count_all_present {A B} (f : A -> option B) (l : list A) :
  (forall x, In x l -> f x <> None) -> count (map f l) = List.length l.
Proof.
  unfold count. induction l as [|x l IH]; simpl; intro Hf; auto.
  destruct (f x) eqn:E.
  - simpl. f_equal. apply IH. intros; apply Hf; now right.
  - exfalso. apply (Hf x); auto.
Qed.

Lemma list_sum_perm (l l' : list nat) :
  Permutation l l' -> list_sum l = list_sum l'.
Proof. induction 1; simpl; lia. Qed.

End Groups.

End GroupFacts.
Import GroupFacts.

(** ** The months of the flagged-transfer run *)

Module MonthFacts.
Import Flagged FlaggedFacts.

Lemma NoDup_keys_setdefault_append d m f :
  NoDup (map fst d) -> NoDup (map fst (setdefault_append d m f)).
Proof.
  induction d as [|[k fs] d IH]; simpl; intro Hnd.
  - repeat constructor. intros [].
  - inversion Hnd as [|? ? Hk Hnd']; subst.
    destruct (String.eqb_spec k m) as [->|Hne]; simpl.
    + now constructor.
    + constructor; auto. rewrite keys_setdefault_append.
      intros [E|Hin]; auto.
Qed.

Lemma NoDup_keys_add_all files d :
  NoDup (map fst d) -> NoDup (map fst (add_all files d)).
Proof.
  revert d. induction files as [|f files IH]; intros d Hnd; auto.
  unfold add_all in *. simpl. apply IH.
  now apply NoDup_keys_setdefault_append.
Qed.

Lemma compare_le_trans (a b c : string) :
  String.compare a b <> Gt -> String.compare b c <> Gt ->
  String.compare a c <> Gt.
Proof.
  intros Hab Hbc.
  destruct (String.compare a b) eqn:Eab; [| |congruence].
  - apply String_as_OT.cmp_eq in Eab. now subst.
  - destruct (String.compare b c) eqn:Ebc; [| |congruence].
    + apply String_as_OT.cmp_eq in Ebc. subst. now rewrite Eab.
    + now rewrite (compare_lt_trans _ _ _ Eab Ebc).
Qed.

Lemma sort_strings_sorted (l : list string) :
  StronglySorted (before String.compare) (sort_rows String.compare l).
Proof.
  apply sort_rows_sorted.
  - intros a b c. apply compare_le_trans.
  - intros a b Hab. unfold before. now rewrite (compare_gt_lt _ _ Hab).
Qed.

Lemma sorted_NoDup_strict (l : list string) :
  StronglySorted (before String.compare) l -> NoDup l ->
  StronglySorted (fun a b => String.compare a b = Lt) l.
Proof.
  induction 1 as [|a l Hs IH Hall]; intro Hnd; constructor.
  - apply IH. now inversion Hnd.
  - inversion Hnd as [|? ? Ha _]; subst.
    rewrite Forall_forall in *. intros b Hb.
    specialize (Hall b Hb). unfold before in Hall.
    destruct (String.compare a b) eqn:E; auto; [|congruence].
    apply String_as_OT.cmp_eq in E. subst. contradiction.
Qed.

Lemma since_201504_In (files : list source_file) (f : source_file) :
  In f (since_201504 files) <->
  In f files /\ String.leb "201504" (file_month f) = true.
Proof. apply filter_In. Qed.

End MonthFacts.

Section Months.
Import Flagged FlaggedFacts MonthFacts.

(** X8.  The months the flagged-transfer run visits are the months, from
    201504 on, of the discovered files, each once and in strictly
    increasing order; the files read for a month are the llmon1 files of
    that month followed by its llmon2 files, each list in its given
    order. *)
Theorem months_visited_in_order
    (llmon1_files llmon2_files : list source_file) :
  let by_month := files_by_month llmon1_files llmon2_files in
  StronglySorted (fun a b => String.compare a b = Lt) (months_of by_month) /\
  (forall m, In m (months_of by_month) <->
     exists f, In f (llmon1_files ++ llmon2_files) /\ file_month f = m /\
               String.leb "201504" m = true) /\
  (forall m, files_of by_month m =
     filter (fun f => String.eqb (file_month f) m)
            (since_201504 llmon1_files) ++
     filter (fun f => String.eqb (file_month f) m)
            (since_201504 llmon2_files)).
Proof.
  intro by_month. split; [|split].
  - apply sorted_NoDup_strict; [apply sort_strings_sorted|].
    unfold months_of.
    apply (Permutation_NoDup (Permutation_sym (sort_rows_perm _ _))).
    apply (NoDup_keys_add_all (considered llmon1_files llmon2_files) []).
    constructor.
  - intro m. unfold by_month. rewrite months_of_In, in_map_iff. split.
    + intros [f [Em Hf]]. exists f. unfold considered in Hf.
      apply in_app_or in Hf. rewrite !since_201504_In in Hf.
      rewrite in_app_iff. subst m. intuition.
    + intros [f [Hf [Em Hle]]]. exists f. split; auto.
      unfold considered. rewrite in_app_iff, !since_201504_In.
      rewrite in_app_iff in Hf. subst m. intuition.
  - intro m. unfold by_month. rewrite files_of_by_month.
    unfold considered. apply filter_app.
Qed.

Lemma ltb_not_leb (a b : string) :
  String.ltb a b = true -> String.leb b a = false.
Proof.
  unfold String.ltb, String.leb. rewrite (String.compare_antisym b a).
  destruct (String.compare a b); simpl; congruence.
Qed.

(** X9.  A file dated before 201504 is never scanned: wherever it stands
    in either list, and readable or not, the run ends as it does without
    it. *)
Theorem earlier_files_are_ignored cast_float64 name_map pick ties
    (before_f after_f other : list source_file) (f : source_file) :
  String.ltb (file_month f) "201504" = true ->
  main cast_float64 name_map pick ties (before_f ++ f :: after_f) other =
  main cast_float64 name_map pick ties (before_f ++ after_f) other /\
  main cast_float64 name_map pick ties other (before_f ++ f :: after_f) =
  main cast_float64 name_map pick ties other (before_f ++ after_f).
Proof.
  intro Hf. apply ltb_not_leb in Hf.
  assert (E : since_201504 (before_f ++ f :: after_f) =
              since_201504 (before_f ++ after_f)).
  { unfold since_201504. rewrite !filter_app. simpl. now rewrite Hf. }
  unfold main, files_by_month. rewrite E. auto.
Qed.

Lemma earlier_files_are_ignored_witness :
  main cast_integer [] keep_first as_given
       ([] ++ Examples.ll_file "201503" Unreadable :: [])
       [Examples.ll_file "201504" (Loans Examples.ll_self)] =
  main cast_integer [] keep_first as_given
       ([] ++ [])
       [Examples.ll_file "201504" (Loans Examples.ll_self)].
Proof.
  exact (proj2 (earlier_files_are_ignored cast_integer [] keep_first
                  as_given [] []
                  [Examples.ll_file "201504" (Loans Examples.ll_self)]
                  (Examples.ll_file "201503" Unreadable) eq_refl)).
Defined.

End Months.

(** ** The sliding window of the differencing scripts *)

Module WindowFacts.
Import Differencing DifferencingFacts.

Lemma aggregate_nil (month_curr : string) (df_prev df_curr : frame) :
  changed df_prev df_curr = [] -> aggregate month_curr df_prev df_curr = [].
Proof. unfold aggregate. intros ->. reflexivity. Qed.

Lemma concat_step (month_curr : string) (df_prev df_curr : frame) :
  List.concat (step month_curr df_prev df_curr) =
  map drop (aggregate month_curr df_prev df_curr).
Proof.
  unfold step. destruct (changed df_prev df_curr) eqn:E.
  - now rewrite aggregate_nil.
  - simpl. apply app_nil_r.
Qed.

Lemma step_nil (month_curr : string) (df_prev df_curr : frame) :
  step month_curr df_prev df_curr = [] <-> changed df_prev df_curr = [].
Proof.
  unfold step. destruct (changed df_prev df_curr); split;
    congruence || discriminate.
Qed.

Lemma concat_flat_map {A B} (f : A -> list (list B)) (l : list A) :
  List.concat (flat_map f l) = flat_map (fun x => List.concat (f x)) l.
Proof.
  induction l as [|x l IH]; simpl; auto.
  now rewrite concat_app, IH.
Qed.

(** The window passes over each pair of neighbouring files once, in
    order. *)
Lemma window_steps (rest : list monthly_file) (f0 : monthly_file)
    (df : frame) (acc : list (list transition)) :
  file_load f0 = Some df ->
  (forall f, In f rest -> file_load f <> None) ->
  window df rest acc =
  Some (acc ++ flat_map pair_step (combine (f0 :: rest) rest)).
Proof.
  revert f0 df acc.
  induction rest as [|f1 rest IH]; intros f0 df acc E0 Hrest.
  - simpl. now rewrite app_nil_r.
  - simpl window. destruct (file_load f1) as [df1|] eqn:E1.
    + rewrite (IH f1 df1) by (auto; intros; apply Hrest; now right).
      f_equal. simpl combine. simpl flat_map.
      unfold pair_step at 2. simpl fst. simpl snd. unfold loaded.
      rewrite E0, E1. now rewrite app_assoc.
    + exfalso. apply (Hrest f1); auto. now left.
Qed.

Lemma main_readable (ties : tie_order transition)
    (files : list monthly_file) :
  files <> [] -> (forall f, In f files -> file_load f <> None) ->
  main ties files =
  finish transition_month n_loans ties
         (flat_map pair_step (consecutive files)).
Proof.
  intros Hne Hall. destruct files as [|f0 rest]; [contradiction|].
  unfold main. destruct (file_load f0) as [df0|] eqn:E0.
  - rewrite (window_steps rest f0 (df := df0)); auto.
    intros f Hf. apply Hall. now right.
  - exfalso. apply (Hall f0); auto. now left.
Qed.

Lemma main_not_fatal (ties : tie_order transition)
    (files : list monthly_file) :
  main ties files <> Fatal ->
  files <> [] /\ (forall f, In f files -> file_load f <> None).
Proof.
  intro Hnf. split.
  - intros ->. apply Hnf. reflexivity.
  - intros f Hf Ef. apply Hnf. apply differencing_main_Fatal. eauto.
Qed.

Lemma concat_pair_steps (pairs : list (monthly_file * monthly_file)) :
  List.concat (flat_map pair_step pairs) = flat_map pair_rows pairs.
Proof.
  rewrite concat_flat_map. apply flat_map_ext.
  intros [f g]. apply concat_step.
Qed.

Lemma consecutive_snd (files : list monthly_file)
    (p : monthly_file * monthly_file) :
  In p (consecutive files) -> In (fst p) files /\ In (snd p) (tl files).
Proof.
  destruct p as [f g]. unfold consecutive. intro Hp. split.
  - eapply in_combine_l; eauto.
  - eapply in_combine_r; eauto.
Qed.

(** A run that writes: every file loaded, and the rows are those of the
    passes, sorted. *)
Lemma main_written (ties : tie_order transition)
    (files : list monthly_file) (rows : list transition) :
  main ties files = Written rows ->
  (forall f, In f files -> file_load f <> None) /\
  Permutation rows (flat_map pair_rows (consecutive files)) /\
  StronglySorted (in_output_order transition_month n_loans) rows.
Proof.
  intro E.
  destruct (main_not_fatal ties files) as [Hne Hall]; [congruence|].
  rewrite (main_readable ties Hne Hall) in E.
  apply finish_written in E. destruct E as [Hperm Hsorted].
  rewrite concat_pair_steps in Hperm. auto.
Qed.

(** What is known of every row of [aggregate]. *)
Lemma aggregate_row (month_curr : string) (df_prev df_curr : frame)
    (a : agg_row) :
  In a (aggregate month_curr df_prev df_curr) ->
  exists f t,
    a_servicer_from a = Some f /\ a_servicer_to a = Some t /\ f <> t /\
    1 <= a_n_loans a /\ a_transition_month a = month_curr.
Proof.
  intro Ha. apply aggregate_In in Ha.
  destruct Ha as [[k G] [seller [buyer [-> [Hg _]]]]].
  destruct (changed_groups_In _ _ _ _ Hg)
    as [_ [j [f [t [HjG [Hj [-> [Hne _]]]]]]]].
  exists f, t. simpl. repeat split; auto.
  apply changed_In in Hj.
  destruct Hj as [a [b [lid [sf [st [_ [_ [_ [_ [_ [_ [_ Ej]]]]]]]]]]]].
  apply count_pos with (v := lid). apply in_map_iff. exists j.
  split; auto. now rewrite Ej.
Qed.

End WindowFacts.

Section Window.
Import Differencing DifferencingFacts WindowFacts.

(** X10.  What a differencing run writes is what the passes over the
    pairs of neighbouring files produced: the aggregate rows of file 1
    against file 2, of file 2 against file 3 and so on, each pair once,
    nothing else and nothing lost in the sort. *)
Theorem written_rows_are_the_pair_rows (ties : tie_order transition)
    (files : list monthly_file) (rows : list transition) :
  main ties files = Written rows ->
  Permutation rows (flat_map pair_rows (consecutive files)).
Proof.
  intro E.
  destruct (main_not_fatal ties files) as [Hne Hall]; [congruence|].
  rewrite (main_readable ties Hne Hall) in E.
  apply finish_written in E. destruct E as [Hperm _].
  now rewrite concat_pair_steps in Hperm.
Qed.

Lemma written_rows_are_the_pair_rows_witness :
  exists rows,
    main reversed Examples.fu_files_three = Written rows /\
    Permutation rows (flat_map pair_rows (consecutive Examples.fu_files_three)).
Proof.
  eexists. split; [vm_compute; reflexivity|].
  apply (written_rows_are_the_pair_rows reversed Examples.fu_files_three).
  vm_compute. reflexivity.
Defined.

(** X11.  A differencing run ends at "No servicer changes detected",
    writing nothing, exactly when there is at least one file, every file
    loads, and no pair of neighbouring files has a loan whose servicer
    changed. *)
Theorem no_output_iff_no_change (ties : tie_order transition)
    (files : list monthly_file) :
  main ties files = NoOutput <->
  files <> [] /\
  (forall f, In f files -> file_load f <> None) /\
  (forall p, In p (consecutive files) -> pair_changed p = []).
Proof.
  split.
  - intro E.
    destruct (main_not_fatal ties files) as [Hne Hall]; [congruence|].
    repeat split; auto.
    rewrite (main_readable ties Hne Hall) in E.
    unfold finish in E.
    destruct (flat_map pair_step (consecutive files)) as [|r rs] eqn:F;
      [|discriminate].
    intros p Hp. unfold pair_changed.
    apply (step_nil (file_month (snd p))).
    change (pair_step p = []).
    destruct (pair_step p) as [|x xs] eqn:Ep; auto.
    assert (Hin : In x (flat_map pair_step (consecutive files))).
    { apply in_flat_map. exists p. split; auto. rewrite Ep. now left. }
    rewrite F in Hin. destruct Hin.
  - intros [Hne [Hall Hnone]].
    rewrite (main_readable ties Hne Hall).
    assert (F : flat_map pair_step (consecutive files) = []).
    { destruct (flat_map pair_step (consecutive files)) as [|x xs] eqn:F; auto.
      assert (Hin : In x (flat_map pair_step (consecutive files)))
        by (rewrite F; now left).
      apply in_flat_map in Hin. destruct Hin as [p [Hp Hx]].
      unfold pair_step in Hx.
      rewrite (proj2 (step_nil _ _ _) (Hnone p Hp)) in Hx. destruct Hx. }
    now rewrite F.
Qed.

(** X12.  Every row a differencing run writes names two present and
    different servicers (never a transition from a servicer to itself),
    counts at least one loan, and is dated with the month of the later
    file of a pair, so never with the month of the first file alone. *)
Theorem written_row_is_a_change (ties : tie_order transition)
    (files : list monthly_file) (rows : list transition) (row : transition) :
  main ties files = Written rows -> In row rows ->
  (exists f t, servicer_from row = Some f /\ servicer_to row = Some t /\
               f <> t) /\
  1 <= n_loans row /\
  (exists later, In later (tl files) /\
                 transition_month row = file_month later).
Proof.
  intros E Hrow.
  apply main_written in E. destruct E as [_ [E _]].
  apply (Permutation_in _ E) in Hrow.
  apply in_flat_map in Hrow. destruct Hrow as [p [Hp Hrow]].
  unfold pair_rows in Hrow. apply in_map_iff in Hrow.
  destruct Hrow as [a [<- Ha]].
  destruct (aggregate_row _ _ _ _ Ha) as [f [t [Ef [Et [Hne [Hn Em]]]]]].
  simpl. split; [eauto|]. split; auto.
  exists (snd p). split; auto.
  now apply consecutive_snd in Hp.
Qed.

Lemma written_row_is_a_change_witness :
  exists row,
    main as_given Examples.fu_files = Written [row] /\
    1 <= n_loans row /\
    exists later, In later (tl Examples.fu_files) /\
                  transition_month row = file_month later.
Proof.
  eexists. split; [vm_compute; reflexivity|].
  refine (proj2 (written_row_is_a_change as_given Examples.fu_files _ _ _)).
  - vm_compute. reflexivity.
  - left. reflexivity.
Defined.

End Window.

(** ** Counting the loans of the differencing scripts *)

Module CountFacts.
Import Differencing DifferencingFacts WindowFacts.

Lemma totals_at_most_one (df : frame) :
  at_most_one t_servicer (servicer_totals df).
Proof.
  apply NoDup_at_most_one. apply NoDup_map_present_keys.
  unfold servicer_totals. rewrite map_map. simpl.
  change (NoDup (map fst (group_by servicer_name df))).
  apply group_by_NoDup.
Qed.

(** The two left joins add columns to the groups and neither drop nor
    repeat a group. *)
Lemma aggregate_groups {T} (h : group_key * list joined_row -> T)
    (col : agg_row -> T) (month_curr : string) (df_prev df_curr : frame) :
  (forall g seller buyer,
     col (with_fractions month_curr (g, seller, buyer)) = h g) ->
  map col (aggregate month_curr df_prev df_curr) =
  map h (changed_groups (changed df_prev df_curr)).
Proof.
  intro Hcol. unfold aggregate. rewrite map_map.
  rewrite (map_ext _ (fun row => h (fst (fst row))))
    by (intros [[g seller] buyer]; apply Hcol).
  rewrite <- (map_map (fun row => fst (fst row)) h).
  rewrite <- (map_map fst fst).
  rewrite (left_join_one _ _ (totals_at_most_one df_curr)).
  rewrite (left_join_one _ _ (totals_at_most_one df_prev)).
  reflexivity.
Qed.

Lemma changed_identifier (df_prev df_curr : frame) (j : joined_row) :
  In j (changed df_prev df_curr) -> j_loan_identifier j <> None.
Proof.
  intro Hj. apply changed_In in Hj.
  destruct Hj as [a [b [lid [sf [st [_ [_ [_ [_ [_ [_ [_ ->]]]]]]]]]]]].
  discriminate.
Qed.

(** The loan counts of the aggregate rows of a pair add up to the number
    of its changed loans. *)
Lemma aggregate_n_loans (month_curr : string) (df_prev df_curr : frame) :
  list_sum (map a_n_loans (aggregate month_curr df_prev df_curr)) =
  List.length (changed df_prev df_curr).
Proof.
  rewrite (aggregate_groups
             (fun g => count (map j_loan_identifier (snd g))) a_n_loans)
    by reflexivity.
  unfold changed_groups.
  rewrite <- (group_by_sizes
                (fun j => (j_servicer_from j, j_servicer_to j))
                (changed df_prev df_curr)).
  f_equal. apply map_ext_in. intros [k g] Hg. simpl.
  apply count_all_present. intros j Hj.
  apply group_by_In in Hg. destruct Hg as [_ ->].
  apply filter_In in Hj. destruct Hj as [Hj _].
  now apply changed_identifier in Hj.
Qed.

Lemma list_sum_flat_map {A} (f : A -> list nat) (l : list A) :
  list_sum (flat_map f l) = list_sum (map (fun x => list_sum (f x)) l).
Proof.
  induction l as [|x l IH]; simpl; auto.
  now rewrite list_sum_app, IH.
Qed.

Lemma map_flat_map {A B C} (g : B -> C) (f : A -> list B) (l : list A) :
  map g (flat_map f l) = flat_map (fun x => map g (f x)) l.
Proof.
  induction l as [|x l IH]; simpl; auto.
  now rewrite map_app, IH.
Qed.

Lemma short_list_one (A : Type) (l : list A) (a b : A) :
  List.length l <= 1 -> In a l -> In b l -> a = b.
Proof.
  destruct l as [|x [|y l]]; simpl.
  - intros _ [].
  - intros _ [<-|[]] [<-|[]]. reflexivity.
  - intro H. exfalso. lia.
Qed.

Lemma unique_identifier_one (df : frame) (a b : loan) (lid : string) :
  Vocabulary.unique_loan_identifiers df ->
  In a df -> In b df ->
  loan_identifier a = Some lid -> loan_identifier b = Some lid -> a = b.
Proof.
  intros U Ha Hb Ea Eb. apply NoDup_at_most_one in U.
  apply (short_list_one _ _ _ (U lid)); apply filter_In; split; auto.
  - rewrite Ea. apply key_match_true. eauto.
  - rewrite Eb. apply key_match_true. eauto.
Qed.

Lemma ne_col_sym (a b : option string) : ne_col a b = ne_col b a.
Proof.
  destruct a as [a|], b as [b|]; simpl; auto.
  now rewrite String.eqb_sym.
Qed.

Lemma changed_as_pairs (df_prev df_curr : frame) :
  changed df_prev df_curr =
  map Vocabulary.as_joined
      (filter (fun p => holds (ne_col (servicer_name (fst p))
                                      (servicer_name (snd p))))
              (inner_join loan_identifier loan_identifier df_prev df_curr)).
Proof.
  unfold changed, joined.
  change (fun p : loan * loan =>
            {| j_loan_identifier := loan_identifier (fst p);
               j_servicer_from := servicer_name (fst p);
               j_upb_from := current_upb (fst p);
               j_servicer_to := servicer_name (snd p);
               j_upb_to := current_upb (snd p) |})
    with Vocabulary.as_joined.
  apply (filter_map_swap
           (fun j => holds (ne_col (j_servicer_from j) (j_servicer_to j)))
           Vocabulary.as_joined).
Qed.

End CountFacts.

Section Counts.
Import Differencing DifferencingFacts WindowFacts CountFacts.

(** X13.  For one pair of files the aggregate has exactly one row for each
    pair (servicer_from, servicer_to) that occurs among the changed
    loans, in whatever order the groups come out: no pair is repeated,
    none is missing and none is added, because the two left joins with
    the servicer totals neither drop nor repeat a group. *)
Theorem one_row_per_servicer_pair (month_curr : string)
    (df_prev df_curr : frame) :
  NoDup (map (fun a => (a_servicer_from a, a_servicer_to a))
             (aggregate month_curr df_prev df_curr)) /\
  (forall pair,
     In pair (map (fun a => (a_servicer_from a, a_servicer_to a))
                  (aggregate month_curr df_prev df_curr)) <->
     In pair (map (fun j => (j_servicer_from j, j_servicer_to j))
                  (changed df_prev df_curr))).
Proof.
  assert (E : map (fun a => (a_servicer_from a, a_servicer_to a))
                  (aggregate month_curr df_prev df_curr) =
              map fst (changed_groups (changed df_prev df_curr))).
  { rewrite (aggregate_groups (fun g => (fst (fst g), snd (fst g)))
               (fun a => (a_servicer_from a, a_servicer_to a)))
      by reflexivity.
    apply map_ext. now intros [[f t] g]. }
  rewrite E. unfold changed_groups. split.
  - apply group_by_NoDup.
  - intro pair. rewrite group_by_keys. apply distinct_In.
Qed.

(** X14.  The "Total loan-level servicer changes" of a differencing run, the sum of
    [n_loans] over the written rows, is the number of matched loans whose
    servicer differs, added over the pairs of neighbouring files: every
    changed loan is counted in exactly one row. *)
Theorem total_loans_is_changed_loans (ties : tie_order transition)
    (files : list monthly_file) (rows : list transition) :
  main ties files = Written rows ->
  Report.total_n_loans n_loans rows =
  list_sum (map (fun p => List.length (pair_changed p)) (consecutive files)).
Proof.
  intro E.
  destruct (main_not_fatal ties files) as [Hne Hall]; [congruence|].
  rewrite (main_readable ties Hne Hall) in E.
  apply finish_written in E. destruct E as [Hperm _].
  rewrite concat_pair_steps in Hperm.
  unfold Report.total_n_loans.
  rewrite (list_sum_perm (Permutation_map n_loans Hperm)).
  rewrite map_flat_map, list_sum_flat_map.
  f_equal. apply map_ext. intro p.
  unfold pair_rows, pair_changed. rewrite map_map.
  change (fun x => n_loans (drop x)) with a_n_loans.
  apply aggregate_n_loans.
Qed.

Lemma total_loans_is_changed_loans_witness :
  exists rows,
    main reversed Examples.fu_files_three = Written rows /\
    Report.total_n_loans n_loans rows =
    list_sum (map (fun p => List.length (pair_changed p))
                  (consecutive Examples.fu_files_three)).
Proof.
  eexists. split; [vm_compute; reflexivity|].
  apply (total_loans_is_changed_loans reversed Examples.fu_files_three).
  vm_compute. reflexivity.
Defined.

(** X15.  Comparing two months in the other direction finds the same
    changed loans with seller and buyer exchanged: the loans that changed
    servicer from [df_prev] to [df_curr] are, read backwards, the loans
    that changed servicer from [df_curr] to [df_prev]. *)
Theorem changed_is_symmetric (df_prev df_curr : frame) :
  Permutation (map reverse_row (changed df_prev df_curr))
              (changed df_curr df_prev).
Proof.
  rewrite !changed_as_pairs. rewrite map_map.
  set (sel := fun p : loan * loan =>
                holds (ne_col (servicer_name (fst p))
                              (servicer_name (snd p)))).
  rewrite (map_ext_in _ (fun p => Vocabulary.as_joined (swap p))).
  2:{ intros [a b] Hp. apply filter_In in Hp. destruct Hp as [Hp _].
      apply inner_join_In in Hp. destruct Hp as [_ [_ Hm]].
      apply key_match_true in Hm. destruct Hm as [k [Ea Eb]].
      unfold reverse_row, Vocabulary.as_joined, swap. simpl. congruence. }
  rewrite <- (map_map swap Vocabulary.as_joined).
  apply Permutation_map.
  rewrite (filter_ext sel (fun p => sel (swap p)))
    by (intros [a b]; unfold sel, swap; simpl; now rewrite ne_col_sym).
  rewrite <- filter_map_swap.
  apply filter_perm. apply inner_join_swap.
Qed.

(** X16.  A month compared with itself shows no servicer change when its
    loan identifiers are unique; in particular no row can then be written
    for that pair. *)
Theorem unchanged_against_itself (month_curr : string) (df : frame) :
  Vocabulary.unique_loan_identifiers df ->
  changed df df = [] /\ step month_curr df df = [].
Proof.
  intro U.
  assert (E : changed df df = []).
  { destruct (changed df df) as [|j js] eqn:C; auto.
    assert (Hj : In j (changed df df)) by (rewrite C; now left).
    apply changed_In in Hj.
    destruct Hj as [a [b [lid [sf [st [Ha [Hb [Ea [Eb [Sa [Sb [Hne _]]]]]]]]]]]].
    assert (a = b) by (eapply unique_identifier_one; eauto).
    subst b. congruence. }
  split; auto. now apply step_nil.
Qed.

Lemma unchanged_against_itself_witness :
  changed Examples.fu_201906 Examples.fu_201906 = [] /\
  step "201906" Examples.fu_201906 Examples.fu_201906 = [].
Proof.
  apply (unchanged_against_itself "201906" (df := Examples.fu_201906)).
  unfold Vocabulary.unique_loan_identifiers. vm_compute.
  repeat constructor; simpl; intuition discriminate.
Defined.

End Counts.

(** ** The month loop of the flagged-transfer script *)

Module FlowFacts.
Import Flagged FlaggedFacts.

Section Flow.
Variable cast_float64 : string -> option f64.
Variable name_map : dict.
Variable pick : frame -> nat.

Lemma flagged_aggregate_nil (month : string) (df : frame) :
  transfers df = [] -> aggregate cast_float64 month df = [].
Proof. unfold aggregate. intros ->. reflexivity. Qed.

Lemma concat_reconcile (month : string) (df : frame) :
  List.concat (reconcile cast_float64 name_map month df) =
  map (resolve name_map) (aggregate cast_float64 month df).
Proof.
  unfold reconcile. destruct (transfers df) eqn:E.
  - now rewrite flagged_aggregate_nil.
  - simpl. apply app_nil_r.
Qed.

(** The loop appends, month after month, what [reconcile] gives for the
    frame of the month. *)
Lemma process_steps (by_month : list (string * list source_file))
    (months : list string) (acc res : list (list transition)) :
  process cast_float64 name_map pick by_month months acc = Some res ->
  res = acc ++
        flat_map (fun m => reconcile cast_float64 name_map m
                             (month_frame pick by_month m)) months.
Proof.
  revert acc. induction months as [|m months IH]; intros acc E.
  - simpl in *. rewrite app_nil_r. congruence.
  - simpl in E. simpl flat_map. unfold month_frame at 1.
    destruct (month_frames (files_of by_month m)) as [frames|];
      [|discriminate].
    destruct (df_month_of pick frames) as [df_month|]; [|discriminate].
    rewrite (IH _ E). now rewrite app_assoc.
Qed.

Lemma issuer_totals_at_most_one (df : frame) :
  at_most_one t_issuer (servicer_totals cast_float64 df).
Proof.
  apply NoDup_at_most_one. apply NoDup_map_present_keys.
  unfold servicer_totals. rewrite map_map. simpl.
  change (NoDup (map fst (group_by issuer_id df))).
  apply group_by_NoDup.
Qed.

Lemma seller_book_sellers (df : frame) :
  map b_seller (seller_book cast_float64 df) =
  map fst (group_by seller_issuer_id (transfers df)).
Proof.
  unfold seller_book. rewrite map_map.
  rewrite (map_ext _ (fun row => fst (fst row)))
    by (now intros [g remain]).
  rewrite <- (map_map fst fst).
  now rewrite (left_join_one _ _ (issuer_totals_at_most_one df)).
Qed.

Lemma seller_book_at_most_one (df : frame) :
  at_most_one b_seller (seller_book cast_float64 df).
Proof.
  apply NoDup_at_most_one. apply NoDup_map_present_keys.
  rewrite seller_book_sellers. apply group_by_NoDup.
Qed.

(** The two left joins add columns to the groups and neither drop nor
    repeat a group. *)
Lemma flagged_aggregate_groups {T} (h : group_key * frame -> T)
    (col : agg_row -> T) (month : string) (df : frame) :
  (forall g buyer seller,
     col (with_fractions cast_float64 month (g, buyer, seller)) = h g) ->
  map col (aggregate cast_float64 month df) =
  map h (transfer_groups (transfers df)).
Proof.
  intro Hcol. unfold aggregate. rewrite map_map.
  rewrite (map_ext _ (fun row => h (fst (fst row))))
    by (intros [[g buyer] seller]; apply Hcol).
  rewrite <- (map_map (fun row => fst (fst row)) h).
  rewrite <- (map_map fst fst).
  rewrite (left_join_one _ _ (seller_book_at_most_one df)).
  rewrite (left_join_one _ _ (issuer_totals_at_most_one df)).
  reflexivity.
Qed.

Lemma flagged_aggregate_n_loans (month : string) (df : frame) :
  list_sum (map a_n_loans (aggregate cast_float64 month df)) =
  List.length (transfers df).
Proof.
  rewrite (flagged_aggregate_groups (fun g => List.length (snd g)) a_n_loans)
    by reflexivity.
  apply (group_by_sizes (fun r => (seller_issuer_id r, issuer_id r))).
Qed.

(** What is known of every row of [aggregate]. *)
Lemma flagged_aggregate_row (month : string) (df : frame) (a : agg_row) :
  In a (aggregate cast_float64 month df) ->
  exists s,
    a_seller a = Some s /\ strip_chars s <> ""%string /\
    1 <= a_n_loans a /\ a_transition_month a = month /\
    In (a_issuer a) (map issuer_id df).
Proof.
  intro Ha. apply flagged_aggregate_In in Ha.
  destruct Ha as [[k g] [buyer [seller [-> Hin]]]].
  apply left_join_left in Hin. apply left_join_left in Hin.
  destruct (transfer_groups_In _ _ _ Hin) as [Eg [r [s [Hr [Hp [Es ->]]]]]].
  exists s. simpl. repeat split; auto.
  - unfold seller_populated in Hp. rewrite Es in Hp.
    intro E. rewrite E in Hp. discriminate.
  - assert (Hg : In r g).
    { rewrite Eg. apply filter_In. split.
      - apply transfers_In. auto.
      - rewrite Es. apply keqb_refl. }
    destruct g; [destruct Hg|simpl; lia].
  - now apply in_map.
Qed.

(** A run that writes: the rows are those of the months, sorted. *)
Lemma flagged_main_written (ties : tie_order transition)
    (llmon1_files llmon2_files : list source_file)
    (rows : list transition) :
  main cast_float64 name_map pick ties llmon1_files llmon2_files
    = Written rows ->
  Permutation rows
    (flat_map (month_rows cast_float64 name_map pick
                 (files_by_month llmon1_files llmon2_files))
              (months_of (files_by_month llmon1_files llmon2_files))) /\
  StronglySorted (in_output_order transition_month n_loans) rows.
Proof.
  intros E. unfold main in E.
  set (by_month := files_by_month llmon1_files llmon2_files) in *.
  destruct (months_of by_month) as [|m ms] eqn:M; [discriminate|].
  destruct (process cast_float64 name_map pick by_month (m :: ms) [])
    as [all_results|] eqn:P; [|discriminate].
  apply finish_written in E. destruct E as [Hperm Hsorted].
  apply process_steps in P. cbn [app] in P. rewrite P in Hperm.
  rewrite WindowFacts.concat_flat_map in Hperm.
  rewrite (flat_map_ext _ (month_rows cast_float64 name_map pick by_month))
    in Hperm; auto.
  intro a. apply concat_reconcile.
Qed.

(** [issuer_name] returns null only for a name stored as null. *)
Lemma name_is_null (iid : string) :
  issuer_name name_map iid = None <->
  dict_get name_map (Some iid) = Some None.
Proof.
  unfold issuer_name.
  destruct (dict_get name_map (Some iid)) as [[name|]|]; split;
    congruence || discriminate.
Qed.

End Flow.

End FlowFacts.

Section Flow.
Import Flagged FlaggedFacts FlowFacts WindowFacts CountFacts.
Variable cast_float64 : string -> option f64.
Variable name_map : dict.
Variable pick : frame -> nat.

(** X17.  What a flagged-transfer run writes is what the months produced:
    for each visited month the aggregate rows of the month's merged and
    deduplicated frame, with the names resolved, each month once, nothing
    else and nothing lost in the sort. *)
Theorem flagged_rows_are_the_month_rows (ties : tie_order transition)
    (llmon1_files llmon2_files : list source_file)
    (rows : list transition) :
  main cast_float64 name_map pick ties llmon1_files llmon2_files
    = Written rows ->
  let by_month := files_by_month llmon1_files llmon2_files in
  Permutation rows
    (flat_map (month_rows cast_float64 name_map pick by_month)
              (months_of by_month)).
Proof.
  intros E by_month. unfold main in E. fold by_month in E.
  destruct (months_of by_month) as [|m ms] eqn:M; [discriminate|].
  destruct (process cast_float64 name_map pick by_month (m :: ms) [])
    as [all_results|] eqn:P; [|discriminate].
  apply finish_written in E. destruct E as [Hperm _].
  apply process_steps in P. cbn [app] in P. rewrite P in Hperm.
  rewrite concat_flat_map in Hperm.
  rewrite (flat_map_ext _ (month_rows cast_float64 name_map pick by_month))
    in Hperm; auto.
  intro a. apply concat_reconcile.
Qed.

(** X18.  The "Total loan-level transfers" of a flagged-transfer run, the
    sum of [n_loans] over the written rows, is the number of loans with a
    populated prior servicer in the deduplicated frames of the visited
    months: every such loan is counted in exactly one row. *)
Theorem total_transfers_is_flagged_loans (ties : tie_order transition)
    (llmon1_files llmon2_files : list source_file)
    (rows : list transition) :
  main cast_float64 name_map pick ties llmon1_files llmon2_files
    = Written rows ->
  let by_month := files_by_month llmon1_files llmon2_files in
  Report.total_n_loans n_loans rows =
  list_sum (map (fun m => List.length (month_transfers pick by_month m))
                (months_of by_month)).
Proof.
  intros E by_month. unfold main in E. fold by_month in E.
  destruct (months_of by_month) as [|m ms] eqn:M; [discriminate|].
  destruct (process cast_float64 name_map pick by_month (m :: ms) [])
    as [all_results|] eqn:P; [|discriminate].
  apply finish_written in E. destruct E as [Hperm _].
  apply process_steps in P. cbn [app] in P. rewrite P in Hperm.
  rewrite concat_flat_map in Hperm.
  unfold Report.total_n_loans.
  rewrite (list_sum_perm (Permutation_map n_loans Hperm)).
  rewrite map_flat_map, list_sum_flat_map.
  f_equal. apply map_ext. intro m'.
  rewrite concat_reconcile, map_map.
  change (fun x => n_loans (resolve name_map x)) with a_n_loans.
  apply flagged_aggregate_n_loans.
Qed.

(** X19.  For one month the aggregate has exactly one row for each pair
    (prior servicer, issuer) that occurs among the flagged loans, in
    whatever order the groups come out: no pair is repeated, none is
    missing and none is added, because the left joins with the issuer
    totals and with the seller book neither drop nor repeat a group. *)
Theorem one_row_per_seller_issuer_pair (month : string) (df_month : frame) :
  NoDup (map (fun a => (a_seller a, a_issuer a))
             (aggregate cast_float64 month df_month)) /\
  (forall pair,
     In pair (map (fun a => (a_seller a, a_issuer a))
                  (aggregate cast_float64 month df_month)) <->
     In pair (map (fun r => (seller_issuer_id r, issuer_id r))
                  (transfers df_month))).
Proof.
  assert (E : map (fun a => (a_seller a, a_issuer a))
                  (aggregate cast_float64 month df_month) =
              map fst (transfer_groups (transfers df_month))).
  { rewrite (flagged_aggregate_groups cast_float64
               (fun g => (fst (fst g), snd (fst g)))
               (fun a => (a_seller a, a_issuer a)))
      by reflexivity.
    apply map_ext. now intros [[f t] g]. }
  rewrite E. unfold transfer_groups. split.
  - apply group_by_NoDup.
  - intro pair.
    rewrite (group_by_keys (fun r => (seller_issuer_id r, issuer_id r))).
    apply distinct_In.
Qed.

(** X20.  Every row a flagged-transfer run writes has a prior-servicer
    identifier that is present and not blank.  Its [servicer_from] is what
    the lookup returns for that identifier, and is null exactly when the
    lookup stores a null name for it; its [servicer_to] is what the lookup
    returns for the issuer identifier, and is null when that identifier
    is.  The row counts at least one loan and is dated with a month of a
    discovered file that is not before 201504. *)
Theorem written_row_is_a_flagged_transfer (ties : tie_order transition)
    (llmon1_files llmon2_files : list source_file)
    (rows : list transition) (row : transition) :
  main cast_float64 name_map pick ties llmon1_files llmon2_files
    = Written rows ->
  In row rows ->
  (exists s, out_seller_issuer_id row = Some s /\
             strip_chars s <> ""%string /\
             servicer_from row = issuer_name name_map s /\
             (servicer_from row = None <->
              dict_get name_map (Some s) = Some None)) /\
  servicer_to row =
    match out_issuer_id row with
    | Some i => issuer_name name_map i
    | None => None
    end /\
  1 <= n_loans row /\
  String.leb "201504" (transition_month row) = true /\
  (exists f, In f (llmon1_files ++ llmon2_files) /\
             file_month f = transition_month row).
Proof.
  intros E Hrow.
  apply flagged_main_written in E. destruct E as [E _].
  apply (Permutation_in _ E) in Hrow.
  apply in_flat_map in Hrow. destruct Hrow as [m [Hm Hrow]].
  unfold month_rows in Hrow. apply in_map_iff in Hrow.
  destruct Hrow as [a [<- Ha]].
  destruct (flagged_aggregate_row _ _ _ _ Ha)
    as [s [Es [Hs [Hn [Em _]]]]].
  cbn [resolve out_seller_issuer_id servicer_from out_issuer_id servicer_to
       n_loans transition_month].
  rewrite Em.
  apply months_of_In in Hm. apply in_map_iff in Hm.
  destruct Hm as [f [Ef Hf]]. unfold considered in Hf.
  assert (Hf' : In f (llmon1_files ++ llmon2_files) /\
                String.leb "201504" (file_month f) = true).
  { rewrite in_app_iff in *. unfold since_201504 in Hf.
    rewrite !filter_In in Hf. destruct Hf as [[? ?]|[? ?]]; auto. }
  destruct Hf' as [Hin Hle].
  split; [|split; [|split; [|split]]]; auto.
  - exists s. rewrite Es. cbn [resolve_name].
    repeat split; auto.
    + apply name_is_null.
    + apply name_is_null.
  - now rewrite <- Ef.
  - exists f. auto.
Qed.

End Flow.

Lemma flagged_rows_are_the_month_rows_witness :
  exists rows,
    Flagged.main Flagged.cast_integer Examples.ll_names keep_first as_given
      [Examples.ll_file "201504" (Flagged.Loans Examples.ll_201504)]
      [Examples.ll_file "201505" (Flagged.Loans Examples.ll_tie)]
      = Written rows /\
    Permutation rows
      (flat_map
         (month_rows Flagged.cast_integer Examples.ll_names keep_first
            (Flagged.files_by_month
               [Examples.ll_file "201504" (Flagged.Loans Examples.ll_201504)]
               [Examples.ll_file "201505" (Flagged.Loans Examples.ll_tie)]))
         (Flagged.months_of
            (Flagged.files_by_month
               [Examples.ll_file "201504" (Flagged.Loans Examples.ll_201504)]
               [Examples.ll_file "201505" (Flagged.Loans Examples.ll_tie)]))).
Proof.
  eexists. split; [vm_compute; reflexivity|].
  apply (flagged_rows_are_the_month_rows Flagged.cast_integer
           Examples.ll_names keep_first as_given
           [Examples.ll_file "201504" (Flagged.Loans Examples.ll_201504)]
           [Examples.ll_file "201505" (Flagged.Loans Examples.ll_tie)]).
  vm_compute. reflexivity.
Defined.

Lemma total_transfers_is_flagged_loans_witness :
  exists rows,
    Flagged.main Flagged.cast_integer Examples.ll_names keep_first as_given
      [Examples.ll_file "201504" (Flagged.Loans Examples.ll_201504)]
      [Examples.ll_file "201505" (Flagged.Loans Examples.ll_tie)]
      = Written rows /\
    Report.total_n_loans Flagged.n_loans rows = 3.
Proof.
  eexists. split; [vm_compute; reflexivity|].
  rewrite (total_transfers_is_flagged_loans Flagged.cast_integer
             Examples.ll_names keep_first as_given
             [Examples.ll_file "201504" (Flagged.Loans Examples.ll_201504)]
             [Examples.ll_file "201505" (Flagged.Loans Examples.ll_tie)]).
  - vm_compute. reflexivity.
  - vm_compute. reflexivity.
Defined.

Lemma written_row_is_a_flagged_transfer_witness :
  exists row,
    Flagged.main Flagged.cast_integer Examples.ll_names keep_first as_given
      [Examples.ll_file "201504" (Flagged.Loans Examples.ll_201504)] []
      = Written [row] /\
    Flagged.servicer_from row = Some "X SERVICING"%string /\
    1 <= Flagged.n_loans row.
Proof.
  eexists. split; [vm_compute; reflexivity|].
  match goal with
  | |- _ /\ 1 <= Flagged.n_loans ?r =>
      destruct (written_row_is_a_flagged_transfer Flagged.cast_integer
                  Examples.ll_names keep_first as_given
                  [Examples.ll_file "201504"
                     (Flagged.Loans Examples.ll_201504)] []
                  (rows := [r]) r)
        as [_ [_ [Hn _]]]
  end.
  - vm_compute. reflexivity.
  - left. reflexivity.
  - split; [vm_compute; reflexivity | exact Hn].
Defined.

(** ** The summary and the top-20 listing *)

Module ReportFacts.
Import Report.

Lemma StronglySorted_app_inv {A} (P : A -> A -> Prop) (l1 l2 : list A) :
  StronglySorted P (l1 ++ l2) ->
  StronglySorted P l1 /\ forall a b, In a l1 -> In b l2 -> P a b.
Proof.
  induction l1 as [|x l1 IH]; simpl; intro H.
  - split; [constructor|intros a b []].
  - inversion H as [|? ? Hs Hall]; subst.
    destruct (IH Hs) as [Hs1 Hcross]. rewrite Forall_forall in Hall. split.
    + constructor; auto. apply Forall_forall. intros y Hy.
      apply Hall. apply in_or_app. now left.
    + intros a b [<-|Ha] Hb; auto.
      apply Hall. apply in_or_app. now right.
Qed.

Lemma StronglySorted_impl {A} (P Q : A -> A -> Prop) (l : list A) :
  (forall a b, P a b -> Q a b) ->
  StronglySorted P l -> StronglySorted Q l.
Proof.
  intros HPQ. induction 1 as [|x l Hs IH Hall]; constructor; auto.
  eapply Forall_impl; [|exact Hall]. auto.
Qed.

Section Top.
Variable R : Type.
Variable n_loans_of : R -> nat.

Lemma by_n_loans_before (a b : R) :
  before (order_by
            [(fun a b => Nat.compare (n_loans_of a) (n_loans_of b), true)])
         a b <->
  n_loans_of b <= n_loans_of a.
Proof.
  unfold before. simpl.
  destruct (Nat.compare_spec (n_loans_of a) (n_loans_of b)); simpl; split;
    intros; try lia; try congruence.
Qed.

Lemma by_n_loans_sorted (l : list R) :
  StronglySorted (fun a b => n_loans_of b <= n_loans_of a)
    (sort_rows
       (order_by
          [(fun a b => Nat.compare (n_loans_of a) (n_loans_of b), true)])
       l).
Proof.
  apply StronglySorted_impl
    with (P := before
                 (order_by
                    [(fun a b => Nat.compare (n_loans_of a) (n_loans_of b),
                      true)])).
  - intros a b. apply by_n_loans_before.
  - apply SortFacts.sort_rows_sorted.
    + intros a b c. rewrite !by_n_loans_before. lia.
    + intros a b Hab. apply by_n_loans_before.
      simpl in Hab.
      destruct (Nat.compare_spec (n_loans_of a) (n_loans_of b));
        simpl in Hab; try discriminate; lia.
Qed.

(** The shown rows and the rows left out. *)
Lemma top20_split (ties : tie_order R) (combined : list R) :
  StronglySorted (fun a b => n_loans_of b <= n_loans_of a)
                 (top20 n_loans_of ties combined) /\
  exists rest,
    Permutation combined (top20 n_loans_of ties combined ++ rest) /\
    forall r c, In r (top20 n_loans_of ties combined) -> In c rest ->
                n_loans_of c <= n_loans_of r.
Proof.
  unfold top20.
  set (sorted := sort_rows
                   (order_by
                      [(fun a b => Nat.compare (n_loans_of a) (n_loans_of b),
                        true)])
                   (ties combined)).
  assert (Hperm : Permutation sorted combined).
  { unfold sorted. rewrite SortFacts.sort_rows_perm. apply shuffle_perm. }
  assert (Hs : StronglySorted (fun a b => n_loans_of b <= n_loans_of a)
                 (firstn 20 sorted ++ skipn 20 sorted)).
  { rewrite firstn_skipn. apply by_n_loans_sorted. }
  apply StronglySorted_app_inv in Hs. destruct Hs as [Hs Hcross].
  split; auto.
  exists (skipn 20 sorted). split; auto.
  rewrite firstn_skipn. now apply Permutation_sym.
Qed.

Lemma top20_length (ties : tie_order R) (combined : list R) :
  List.length (top20 n_loans_of ties combined) =
  Nat.min 20 (List.length combined).
Proof.
  unfold top20. rewrite length_firstn. f_equal.
  rewrite (Permutation_length (SortFacts.sort_rows_perm _ _)).
  apply Permutation_length. apply shuffle_perm.
Qed.

Lemma top20_In (ties : tie_order R) (combined : list R) (r : R) :
  In r (top20 n_loans_of ties combined) -> In r combined.
Proof.
  intro Hr. destruct (top20_split ties combined) as [_ [rest [Hperm _]]].
  apply (Permutation_in _ (Permutation_sym Hperm)).
  apply in_or_app. now left.
Qed.

End Top.

Lemma listing_None {R} (line_of : R -> option line) (top : list R) :
  listing line_of top = None <->
  exists row, In row top /\ line_of row = None.
Proof.
  induction top as [|row top IH]; simpl.
  - split; [discriminate|intros [? [[] _]]].
  - destruct (line_of row) as [l|] eqn:E.
    + destruct (listing line_of top) as [ls|].
      * split; [discriminate|].
        intros [r [[<-|Hr] Er]]; [congruence|].
        assert (C : Some ls = None) by (apply IH; eauto).
        discriminate.
      * split; auto. intros _.
        destruct (proj1 IH eq_refl) as [r [Hr Er]]. eauto.
    + split; auto. intros _. eauto.
Qed.

Lemma listing_Some {R} (line_of : R -> option line) (top : list R)
    (lines : list line) :
  listing line_of top = Some lines -> map line_of top = map Some lines.
Proof.
  revert lines. induction top as [|row top IH]; simpl; intros lines E.
  - inversion E. reflexivity.
  - destruct (line_of row) as [l|]; [|discriminate].
    destruct (listing line_of top) as [ls|]; [|discriminate].
    inversion E; subst. simpl. f_equal. now apply IH.
Qed.

Lemma pct_range (n_part n_all : nat) :
  n_part <= n_all -> (0 <= pct n_part n_all /\ pct n_part n_all <= 100)%Q.
Proof.
  intro Hle. unfold pct. destruct (Nat.ltb_spec 0 n_all) as [Hpos|_].
  - assert (Hd : (0 < inject_Z (Z.of_nat n_all))%Q).
    { change 0%Q with (inject_Z 0). rewrite <- Zlt_Qlt. lia. }
    assert (Hn : (0 <= inject_Z (Z.of_nat n_part))%Q).
    { change 0%Q with (inject_Z 0). rewrite <- Zle_Qle. lia. }
    assert (Hnd : (inject_Z (Z.of_nat n_part) <= inject_Z (Z.of_nat n_all))%Q).
    { rewrite <- Zle_Qle. lia. }
    assert (H0 : (0 <= inject_Z (Z.of_nat n_part) / inject_Z (Z.of_nat n_all))%Q).
    { apply Qle_shift_div_l; auto; lra. }
    assert (H1 : (inject_Z (Z.of_nat n_part) / inject_Z (Z.of_nat n_all) <= 1)%Q).
    { apply Qle_shift_div_r; auto; lra. }
    split; lra.
  - split; lra.
Qed.

Lemma pct_zero (n_part n_all : nat) :
  n_part <= n_all -> (pct n_part n_all == 0)%Q <-> n_part = 0.
Proof.
  intro Hle. unfold pct. destruct (Nat.ltb_spec 0 n_all) as [Hpos|Hz].
  - assert (Hd : (0 < inject_Z (Z.of_nat n_all))%Q).
    { change 0%Q with (inject_Z 0). rewrite <- Zlt_Qlt. lia. }
    split.
    + intro E.
      assert (En : (inject_Z (Z.of_nat n_part) ==
                    inject_Z (Z.of_nat n_part) / inject_Z (Z.of_nat n_all)
                    * 100 * (inject_Z (Z.of_nat n_all) / 100))%Q).
      { field. lra. }
      rewrite E in En. rewrite Qmult_0_l in En.
      unfold Qeq in En. simpl in En. lia.
    + intros ->. simpl. unfold Qdiv. now rewrite !Qmult_0_l.
  - split; [lia|reflexivity].
Qed.

Section FlaggedPresence.
Import Flagged FlaggedFacts FlowFacts.
Variable cast_float64 : string -> option f64.

(** The seller of a row is always found in the seller book; the buyer is
    found in the issuer totals exactly when the issuer identifier is not
    null. *)
Lemma flagged_fraction_presence (month : string) (df : frame) (a : agg_row) :
  In a (aggregate cast_float64 month df) ->
  a_frac_seller_n a <> None /\
  (a_frac_buyer_n a = None <-> a_issuer a = None).
Proof.
  intro Ha. apply flagged_aggregate_In in Ha.
  destruct Ha as [[k g] [buyer [seller [-> Hin]]]].
  pose proof (left_join_left _ _ _ _ _ _ Hin) as Hb.
  pose proof (left_join_left _ _ _ _ _ _ Hb) as Hg.
  destruct (transfer_groups_In _ _ _ Hg) as [_ [r [s [Hr [Hp [Es ->]]]]]].
  cbn -[div of_count div_col]. split.
  - destruct (left_join_matched _ _ _ _ _ _ Hin (k := s) eq_refl)
      as [b [-> _]].
    + apply seller_book_keys. apply in_map_iff. exists r. split; auto.
      apply transfers_In. auto.
    + discriminate.
  - destruct (issuer_id r) as [i|] eqn:Ei.
    + destruct (left_join_matched _ _ _ _ _ _ Hb (k := i) eq_refl)
        as [t [-> _]].
      * apply issuer_totals_keys. apply in_map_iff. eauto.
      * split; discriminate.
    + apply left_join_In in Hb. destruct Hb as [_ Hbuyer].
      destruct buyer as [t|]; [|split; reflexivity].
      destruct Hbuyer as [_ Hm]. discriminate.
Qed.

End FlaggedPresence.

End ReportFacts.

Section Reports.
Import Report ReportFacts WindowFacts CountFacts.

(** X21.  The top-20 listing shows the twenty rows with the most loans
    (all rows when there are fewer), largest first: it is a sorted prefix
    of a rearrangement of the output, and no row left out counts more
    loans than a row shown. *)
Theorem top20_are_the_largest (R : Type) (n_loans_of : R -> nat)
    (ties : tie_order R) (combined : list R) :
  let top := top20 n_loans_of ties combined in
  List.length top = Nat.min 20 (List.length combined) /\
  StronglySorted (fun a b => n_loans_of b <= n_loans_of a) top /\
  exists rest,
    Permutation combined (top ++ rest) /\
    forall r c, In r top -> In c rest -> n_loans_of c <= n_loans_of r.
Proof.
  intro top. unfold top, top20.
  set (sorted := sort_rows
                   (order_by
                      [(fun a b => Nat.compare (n_loans_of a) (n_loans_of b),
                        true)])
                   (ties combined)).
  assert (Hperm : Permutation sorted combined).
  { unfold sorted. rewrite SortFacts.sort_rows_perm. apply shuffle_perm. }
  assert (Hs : StronglySorted (fun a b => n_loans_of b <= n_loans_of a)
                 (firstn 20 sorted ++ skipn 20 sorted)).
  { rewrite firstn_skipn. apply by_n_loans_sorted. }
  apply StronglySorted_app_inv in Hs. destruct Hs as [Hs Hcross].
  split; [|split; auto].
  - rewrite length_firstn. now rewrite (Permutation_length Hperm).
  - exists (skipn 20 sorted). split; auto.
    rewrite firstn_skipn. now apply Permutation_sym.
Qed.

(** X22.  After a differencing run has written its rows, the top-20
    listing prints without raising, one line for each of the (at most
    twenty) rows it shows: every written row has both servicer names and
    both count fractions present. *)
Theorem differencing_listing_prints (ties top_ties : tie_order Differencing.transition)
    (files : list Differencing.monthly_file)
    (rows : list Differencing.transition) :
  Differencing.main ties files = Written rows ->
  exists lines,
    listing differencing_line (top20 Differencing.n_loans top_ties rows)
      = Some lines /\
    List.length lines = Nat.min 20 (List.length rows).
Proof.
  intro E.
  destruct (listing differencing_line
              (top20 Differencing.n_loans top_ties rows)) as [lines|] eqn:L.
  - exists lines. split; auto.
    apply listing_Some in L.
    rewrite <- (length_map Some lines), <- L, length_map.
    apply top20_length.
  - exfalso. apply listing_None in L. destruct L as [row [Hrow Erow]].
    assert (Hin : In row rows) by (eapply top20_In; eauto).
    apply main_written in E. destruct E as [_ [E _]].
    apply (Permutation_in _ E) in Hin.
    apply in_flat_map in Hin. destruct Hin as [p [_ Hin]].
    unfold pair_rows in Hin. apply in_map_iff in Hin.
    destruct Hin as [a [<- Ha]].
    destruct (aggregate_row _ _ _ _ Ha) as [f [t [Ef [Et _]]]].
    destruct (aggregate_totals_matched _ _ _ _ Ha)
      as [sn [bn [_ [_ [_ [_ [_ [_ [F1 F2]]]]]]]]].
    unfold differencing_line in Erow. simpl in Erow.
    rewrite Ef, Et, F1, F2 in Erow. discriminate.
Qed.

Lemma differencing_listing_prints_witness :
  exists lines,
    listing differencing_line
      (top20 Differencing.n_loans as_given
         (match Differencing.main as_given Examples.fu_files with
          | Written rows => rows
          | _ => []
          end))
      = Some lines /\
    List.length lines = 1.
Proof.
  destruct (differencing_listing_prints as_given as_given Examples.fu_files
              (rows := match Differencing.main as_given Examples.fu_files with
                       | Written rows => rows
                       | _ => []
                       end))
    as [lines [L N]].
  - vm_compute. reflexivity.
  - exists lines. split; [exact L|]. rewrite N. vm_compute. reflexivity.
Defined.

(** X23.  After a flagged-transfer run has written its rows, the top-20
    listing raises exactly when one of the rows it shows lacks a name: its
    issuer identifier is null, or the lookup stores a null name for its
    issuer identifier or for its prior-servicer identifier.  Every other
    field the line formats is present in every row but those. *)
Theorem flagged_listing_raises_on_null_name
    (cast_float64 : string -> option f64) (name_map : Flagged.dict)
    (pick : Flagged.frame -> nat)
    (ties top_ties : tie_order Flagged.transition)
    (llmon1_files llmon2_files : list Flagged.source_file)
    (rows : list Flagged.transition) :
  Flagged.main cast_float64 name_map pick ties llmon1_files llmon2_files
    = Written rows ->
  listing flagged_line (top20 Flagged.n_loans top_ties rows) = None <->
  exists row, In row (top20 Flagged.n_loans top_ties rows) /\
    (Flagged.out_issuer_id row = None \/
     (exists i, Flagged.out_issuer_id row = Some i /\
                Flagged.dict_get name_map (Some i) = Some None) \/
     (exists s, Flagged.out_seller_issuer_id row = Some s /\
                Flagged.dict_get name_map (Some s) = Some None)).
Proof.
  intro E. rewrite listing_None.
  assert (Hline : forall row, In row (top20 Flagged.n_loans top_ties rows) ->
            (flagged_line row = None <->
             (Flagged.out_issuer_id row = None \/
              (exists i, Flagged.out_issuer_id row = Some i /\
                 Flagged.dict_get name_map (Some i) = Some None) \/
              (exists s, Flagged.out_seller_issuer_id row = Some s /\
                 Flagged.dict_get name_map (Some s) = Some None)))).
  { intros row Hrow.
    assert (Hin : In row rows) by (eapply top20_In; eauto).
    apply FlowFacts.flagged_main_written in E. destruct E as [E _].
    apply (Permutation_in _ E) in Hin.
    apply in_flat_map in Hin. destruct Hin as [m [_ Hin]].
    unfold month_rows in Hin. apply in_map_iff in Hin.
    destruct Hin as [a [<- Ha]].
    destruct (FlowFacts.flagged_aggregate_row _ _ _ _ Ha)
      as [s [Es _]].
    destruct (flagged_fraction_presence _ _ _ _ Ha) as [Fs Fb].
    unfold flagged_line.
    cbn [Flagged.resolve Flagged.out_seller_issuer_id Flagged.servicer_from
         Flagged.out_issuer_id Flagged.servicer_to Flagged.n_loans
         Flagged.transition_month Flagged.frac_seller_n
         Flagged.frac_buyer_n Flagged.total_upb].
    rewrite Es. cbn [Flagged.resolve_name].
    pose proof (FlowFacts.name_is_null name_map s) as Ns.
    destruct (Flagged.a_issuer a) as [i|]; cbn [Flagged.resolve_name].
    - pose proof (FlowFacts.name_is_null name_map i) as Ni.
      destruct (Flagged.a_frac_seller_n a) as [fs|]; [|congruence].
      destruct (Flagged.a_frac_buyer_n a) as [fb|].
      + destruct (Flagged.issuer_name name_map s) as [from|].
        * destruct (Flagged.issuer_name name_map i) as [to|].
          -- split; [discriminate|].
             intros [C|[[i' [Ei C]]|[s' [Es' C]]]].
             ++ discriminate.
             ++ inversion Ei; subst i'.
                apply Ni in C. discriminate.
             ++ inversion Es'; subst s'.
                apply Ns in C. discriminate.
          -- split; auto. intros _. right. left. exists i.
             split; auto. now apply Ni.
        * split; auto. intros _. right. right. exists s.
          split; auto. now apply Ns.
      + exfalso. destruct Fb as [Fb _]. specialize (Fb eq_refl).
        discriminate.
    - split; auto.
      destruct (Flagged.issuer_name name_map s); reflexivity. }
  split; intros [row [Hrow Hnone]]; exists row; split; auto;
    now apply Hline.
Qed.

(** A lookup that stores a null name for issuer X: the row of the
    transfer away from X is written, and the listing raises on it. *)
Lemma flagged_listing_raises_on_null_name_witness :
  listing flagged_line
    (top20 Flagged.n_loans as_given
       (match Flagged.main Flagged.cast_integer
                [(Some "X"%string, None)] keep_first as_given
                [Examples.ll_file "201504"
                   (Flagged.Loans Examples.ll_201504)] []
        with Written rows => rows | _ => [] end)) = None.
Proof.
  apply (flagged_listing_raises_on_null_name Flagged.cast_integer
           [(Some "X"%string, None)] keep_first as_given as_given
           [Examples.ll_file "201504" (Flagged.Loans Examples.ll_201504)] []).
  - vm_compute. reflexivity.
  - eexists. split; [vm_compute; left; reflexivity|].
    right. right. exists "X"%string. split; reflexivity.
Defined.

(** X24.  The share printed for a step is a percentage: for a pair of
    files the changed loans among the matched ones, for a month the
    flagged loans among the deduplicated ones.  It lies between 0 and 100
    and is 0 exactly when no loan changed (no loan is flagged), also when
    there is nothing to divide by. *)
Theorem step_share_is_a_percentage :
  (forall df_prev df_curr : Differencing.frame,
     let share := pct (List.length (Differencing.changed df_prev df_curr))
                      (List.length (Differencing.joined df_prev df_curr)) in
     (0 <= share /\ share <= 100)%Q /\
     ((share == 0)%Q <-> Differencing.changed df_prev df_curr = [])) /\
  (forall df_month : Flagged.frame,
     let share := pct (List.length (Flagged.transfers df_month))
                      (List.length df_month) in
     (0 <= share /\ share <= 100)%Q /\
     ((share == 0)%Q <-> Flagged.transfers df_month = [])).
Proof.
  split.
  - intros df_prev df_curr share.
    assert (Hle : List.length (Differencing.changed df_prev df_curr) <=
                  List.length (Differencing.joined df_prev df_curr))
      by apply filter_length_le.
    split; [now apply pct_range|].
    unfold share. rewrite (pct_zero Hle). apply length_zero_iff_nil.
  - intros df_month share.
    assert (Hle : List.length (Flagged.transfers df_month) <=
                  List.length df_month)
      by apply filter_length_le.
    split; [now apply pct_range|].
    unfold share. rewrite (pct_zero Hle). apply length_zero_iff_nil.
Qed.

End Reports.

(** ** When a run writes nothing, and what a written file holds *)

Module OutputFacts.
Import Report.

Lemma flat_map_nil {A B} (f : A -> list B) (l : list A) :
  flat_map f l = [] <-> forall x, In x l -> f x = [].
Proof.
  induction l as [|x l IH]; simpl.
  - split; auto. intros _ ? [].
  - split.
    + intros E y [<-|Hy].
      * apply app_eq_nil in E. tauto.
      * apply app_eq_nil in E. destruct E as [_ E].
        exact (proj1 IH E y Hy).
    + intro Hf. rewrite (Hf x) by now left. simpl.
      apply IH. intros; apply Hf. now right.
Qed.

Lemma list_sum_In (x : nat) (l : list nat) : In x l -> x <= list_sum l.
Proof.
  induction l as [|y l IH]; simpl; [intros []|].
  intros [->|Hx]; [lia|]. specialize (IH Hx). lia.
Qed.

Lemma unique_pairs_range {R} (from_of to_of : R -> option string)
    (combined : list R) :
  combined <> [] ->
  1 <= unique_pairs from_of to_of combined /\
  unique_pairs from_of to_of combined <= List.length combined.
Proof.
  intro Hne. unfold unique_pairs. split.
  - destruct combined as [|r rest]; [contradiction|]. simpl. lia.
  - rewrite <- (length_map (fun r => (from_of r, to_of r)) combined).
    apply NoDup_incl_length; [apply distinct_NoDup|].
    intros k Hk. exact (proj1 (distinct_In _ _) Hk).
Qed.

(** A written row with at least one loan makes the summary lines count
    at least one row, one loan and one pair. *)
Lemma summary_counts {R} (n_loans_of : R -> nat)
    (from_of to_of : R -> option string) (rows : list R) (row : R) :
  In row rows -> 1 <= n_loans_of row ->
  1 <= List.length rows /\
  1 <= total_n_loans n_loans_of rows /\
  1 <= unique_pairs from_of to_of rows /\
  unique_pairs from_of to_of rows <= List.length rows.
Proof.
  intros Hrow Hn.
  assert (Hne : rows <> []) by (intros ->; destruct Hrow).
  split; [destruct rows; [contradiction|simpl; lia]|].
  split; [|now apply unique_pairs_range].
  unfold total_n_loans.
  etransitivity; [exact Hn|]. apply list_sum_In. now apply in_map.
Qed.

Section OfDifferencing.
Import Differencing DifferencingFacts WindowFacts CountFacts.

Lemma changed_aggregate_nonempty (month_curr : string)
    (df_prev df_curr : frame) :
  changed df_prev df_curr <> [] ->
  exists a, In a (aggregate month_curr df_prev df_curr).
Proof.
  intro Hne.
  pose proof (aggregate_n_loans month_curr df_prev df_curr) as E.
  destruct (aggregate month_curr df_prev df_curr) as [|a rest].
  - simpl in E. destruct (changed df_prev df_curr); [contradiction|].
    discriminate.
  - exists a. now left.
Qed.

(** A run that writes found a pair of files with a changed loan. *)
Lemma main_written_pair (ties : tie_order transition)
    (files : list monthly_file) (rows : list transition) :
  main ties files = Written rows ->
  exists p, In p (consecutive files) /\ pair_changed p <> [].
Proof.
  intro E.
  destruct (main_not_fatal ties files) as [Hne Hall]; [congruence|].
  rewrite (main_readable ties Hne Hall) in E. unfold finish in E.
  destruct (flat_map pair_step (consecutive files)) as [|x xs] eqn:F;
    [discriminate|].
  assert (Hx : In x (flat_map pair_step (consecutive files)))
    by (rewrite F; now left).
  apply in_flat_map in Hx. destruct Hx as [p [Hp Hx]].
  exists p. split; auto. intro C.
  unfold pair_changed in C.
  apply (step_nil (file_month (snd p))) in C.
  unfold pair_step in Hx. rewrite C in Hx. destruct Hx.
Qed.

End OfDifferencing.

Section OfFlagged.
Import Flagged FlaggedFacts FlowFacts.
Variable cast_float64 : string -> option f64.
Variable name_map : dict.

Lemma reconcile_nil (month : string) (df : frame) :
  reconcile cast_float64 name_map month df = [] <-> transfers df = [].
Proof.
  unfold reconcile. destruct (transfers df); split;
    congruence || discriminate.
Qed.

Lemma transfers_aggregate_nonempty (month : string) (df : frame) :
  transfers df <> [] -> exists a, In a (aggregate cast_float64 month df).
Proof.
  intro Hne.
  pose proof (flagged_aggregate_n_loans cast_float64 month df) as E.
  destruct (aggregate cast_float64 month df) as [|a rest].
  - simpl in E. destruct (transfers df); [contradiction|]. discriminate.
  - exists a. now left.
Qed.

End OfFlagged.

End OutputFacts.

Section Outputs.
Import Report OutputFacts WindowFacts CountFacts.

(** X25.  A differencing run never writes an empty file: when it writes,
    the summary reports at least one row, at least one changed loan, and
    between one and as many distinct (from, to) pairs as there are
    rows. *)
Theorem differencing_written_file_is_not_empty
    (ties : tie_order Differencing.transition)
    (files : list Differencing.monthly_file)
    (rows : list Differencing.transition) :
  Differencing.main ties files = Written rows ->
  1 <= List.length rows /\
  1 <= total_n_loans Differencing.n_loans rows /\
  1 <= unique_pairs Differencing.servicer_from Differencing.servicer_to rows /\
  unique_pairs Differencing.servicer_from Differencing.servicer_to rows
    <= List.length rows.
Proof.
  intro E.
  destruct (main_written_pair _ _ E) as [p [Hp Hch]].
  destruct (changed_aggregate_nonempty
              (Differencing.file_month (snd p)) _ _ Hch) as [a Ha].
  apply main_written in E. destruct E as [_ [Hperm _]].
  apply summary_counts with (row := Differencing.drop a).
  - apply (Permutation_in _ (Permutation_sym Hperm)).
    apply in_flat_map. exists p. split; auto.
    unfold pair_rows. now apply in_map.
  - destruct (aggregate_row _ _ _ _ Ha) as [_ [_ [_ [_ [_ [Hn _]]]]]].
    exact Hn.
Qed.

Lemma differencing_written_file_is_not_empty_witness :
  exists rows,
    Differencing.main as_given Examples.fu_files = Written rows /\
    1 <= List.length rows.
Proof.
  eexists. split; [vm_compute; reflexivity|].
  apply (differencing_written_file_is_not_empty as_given Examples.fu_files).
  vm_compute. reflexivity.
Defined.

(** X26.  A flagged-transfer run ends at "No transfers detected",
    writing nothing, exactly when it does not fail and no visited month
    has, after deduplication, a loan with a populated prior servicer. *)
Theorem flagged_no_output_iff_no_transfer
    (cast_float64 : string -> option f64) (name_map : Flagged.dict)
    (pick : Flagged.frame -> nat) (ties : tie_order Flagged.transition)
    (llmon1_files llmon2_files : list Flagged.source_file) :
  let by_month := Flagged.files_by_month llmon1_files llmon2_files in
  Flagged.main cast_float64 name_map pick ties llmon1_files llmon2_files
    = NoOutput <->
  Flagged.main cast_float64 name_map pick ties llmon1_files llmon2_files
    <> Fatal /\
  (forall m, In m (Flagged.months_of by_month) ->
             month_transfers pick by_month m = []).
Proof.
  intro by_month. unfold Flagged.main. fold by_month.
  destruct (Flagged.months_of by_month) as [|m ms] eqn:M.
  - split; [discriminate|]. intros [C _]. now contradiction C.
  - destruct (Flagged.process cast_float64 name_map pick by_month (m :: ms) [])
      as [all_results|] eqn:P.
    + apply FlowFacts.process_steps in P. cbn [app] in P.
      unfold finish. split.
      * intro E. split; [congruence|].
        destruct all_results as [|x xs]; [|discriminate].
        symmetry in P. intros m' Hm'.
        apply (reconcile_nil cast_float64 name_map m').
        now apply (proj1 (flat_map_nil _ _) P).
      * intros [_ Hnone].
        assert (E : all_results = []).
        { rewrite P. apply flat_map_nil. intros m' Hm'.
          apply reconcile_nil. now apply Hnone. }
        now rewrite E.
    + split; [discriminate|]. intros [C _]. now contradiction C.
Qed.

(** X27.  A flagged-transfer run never writes an empty file: when it
    writes, the summary reports at least one row, at least one transferred
    loan, and between one and as many distinct (from, to) name pairs as
    there are rows. *)
Theorem flagged_written_file_is_not_empty
    (cast_float64 : string -> option f64) (name_map : Flagged.dict)
    (pick : Flagged.frame -> nat) (ties : tie_order Flagged.transition)
    (llmon1_files llmon2_files : list Flagged.source_file)
    (rows : list Flagged.transition) :
  Flagged.main cast_float64 name_map pick ties llmon1_files llmon2_files
    = Written rows ->
  1 <= List.length rows /\
  1 <= total_n_loans Flagged.n_loans rows /\
  1 <= unique_pairs Flagged.servicer_from Flagged.servicer_to rows /\
  unique_pairs Flagged.servicer_from Flagged.servicer_to rows
    <= List.length rows.
Proof.
  intro E.
  pose proof (FlowFacts.flagged_main_written _ _ _ _ _ _ E) as [Hperm _].
  set (by_month := Flagged.files_by_month llmon1_files llmon2_files) in *.
  assert (Hm : exists m, In m (Flagged.months_of by_month) /\
                         month_transfers pick by_month m <> []).
  { unfold Flagged.main in E. fold by_month in E.
    destruct (Flagged.months_of by_month) as [|m0 ms]; [discriminate|].
    destruct (Flagged.process cast_float64 name_map pick by_month
                (m0 :: ms) []) as [all_results|] eqn:P; [|discriminate].
    apply FlowFacts.process_steps in P. cbn [app] in P.
    unfold finish in E. destruct all_results as [|x xs]; [discriminate|].
    assert (Hx : In x (x :: xs)) by now left.
    rewrite P in Hx. apply in_flat_map in Hx. destruct Hx as [m [Hm Hx]].
    exists m. split; auto. intro C.
    apply (reconcile_nil cast_float64 name_map m) in C.
    rewrite C in Hx. destruct Hx. }
  destruct Hm as [m [Hm Htr]].
  destruct (transfers_aggregate_nonempty cast_float64 m _ Htr) as [a Ha].
  apply summary_counts with (row := Flagged.resolve name_map a).
  - apply (Permutation_in _ (Permutation_sym Hperm)).
    apply in_flat_map. exists m. split; auto.
    unfold month_rows. now apply in_map.
  - destruct (FlowFacts.flagged_aggregate_row _ _ _ _ Ha)
      as [_ [_ [_ [Hn _]]]].
    exact Hn.
Qed.

Lemma flagged_written_file_is_not_empty_witness :
  exists rows,
    Flagged.main Flagged.cast_integer Examples.ll_names keep_first as_given
      [Examples.ll_file "201504" (Flagged.Loans Examples.ll_201504)] []
      = Written rows /\
    1 <= List.length rows.
Proof.
  eexists. split; [vm_compute; reflexivity|].
  apply (flagged_written_file_is_not_empty Flagged.cast_integer
           Examples.ll_names keep_first as_given
           [Examples.ll_file "201504" (Flagged.Loans Examples.ll_201504)] []).
  vm_compute. reflexivity.
Defined.

End Outputs.

(** ** Unreadable and empty sources, again: what aborts a run *)

Module PeriodFacts.

Section OfDifferencing.
Import Differencing DifferencingFacts WindowFacts.


End OfDifferencing.

Section OfFlagged.
Import Flagged FlaggedFacts FlowFacts.
Variable cast_float64 : string -> option f64.
Variable pick : frame -> nat.




End OfFlagged.

End PeriodFacts.

Section FatalPeriodsAmended.
Import Examples PeriodFacts.



End FatalPeriodsAmended.

(** ** Two runs over the same input, again *)

Module CompareFacts.

Section Compare.
Variables R C : Type.
Variable month_of : R -> string.
Variable n_loans_of : R -> nat.
Variable columns : R -> C.
Variable cmonth : C -> string.
Variable cn : C -> nat.
Hypothesis cmonth_ok : forall r, cmonth (columns r) = month_of r.
Hypothesis cn_ok : forall r, cn (columns r) = n_loans_of r.

Lemma sorted_columns (rows : list R) :
  StronglySorted (in_output_order month_of n_loans_of) rows ->
  StronglySorted (in_output_order cmonth cn) (map columns rows).
Proof.
  induction 1 as [|a rows Hs IH Hall]; simpl; constructor; auto.
  rewrite Forall_forall in *. intros c Hc.
  apply in_map_iff in Hc. destruct Hc as [b [<- Hb]].
  unfold in_output_order. rewrite !cmonth_ok, !cn_ok.
  exact (Hall b Hb).
Qed.

(** Whatever order the sort meets the rows in, it writes the same
    [columns], in the same order unless rows that differ on them tie. *)
Lemma finish_agree (ties1 ties2 : tie_order R)
    (all_results : list (list R)) :
  agree_up_to_ties month_of n_loans_of columns
    (finish month_of n_loans_of ties1 all_results)
    (finish month_of n_loans_of ties2 all_results).
Proof.
  destruct (finish month_of n_loans_of ties1 all_results) as [| |rows1] eqn:F1;
  destruct (finish month_of n_loans_of ties2 all_results) as [| |rows2] eqn:F2;
    simpl; auto;
    try (unfold finish in F1, F2; destruct all_results; discriminate).
  apply finish_written in F1. apply finish_written in F2.
  destruct F1 as [P1 S1], F2 as [P2 S2].
  assert (Hperm : Permutation (map columns rows1) (map columns rows2)).
  { apply Permutation_map. rewrite P1. now apply Permutation_sym. }
  split; [exact Hperm|].
  split; [now apply in_output_order_sorted|].
  split; [now apply in_output_order_sorted|].
  intro Hno_ties.
  apply (sorted_permutation_eq (sorted_columns S1) (sorted_columns S2) Hperm).
  intros ca cb Ha Hb Hab Hba.
  apply in_map_iff in Ha. destruct Ha as [a [<- Ha]].
  apply in_map_iff in Hb. destruct Hb as [b [<- Hb]].
  destruct (in_output_order_antisym Hab Hba) as [Em En].
  rewrite !cmonth_ok in Em. rewrite !cn_ok in En.
  now apply Hno_ties.
Qed.

End Compare.

End CompareFacts.

Section RunTwiceAmended.
Import Examples CompareFacts.

(** C6, amended.  Two runs over the same unchanged input files end the
    same way and, when they write, write rows that carry the same period,
    names, identifiers, loan count and count fractions, each time sorted
    by period and then by descending loan count; on these columns the two
    files can differ only in the relative order of rows that tie on
    period and loan count, and are identical when no two rows that differ
    on them tie.  The balance columns are left out of the comparison:
    they are floating-point sums. *)
Theorem two_runs_agree_up_to_ties :
  (forall ties1 ties2 files,
     agree_up_to_ties Differencing.transition_month Differencing.n_loans
       differencing_counted
       (Differencing.main ties1 files) (Differencing.main ties2 files))
  /\
  (forall cast_float64 name_map pick ties1 ties2 llmon1_files llmon2_files,
     agree_up_to_ties Flagged.transition_month Flagged.n_loans
       flagged_counted
       (Flagged.main cast_float64 name_map pick ties1
                     llmon1_files llmon2_files)
       (Flagged.main cast_float64 name_map pick ties2
                     llmon1_files llmon2_files)).
Proof.
  split.
  - intros ties1 ties2 files. unfold Differencing.main.
    destruct files as [|f0 rest]; simpl; auto.
    destruct (Differencing.file_load f0) as [df0|]; simpl; auto.
    destruct (Differencing.window df0 rest []) as [res|]; simpl; auto.
    apply finish_agree
      with (cmonth := fun c => fst (fst (fst (fst (fst c)))))
           (cn := fun c => snd (fst (fst c)));
      reflexivity.
  - intros cast nm pick ties1 ties2 l1 l2.
    unfold Flagged.main.
    destruct (Flagged.months_of (Flagged.files_by_month l1 l2))
      as [|m0 ms] eqn:Ms; [exact I|].
    destruct (Flagged.process cast nm pick _ (m0 :: ms) []) as [res|];
      [|exact I].
    apply finish_agree
      with (cmonth := fun c => fst (fst (fst (fst (fst (fst (fst c)))))))
           (cn := fun c => snd (fst (fst c)));
      reflexivity.
Qed.

End RunTwiceAmended.

(** ** The four fractions, again *)

Module BalanceFacts.

Local Open Scope Q_scope.

(** A quotient column is guarded whatever its numerator. *)
Lemma div_col_guarded (num : f64) (den : option f64) :
  fraction_guarded den (div_col (Some num) den).
Proof.
  destruct den as [d|]; simpl; auto.
  exists (div num d). split; auto.
  intro Hz. destruct d as [q| |]; simpl in Hz; try tauto.
  now apply div_zero_not_finite.
Qed.

Lemma of_count_positive (d : nat) : (1 <= d)%nat -> positive (of_count d).
Proof.
  intro Hd. simpl. change 0 with (inject_Z 0). rewrite <- Zlt_Qlt. lia.
Qed.

Section OfFlagged.
Import Flagged FlaggedFacts FlowFacts.
Variable cast_float64 : string -> option f64.

Lemma within_seller_book (df : frame) (s i : option string) :
  within_total df (transfer_group df s i)
               (transferred_away df s ++ still_held df s).
Proof.
  intros w Hw.
  assert (Htr : forall r, In r (transfers df) -> 0 <= w r).
  { intros r Hr. apply Hw. apply transfers_In in Hr. tauto. }
  split.
  - apply qtotal_nonneg. intros r Hr. apply Htr.
    unfold transfer_group in Hr. apply filter_In in Hr. tauto.
  - rewrite qtotal_app.
    assert (H1 : qtotal w (transfer_group df s i)
                 <= qtotal w (transferred_away df s)).
    { unfold transfer_group, transferred_away.
      apply qtotal_filter_le; auto.
      intros r _ Hr. apply keqb_eq in Hr. inversion Hr. apply keqb_refl. }
    assert (H2 : 0 <= qtotal w (still_held df s)).
    { apply qtotal_nonneg. intros r Hr. apply Hw.
      unfold still_held in Hr. apply filter_In in Hr. tauto. }
    lra.
Qed.

Lemma within_buyer_book (df : frame) (s i : option string) :
  within_total df (transfer_group df s i) (still_held df i).
Proof.
  intros w Hw. split.
  - apply qtotal_nonneg. intros r Hr. apply Hw.
    unfold transfer_group in Hr. apply filter_In in Hr.
    destruct Hr as [Hr _]. apply transfers_In in Hr. tauto.
  - unfold transfer_group, still_held, transfers. rewrite filter_filter.
    apply qtotal_filter_le; auto.
    intros r _ Hr. apply andb_true_iff in Hr. destruct Hr as [_ Hr].
    apply keqb_eq in Hr. inversion Hr. apply keqb_refl.
Qed.

Lemma flagged_balances (month : string) (df : frame) (a : agg_row) :
  In a (aggregate cast_float64 month df) ->
  flagged_balances_explained cast_float64 df a.
Proof.
  intro Ha. apply flagged_aggregate_In in Ha.
  destruct Ha as [[k rows] [buyer [seller [-> Hin]]]].
  pose proof (left_join_left _ _ _ _ _ _ Hin) as Hb.
  pose proof (left_join_left _ _ _ _ _ _ Hb) as Hg.
  destruct (transfer_groups_In _ _ _ Hg)
    as [Erows [r0 [s [Hr0 [Hp0 [Hs0 ->]]]]]].
  assert (Hseller : exists b, seller = Some b /\
            b_total_upb b =
              add (sum (map (upb_dollars cast_float64)
                            (transferred_away df (Some s))))
                  (sum (map (upb_dollars cast_float64)
                            (still_held df (Some s))))).
  { destruct (left_join_matched _ _ _ _ _ _ Hin (k := s) eq_refl)
      as [b [-> [Hbk Kb]]].
    - apply seller_book_keys. apply in_map_iff. exists r0. split; auto.
      apply transfers_In. auto.
    - exists b. split; auto.
      destruct (seller_book_In _ _ _ Hbk) as [_ [_ Eu]].
      now rewrite Kb in Eu. }
  destruct Hseller as [b [-> Eb]].
  assert (Hbuyer : option_map t_total_upb buyer =
            match issuer_id r0 with
            | Some _ =>
                Some (sum (map (upb_dollars cast_float64)
                               (still_held df (issuer_id r0))))
            | None => None
            end).
  { destruct (issuer_id r0) as [i|] eqn:Ei.
    - destruct (left_join_matched _ _ _ _ _ _ Hb (k := i) eq_refl)
        as [t [-> [Ht Kt]]].
      + apply issuer_totals_keys. apply in_map_iff. exists r0. auto.
      + destruct (issuer_totals_In _ _ _ Ht) as [_ [_ Eu]].
        simpl. rewrite Eu, Kt. reflexivity.
    - apply left_join_In in Hb. destruct Hb as [_ Hb].
      destruct buyer as [t|]; [|reflexivity].
      destruct Hb as [_ Hm]. discriminate. }
  unfold flagged_balances_explained.
  cbn -[div of_count add sum div_col within_total transfer_group
        transferred_away still_held].
  split; [|split; [|split; [|split; [|split; [|split]]]]].
  - rewrite Erows. reflexivity.
  - now rewrite Eb.
  - exact Hbuyer.
  - reflexivity.
  - reflexivity.
  - apply within_seller_book.
  - apply within_buyer_book.
Qed.

(** The loan count of a row is at most either count it is divided by. *)
Lemma flagged_count_bounds (month : string) (df : frame) (a : agg_row) :
  In a (aggregate cast_float64 month df) ->
  (forall d, a_seller_total_n a = Some d -> (a_n_loans a <= d)%nat) /\
  (forall d, a_buyer_total_n a = Some d -> (a_n_loans a <= d)%nat).
Proof.
  intros Ha. apply flagged_aggregate_In in Ha.
  destruct Ha as [[k rows] [buyer [seller [-> Hin]]]].
  pose proof (left_join_left _ _ _ _ _ _ Hin) as Hb.
  pose proof (left_join_left _ _ _ _ _ _ Hb) as Hg.
  destruct (transfer_groups_In _ _ _ Hg)
    as [Erows [r0 [s [Hr0 [Hp0 [Hs0 ->]]]]]].
  set (sel := fun x : loan =>
         seller_populated x &&
         keqb (seller_issuer_id x, issuer_id x) (Some s, issuer_id r0)).
  assert (Esel : rows = filter sel df).
  { rewrite Erows. unfold transfers. apply filter_filter. }
  assert (Hsel : forall x, sel x = true ->
            seller_issuer_id x = Some s /\ issuer_id x = issuer_id r0 /\
            seller_populated x = true).
  { intros x Hx. unfold sel in Hx. apply andb_true_iff in Hx.
    destruct Hx as [Hpx Hkx]. apply keqb_eq in Hkx.
    inversion Hkx. auto. }
  apply left_join_In in Hin. destruct Hin as [_ Hseller].
  apply left_join_In in Hb. destruct Hb as [_ Hbuyer].
  cbn -[div of_count add sum div_col option_map].
  split.
  - intros d Ed.
    destruct seller as [b|]; [|discriminate]. simpl in Ed.
    inversion Ed; subst d. destruct Hseller as [Hbk Hm].
    apply key_match_true in Hm. destruct Hm as [s' [E1 E2]].
    simpl in E1. inversion E1; subst s'.
    destruct (seller_book_In _ _ _ Hbk) as [_ [-> _]].
    rewrite E2. unfold transferred_away, transfers.
    rewrite Esel, filter_filter.
    etransitivity; [|apply Nat.le_add_r].
    apply filter_length_mono. intros x _ Hx.
    destruct (Hsel x Hx) as [Sx [_ Px]].
    rewrite Px, Sx. simpl. apply String.eqb_refl.
  - intros d Ed.
    destruct buyer as [t|]; [|discriminate]. simpl in Ed.
    inversion Ed; subst d. destruct Hbuyer as [Ht Hm].
    apply key_match_true in Hm. destruct Hm as [i [E1 E2]].
    simpl in E1.
    destruct (issuer_totals_In _ _ _ Ht) as [_ [-> _]].
    rewrite Esel. apply filter_length_mono. intros x _ Hx.
    destruct (Hsel x Hx) as [_ [Ix _]].
    apply keqb_eq. congruence.
Qed.

(** The shape of the two count fractions. *)
Lemma flagged_count_quotients (month : string) (df : frame) (a : agg_row) :
  In a (aggregate cast_float64 month df) ->
  a_frac_seller_n a =
    div_col (Some (of_count (a_n_loans a)))
            (option_map of_count (a_seller_total_n a)) /\
  a_frac_buyer_n a =
    div_col (Some (of_count (a_n_loans a)))
            (option_map of_count (a_buyer_total_n a)).
Proof.
  intros Ha. apply flagged_aggregate_In in Ha.
  destruct Ha as [[k rows] [buyer [seller [-> _]]]].
  split; reflexivity.
Qed.

(** The count fractions of a row: the seller-side one is always a number
    between 0 and 1; the buyer-side one is, unless the issuer is null. *)
Lemma flagged_count_fractions_bounded (month : string) (df : frame)
    (a : agg_row) :
  In a (aggregate cast_float64 month df) ->
  (exists f, a_frac_seller_n a = Some f /\ unit_interval f) /\
  match a_issuer a with
  | Some _ => exists f, a_frac_buyer_n a = Some f /\ unit_interval f
  | None => a_frac_buyer_n a = None
  end.
Proof.
  intro Ha.
  destruct (flagged_aggregate_row _ _ _ _ Ha) as [s [_ [_ [Hn _]]]].
  destruct (flagged_count_bounds _ _ _ Ha) as [Bs Bb].
  destruct (flagged_count_quotients _ _ _ Ha) as [Qs Qb].
  destruct (ReportFacts.flagged_fraction_presence _ _ _ _ Ha) as [Ps Pb].
  split.
  - rewrite Qs in *.
    destruct (a_seller_total_n a) as [d|]; [|now contradiction Ps].
    simpl. eexists. split; [reflexivity|].
    apply div_unit_interval.
    + change 0 with (inject_Z (Z.of_nat 0)). apply inject_nat_le. lia.
    + apply inject_nat_le. now apply Bs.
    + apply (of_count_positive (d := d)). specialize (Bs d eq_refl). lia.
  - destruct (a_issuer a) as [i|].
    + rewrite Qb in *.
      destruct (a_buyer_total_n a) as [d|].
      * simpl. eexists. split; [reflexivity|].
        apply div_unit_interval.
        -- change 0 with (inject_Z (Z.of_nat 0)). apply inject_nat_le. lia.
        -- apply inject_nat_le. now apply Bb.
        -- apply (of_count_positive (d := d)). specialize (Bb d eq_refl).
           lia.
      * exfalso. destruct Pb as [Pb _]. specialize (Pb eq_refl).
        discriminate.
    + now apply Pb.
Qed.

End OfFlagged.

Section OfDifferencing.
Import Differencing DifferencingFacts.

Lemma within_sold (df_prev df_curr : frame) (k : group_key) :
  unique_loan_identifiers df_curr ->
  within_total df_prev (map fst (group_of_pairs df_prev df_curr k))
               (held_by df_prev (fst k)).
Proof.
  intros U w Hw. apply NoDup_at_most_one in U. split.
  - apply qtotal_nonneg. intros r Hr. apply Hw.
    apply in_map_iff in Hr. destruct Hr as [p [<- Hp]].
    unfold group_of_pairs in Hp. apply filter_In in Hp.
    destruct Hp as [Hp _]. now apply joined_pair_ids in Hp.
  - rewrite qtotal_map. unfold group_of_pairs, held_by.
    apply join_bound_left with (w := w); auto.
    intros x y Hxy. destruct k as [sfrom sto].
    apply group_pairs_key in Hxy. destruct Hxy as [<- _].
    apply keqb_refl.
Qed.

Lemma within_bought (df_prev df_curr : frame) (k : group_key) :
  unique_loan_identifiers df_prev ->
  within_total df_curr (map snd (group_of_pairs df_prev df_curr k))
               (held_by df_curr (snd k)).
Proof.
  intros U w Hw. apply NoDup_at_most_one in U. split.
  - apply qtotal_nonneg. intros r Hr. apply Hw.
    apply in_map_iff in Hr. destruct Hr as [p [<- Hp]].
    unfold group_of_pairs in Hp. apply filter_In in Hp.
    destruct Hp as [Hp _]. now apply joined_pair_ids in Hp.
  - rewrite qtotal_map. unfold group_of_pairs, held_by.
    apply join_bound_right with (w := w); auto.
    intros x y Hxy. destruct k as [sfrom sto].
    apply group_pairs_key in Hxy. destruct Hxy as [_ <-].
    apply keqb_refl.
Qed.

Lemma snapshot_balances (month_curr : string) (df_prev df_curr : frame)
    (a : agg_row) :
  In a (aggregate month_curr df_prev df_curr) ->
  snapshot_balances_explained df_prev df_curr a.
Proof.
  intro Ha. apply aggregate_In in Ha.
  destruct Ha as [[k G] [seller [buyer [-> [Hg [Hs Hb]]]]]].
  destruct (changed_groups_In _ _ _ _ Hg)
    as [EG [j [sfrom [sto [_ [Hj [-> [_ [Jf Jt]]]]]]]]].
  rewrite group_as_pairs in EG.
  apply changed_In in Hj.
  destruct Hj as [ra [rb [lid [sf [st
    [Hra [Hrb [Ia [Ib [Sa [Sb [_ ->]]]]]]]]]]]].
  simpl in Jf, Jt. inversion Jf; inversion Jt; subst sf st.
  destruct (left_join_matched _ _ _ _ _ _ Hs (k := sfrom) eq_refl)
    as [ts [-> [Hts Ks]]].
  { apply servicer_totals_keys. apply in_map_iff. eauto. }
  destruct (left_join_matched _ _ _ _ _ _ Hb (k := sto) eq_refl)
    as [tb [-> [Htb Kb]]].
  { apply servicer_totals_keys. apply in_map_iff. eauto. }
  destruct (servicer_totals_In _ _ Hts) as [_ [_ Us]].
  destruct (servicer_totals_In _ _ Htb) as [_ [_ Ub]].
  rewrite Ks in Us. rewrite Kb in Ub.
  unfold snapshot_balances_explained.
  cbn -[div of_count add sum div_col within_total group_of_pairs held_by
        count].
  split; [|split; [|split; [|split; [|split; [|split; [|split]]]]]].
  - rewrite EG, map_map. reflexivity.
  - rewrite EG, map_map. reflexivity.
  - now rewrite Us.
  - now rewrite Ub.
  - reflexivity.
  - reflexivity.
  - intro U. apply (within_sold df_prev (Some sfrom, Some sto) U).
  - intro U. apply (within_bought df_curr (Some sfrom, Some sto) U).
Qed.

(** With unique identifiers both count fractions of a row are numbers
    between 0 and 1. *)
Lemma snapshot_count_fractions_bounded (month_curr : string)
    (df_prev df_curr : frame) (a : agg_row) :
  unique_loan_identifiers df_prev -> unique_loan_identifiers df_curr ->
  In a (aggregate month_curr df_prev df_curr) ->
  (exists f, a_frac_seller_n a = Some f /\ unit_interval f) /\
  (exists f, a_frac_buyer_n a = Some f /\ unit_interval f).
Proof.
  intros Uprev Ucurr Ha.
  destruct (aggregate_totals_matched _ _ _ _ Ha)
    as [sn [bn [Es [Hs [Eb [Hb _]]]]]].
  destruct (@differencing_count_fractions month_curr df_prev df_curr a
              Uprev Ucurr Ha) as [Ws Wb].
  rewrite Es in Ws. rewrite Eb in Wb. simpl in Ws, Wb.
  destruct Ws as [fs [Efs [Hfs _]]]. destruct Wb as [fb [Efb [Hfb _]]].
  split; eexists; split; eauto.
  - apply Hfs. now apply (of_count_positive (d := sn)).
  - apply Hfb. now apply (of_count_positive (d := bn)).
Qed.

Lemma snapshot_count_quotients (month_curr : string)
    (df_prev df_curr : frame) (a : agg_row) :
  In a (aggregate month_curr df_prev df_curr) ->
  a_frac_seller_n a =
    div_col (Some (of_count (a_n_loans a)))
            (option_map of_count (a_seller_total_n a)) /\
  a_frac_buyer_n a =
    div_col (Some (of_count (a_n_loans a)))
            (option_map of_count (a_buyer_total_n a)).
Proof.
  intro Ha. apply aggregate_In in Ha.
  destruct Ha as [[k G] [seller [buyer [-> _]]]].
  split; reflexivity.
Qed.

Lemma loaded_unique (files : list monthly_file) (f : monthly_file) :
  (forall g df, In g files -> file_load g = Some df ->
                unique_loan_identifiers df) ->
  In f files -> unique_loan_identifiers (loaded f).
Proof.
  intros Hall Hf. unfold loaded.
  destruct (file_load f) as [df|] eqn:E.
  - eapply Hall; eauto.
  - constructor.
Qed.

End OfDifferencing.

End BalanceFacts.

Section FractionsAmended.
Import Examples BalanceFacts.

(** C3, amended.  In every aggregate row of either reconciler each of the
    four fractions is null when its denominator is missing and present
    otherwise, and is NaN or an infinity (no finite number, and nothing
    is raised) when its denominator is zero.  The two count fractions lie
    between 0 and 1 when their denominator is positive: always in the
    flagged-transfer reconciler, and in the differencing reconciler when
    no loan identifier occurs twice in a snapshot.  The two balance
    fractions are not confined to that interval by the code.  What holds
    of them is where their numbers come from: the numerator is the sum of
    the balances of the loans of the group, the denominator the sum of the
    balances of a set of loans that contains them (in the differencing
    reconciler, when no identifier is repeated in the other snapshot), so
    that for finite non-negative balances the exact total behind the
    numerator lies between 0 and the exact total behind the denominator.
    Every written row is the row of such an aggregate, and its two count
    fractions are numbers between 0 and 1 (the buyer-side one of the
    flagged-transfer reconciler is null for a null issuer; the
    differencing reconciler needs its identifiers to be unique). *)
Theorem fractions_guarded_counts_bounded :
  (forall cast_float64 month df_month a,
     In a (Flagged.aggregate cast_float64 month df_month) ->
     (fraction_well_formed
        (option_map of_count (Flagged.a_seller_total_n a))
        (Flagged.a_frac_seller_n a) /\
      fraction_well_formed
        (option_map of_count (Flagged.a_buyer_total_n a))
        (Flagged.a_frac_buyer_n a)) /\
     (fraction_guarded (Flagged.a_seller_total_upb a)
                       (Flagged.a_frac_seller_upb a) /\
      fraction_guarded (Flagged.a_buyer_total_upb a)
                       (Flagged.a_frac_buyer_upb a)) /\
     flagged_balances_explained cast_float64 df_month a)
  /\
  (forall month_curr df_prev df_curr a,
     In a (Differencing.aggregate month_curr df_prev df_curr) ->
     (fraction_guarded
        (option_map of_count (Differencing.a_seller_total_n a))
        (Differencing.a_frac_seller_n a) /\
      fraction_guarded
        (option_map of_count (Differencing.a_buyer_total_n a))
        (Differencing.a_frac_buyer_n a) /\
      fraction_guarded (Differencing.a_seller_total_upb a)
                       (Differencing.a_frac_seller_upb a) /\
      fraction_guarded (Differencing.a_buyer_total_upb a)
                       (Differencing.a_frac_buyer_upb a)) /\
     (unique_loan_identifiers df_prev -> unique_loan_identifiers df_curr ->
      fraction_well_formed
        (option_map of_count (Differencing.a_seller_total_n a))
        (Differencing.a_frac_seller_n a) /\
      fraction_well_formed
        (option_map of_count (Differencing.a_buyer_total_n a))
        (Differencing.a_frac_buyer_n a)) /\
     snapshot_balances_explained df_prev df_curr a)
  /\
  (forall cast_float64 name_map pick ties llmon1_files llmon2_files rows row,
     Flagged.main cast_float64 name_map pick ties llmon1_files llmon2_files
     = Written rows ->
     In row rows ->
     (exists m a,
        In m (Flagged.months_of
                (Flagged.files_by_month llmon1_files llmon2_files)) /\
        In a (Flagged.aggregate cast_float64 m
                (month_frame pick
                   (Flagged.files_by_month llmon1_files llmon2_files) m)) /\
        row = Flagged.resolve name_map a) /\
     (exists f, Flagged.frac_seller_n row = Some f /\ unit_interval f) /\
     match Flagged.out_issuer_id row with
     | Some _ => exists f, Flagged.frac_buyer_n row = Some f /\
                           unit_interval f
     | None => Flagged.frac_buyer_n row = None
     end)
  /\
  (forall ties files rows row,
     Differencing.main ties files = Written rows -> In row rows ->
     (exists p a,
        In p (consecutive files) /\
        In a (Differencing.aggregate (Differencing.file_month (snd p))
                (loaded (fst p)) (loaded (snd p))) /\
        row = Differencing.drop a) /\
     ((forall f df, In f files -> Differencing.file_load f = Some df ->
                    unique_loan_identifiers df) ->
      (exists f, Differencing.frac_seller_n row = Some f /\
                 unit_interval f) /\
      (exists f, Differencing.frac_buyer_n row = Some f /\
                 unit_interval f))).
Proof.
  split; [|split; [|split]].
  - intros cast month df a Ha. split; [|split].
    + now apply flagged_count_fractions
        with (cast_float64 := cast) (month := month) (df_month := df).
    + destruct (flagged_balances cast month df a Ha)
        as [_ [_ [_ [Es [Eb _]]]]].
      rewrite Es, Eb. split; apply div_col_guarded.
    + now apply flagged_balances with (month := month).
  - intros month A B a Ha. split; [|split].
    + destruct (snapshot_count_quotients _ _ _ _ Ha) as [Qs Qb].
      destruct (snapshot_balances _ _ _ _ Ha)
        as [_ [_ [_ [_ [Es [Eb _]]]]]].
      rewrite Qs, Qb, Es, Eb. repeat split; apply div_col_guarded.
    + intros UA UB.
      now apply differencing_count_fractions
        with (month_curr := month) (df_prev := A) (df_curr := B).
    + now apply snapshot_balances with (month_curr := month).
  - intros cast nm pick ties l1 l2 rows row E Hrow.
    apply FlowFacts.flagged_main_written in E. destruct E as [E _].
    apply (Permutation_in _ E) in Hrow.
    apply in_flat_map in Hrow. destruct Hrow as [m [Hm Hrow]].
    unfold month_rows in Hrow. apply in_map_iff in Hrow.
    destruct Hrow as [a [<- Ha]].
    split; [exists m, a; auto|].
    exact (flagged_count_fractions_bounded _ _ _ _ Ha).
  - intros ties files rows row E Hrow.
    apply WindowFacts.main_written in E. destruct E as [_ [E _]].
    apply (Permutation_in _ E) in Hrow.
    apply in_flat_map in Hrow. destruct Hrow as [p [Hp Hrow]].
    unfold pair_rows in Hrow. apply in_map_iff in Hrow.
    destruct Hrow as [a [<- Ha]].
    split; [exists p, a; auto|].
    intro Hall.
    destruct (WindowFacts.consecutive_snd _ _ Hp) as [H1 H2].
    apply (@snapshot_count_fractions_bounded
             (Differencing.file_month (snd p))
             (loaded (fst p)) (loaded (snd p)) a); auto.
    + now apply loaded_unique with (files := files).
    + apply loaded_unique with (files := files); auto.
      destruct files; [destruct H2|now right].
Qed.

Lemma fu_files_unique :
  forall f df, In f fu_files -> Differencing.file_load f = Some df ->
    unique_loan_identifiers df.
Proof.
  intros f df [<-|[<-|[]]] E; injection E as <-;
    repeat constructor; simpl; intuition discriminate.
Qed.

(** In [fu_files] loan L2 moves from A to B: half of A's two loans, and
    half of B's two. *)
Lemma fractions_guarded_counts_bounded_witness :
  exists row,
    Differencing.main as_given fu_files = Written [row] /\
    Differencing.frac_seller_n row = Some (Fin (1 # 2)) /\
    (exists f, Differencing.frac_seller_n row = Some f /\ unit_interval f) /\
    (exists f, Differencing.frac_buyer_n row = Some f /\ unit_interval f).
Proof.
  eexists. split; [vm_compute; reflexivity|]. split; [reflexivity|].
  refine (proj2 (proj2 (proj2 (proj2 fractions_guarded_counts_bounded))
                   as_given fu_files _ _ _ _) fu_files_unique).
  - vm_compute. reflexivity.
  - left. reflexivity.
Defined.

End FractionsAmended.
